(** * AutoArchaeologist: the artifact graph of [autoarchaeologist/artifact.py]

    A shallow embedding of [ArtifactClass] and of the part of the
    excavation it talks to, with the properties of the specification
    stated and settled against it.

    Python objects live in an arena: an artifact is named by its index in
    the list [arts], the excavation is the one root node.  Methods are
    functions in a state-and-exception monad; a raised exception keeps the
    state reached at the [raise], as in Python. *)

From Stdlib Require Import ZArith Lia List Strings.String Strings.Ascii Strings.Byte.
From stdpp Require Import base option list gmap strings sorting.
Import ListNotations.

Local Open Scope Z_scope.

(* ===================================================================== *)
(** * [hashlib.sha256(...).hexdigest()] *)
(* ===================================================================== *)

(** [create] names every artifact by [hashlib.sha256(bits).hexdigest()].
    The function is FIPS 180-4 SHA-256 over 32-bit words kept in [Z] with
    the wrap-around written out. *)
Module SHA256.

Definition w32 (x : Z) : Z := Z.land x 0xffffffff.

Definition add32 (x y : Z) : Z := w32 (x + y).

Definition rotr (n x : Z) : Z :=
  Z.lor (Z.shiftr x n) (w32 (Z.shiftl x (32 - n))).

Definition shr (n x : Z) : Z := Z.shiftr x n.

Definition Ch (x y z : Z) : Z :=
  Z.lxor (Z.land x y) (Z.land (w32 (Z.lnot x)) z).

Definition Maj (x y z : Z) : Z :=
  Z.lxor (Z.lxor (Z.land x y) (Z.land x z)) (Z.land y z).

Definition Sigma0 (x : Z) : Z := Z.lxor (Z.lxor (rotr 2 x) (rotr 13 x)) (rotr 22 x).
Definition Sigma1 (x : Z) : Z := Z.lxor (Z.lxor (rotr 6 x) (rotr 11 x)) (rotr 25 x).
Definition sigma0 (x : Z) : Z := Z.lxor (Z.lxor (rotr 7 x) (rotr 18 x)) (shr 3 x).
Definition sigma1 (x : Z) : Z := Z.lxor (Z.lxor (rotr 17 x) (rotr 19 x)) (shr 10 x).

(** The constants are not listed but computed, as the standard defines
    them: from the first 64 primes, the first 32 bits of the fractional
    parts of their cube roots ([K]) and, for the first 8, of their square
    roots ([H0]). *)
Definition is_prime (n : Z) : bool :=
  (1 <? n) && forallb (fun d => negb (n mod d =? 0)) (seqZ 2 (Z.sqrt n - 1)).

Definition primes : list Z := filter (fun n => is_prime n = true) (seqZ 2 310).

(** The integer cube root of [n], one bit at a time from bit [bits] down. *)
Fixpoint cbrt_bits (bits : nat) (n r : Z) : Z :=
  match bits with
  | O => r
  | S b =>
      let r' := r + Z.shiftl 1 (Z.of_nat b) in
      cbrt_bits b n (if r' * r' * r' <=? n then r' else r)
  end.

Definition frac_cbrt (p : Z) : Z := w32 (cbrt_bits 40 (Z.shiftl p 96) 0).
Definition frac_sqrt (p : Z) : Z := w32 (Z.sqrt (Z.shiftl p 64)).

Definition K : list Z := Eval vm_compute in map frac_cbrt primes.

Definition H0 : list Z := Eval vm_compute in map frac_sqrt (firstn 8 primes).

(** Big-endian encoding of [x] on [n] bytes. *)
Fixpoint be_bytes (n : nat) (x : Z) : list Z :=
  match n with
  | O => []
  | S n' => Z.land (Z.shiftr x (8 * Z.of_nat n')) 0xff :: be_bytes n' x
  end.

(** The message, the bit 1, zeros up to 56 mod 64, the bit length on 64 bits. *)
Definition pad (msg : list Z) : list Z :=
  let len := Z.of_nat (length msg) in
  msg ++ [0x80] ++ repeat 0 (Z.to_nat ((55 - len) mod 64)) ++ be_bytes 8 (8 * len).

Fixpoint words (fuel : nat) (bs : list Z) : list Z :=
  match fuel, bs with
  | S f, b0 :: b1 :: b2 :: b3 :: rest =>
      (b0 * 0x1000000 + b1 * 0x10000 + b2 * 0x100 + b3) :: words f rest
  | _, _ => []
  end.

Fixpoint blocks (fuel : nat) (ws : list Z) : list (list Z) :=
  match fuel, ws with
  | S f, _ :: _ => firstn 16 ws :: blocks f (skipn 16 ws)
  | _, _ => []
  end.

(** The message schedule, newest word first while it is built. *)
Fixpoint schedule_rev (n : nat) (rw : list Z) : list Z :=
  match n with
  | O => rw
  | S n' =>
      let w := add32 (add32 (sigma1 (nth 1 rw 0)) (nth 6 rw 0))
                     (add32 (sigma0 (nth 14 rw 0)) (nth 15 rw 0)) in
      schedule_rev n' (w :: rw)
  end.

Definition schedule (block : list Z) : list Z :=
  rev (schedule_rev 48 (rev block)).

Record regs := Regs { ra : Z; rb : Z; rc : Z; rd : Z; re : Z; rf : Z; rg : Z; rh : Z }.

Definition round (s : regs) (kw : Z * Z) : regs :=
  let '(k, w) := kw in
  let t1 := add32 (add32 (add32 (rh s) (Sigma1 (re s))) (Ch (re s) (rf s) (rg s)))
                  (add32 k w) in
  let t2 := add32 (Sigma0 (ra s)) (Maj (ra s) (rb s) (rc s)) in
  Regs (add32 t1 t2) (ra s) (rb s) (rc s) (add32 (rd s) t1) (re s) (rf s) (rg s).

Definition compress (h : regs) (block : list Z) : regs :=
  let s := fold_left round (combine K (schedule block)) h in
  Regs (add32 (ra h) (ra s)) (add32 (rb h) (rb s)) (add32 (rc h) (rc s))
       (add32 (rd h) (rd s)) (add32 (re h) (re s)) (add32 (rf h) (rf s))
       (add32 (rg h) (rg s)) (add32 (rh h) (rh s)).

Definition init : regs :=
  Regs (nth 0 H0 0) (nth 1 H0 0) (nth 2 H0 0) (nth 3 H0 0)
       (nth 4 H0 0) (nth 5 H0 0) (nth 6 H0 0) (nth 7 H0 0).

Definition digest_bytes (msg : list Z) : list Z :=
  let p := pad msg in
  let ws := words (length p) p in
  let s := fold_left compress (blocks (length ws) ws) init in
  flat_map (be_bytes 4) [ra s; rb s; rc s; rd s; re s; rf s; rg s; rh s].

Definition hexdigit (x : Z) : ascii :=
  if x <? 10 then ascii_of_N (Z.to_N (48 + x)) else ascii_of_N (Z.to_N (87 + x)).

Fixpoint hex (bs : list Z) : string :=
  match bs with
  | [] => EmptyString
  | b :: rest => String (hexdigit (Z.shiftr b 4)) (String (hexdigit (Z.land b 0xf)) (hex rest))
  end.

Definition hexdigest (msg : list byte) : string :=
  hex (digest_bytes (map (fun b => Z.of_N (Byte.to_N b)) msg)).

End SHA256.

(** The digest of the bytes [b], as the code computes it. *)
Definition sha256 (b : list byte) : string := SHA256.hexdigest b.

Definition b_ (s : string) : list byte := list_byte_of_string s.

Arguments sha256 : simpl never.
Arguments b_ : simpl never.


(* ===================================================================== *)
(** * Python values *)
(* ===================================================================== *)

(** The buffers an artifact is made of and is given: a [bytes] object, a
    [memoryview], or the [scattergather.ScatterGather] of a record list. *)
Inductive Bits :=
| Bytes (data : list byte)
| MemoryView (data : list byte)
| ScatterGather (records : list (list byte)).

Definition tobytes (b : Bits) : list byte :=
  match b with
  | Bytes d | MemoryView d => d
  | ScatterGather rs => concat rs
  end.

(** [len(b)] *)
Definition len_bits (b : Bits) : Z := Z.of_nat (length (tobytes b)).

(** An endpoint of [x[start:stop]] brought into [0, len], as Python does
    for every sequence: a negative index counts from the end. *)
Definition adjust_index (len i : Z) : Z :=
  if i <? 0 then Z.max (i + len) 0 else Z.min i len.

Definition py_slice {A} (l : list A) (start stop : Z) : list A :=
  let n := Z.of_nat (length l) in
  let lo := adjust_index n start in
  let hi := adjust_index n stop in
  take (Z.to_nat (hi - lo)) (drop (Z.to_nat lo) l).

(** Modelled from the spec: the slice of a [ScatterGather], whose module
    is not among the sources.  The spec (4.1) makes it the cross-cut of the
    records with [lo, hi): each record keeps the part of it inside the
    range, records left empty are dropped, no byte is copied or moved. *)
Fixpoint crosscut (rs : list (list byte)) (lo hi : Z) : list (list byte) :=
  match rs with
  | [] => []
  | r :: rest =>
      let n := Z.of_nat (length r) in
      let from := Z.max lo 0 in
      let part := take (Z.to_nat (Z.min hi n - from)) (drop (Z.to_nat from) r) in
      match part with
      | [] => crosscut rest (lo - n) (hi - n)
      | _ :: _ => part :: crosscut rest (lo - n) (hi - n)
      end
  end.

(** [b[start:stop]]: a [memoryview] gives a [memoryview], a
    [ScatterGather] a [ScatterGather]. *)
Definition getslice (b : Bits) (start stop : Z) : Bits :=
  match b with
  | Bytes d => Bytes (py_slice d start stop)
  | MemoryView d => MemoryView (py_slice d start stop)
  | ScatterGather rs =>
      let n := Z.of_nat (length (concat rs)) in
      ScatterGather (crosscut rs (adjust_index n start) (adjust_index n stop))
  end.

(** An [int] or [None]. *)
Abbreviation pyint := (option Z).

(** [bool(x)] of an [int] or [None]. *)
Definition truthy (x : pyint) : bool :=
  match x with
  | Some v => negb (v =? 0)
  | None => false
  end.

(** The exceptions.  [artifact.py] defines [DuplicateName]; its [assert]s
    raise [AssertionError] and an order comparison with [None] raises
    [TypeError].  [InvalidSource] is a name of the specification's error
    taxonomy (section 7). *)
Inductive exn :=
| AssertionError
| TypeError
| DuplicateName (msg : string)
| InvalidSource.

Inductive result (A : Type) :=
| Ok (a : A)
| Raise (e : exn).
Arguments Ok {A} a.
Arguments Raise {A} e.

(* ===================================================================== *)
(** * The object graph *)
(* ===================================================================== *)

(** What an artifact can be derived from: the excavation, which duck-types
    as an artifact, or the artifact at an index of the arena. *)
Inductive node :=
| NTop
| NArt (i : nat).

Global Instance node_eq_dec : EqDecision node.
Proof. solve_decision. Defined.

(** An element of [layout]: [(start, stop, this)]. *)
Abbreviation entry := (pyint * pyint * nat)%type.

(** The attributes [__init__] sets.  Those that only rendering reads
    ([interpretations], [index_representation], [link_to], [by_class]) are
    not part of the graph and are left out. *)
Record ArtifactClass := mkArtifact {
  bdx : Bits;
  digest : string;
  parents : list node;
  children : list nat;
  named : option string;
  notes : gset string;
  types : gset string;
  descriptions : list string;
  comments : list string;
  taken : bool;
  layout : list entry;
}.

(** Modelled from the spec: the [Excavation] of section 3.3, whose module
    is not among the sources: the digest table, the set of names, the
    reverse index, the list of top-level artifacts, the length of the digest
    prefix in names, and the [children] it has as a parent. *)
Record Excavation := mkExcavation {
  hashes : gmap string nat;
  names : gset string;
  index : gmap string (gset nat);
  top_level : list nat;
  digest_prefix : nat;
  top_children : list nat;
}.

Record state := mkState {
  top : Excavation;
  arts : list ArtifactClass;
}.

Definition no_artifact : ArtifactClass :=
  mkArtifact (MemoryView []) EmptyString [] [] None ∅ ∅ [] [] false [].

Global Instance ArtifactClass_inhabited : Inhabited ArtifactClass :=
  populate no_artifact.

(** The object behind a handle. *)
Definition art (st : state) (i : nat) : ArtifactClass := arts st !!! i.

(** ** Field updates *)

Definition set_parents (f : list node → list node) (a : ArtifactClass) :=
  mkArtifact (bdx a) (digest a) (f (parents a)) (children a) (named a) (notes a)
    (types a) (descriptions a) (comments a) (taken a) (layout a).
Definition set_children (f : list nat → list nat) (a : ArtifactClass) :=
  mkArtifact (bdx a) (digest a) (parents a) (f (children a)) (named a) (notes a)
    (types a) (descriptions a) (comments a) (taken a) (layout a).
Definition set_named (n : option string) (a : ArtifactClass) :=
  mkArtifact (bdx a) (digest a) (parents a) (children a) n (notes a)
    (types a) (descriptions a) (comments a) (taken a) (layout a).
Definition set_notes (f : gset string → gset string) (a : ArtifactClass) :=
  mkArtifact (bdx a) (digest a) (parents a) (children a) (named a) (f (notes a))
    (types a) (descriptions a) (comments a) (taken a) (layout a).
Definition set_types (f : gset string → gset string) (a : ArtifactClass) :=
  mkArtifact (bdx a) (digest a) (parents a) (children a) (named a) (notes a)
    (f (types a)) (descriptions a) (comments a) (taken a) (layout a).
Definition set_descriptions (f : list string → list string) (a : ArtifactClass) :=
  mkArtifact (bdx a) (digest a) (parents a) (children a) (named a) (notes a)
    (types a) (f (descriptions a)) (comments a) (taken a) (layout a).
Definition set_comments (f : list string → list string) (a : ArtifactClass) :=
  mkArtifact (bdx a) (digest a) (parents a) (children a) (named a) (notes a)
    (types a) (descriptions a) (f (comments a)) (taken a) (layout a).
Definition set_layout (f : list entry → list entry) (a : ArtifactClass) :=
  mkArtifact (bdx a) (digest a) (parents a) (children a) (named a) (notes a)
    (types a) (descriptions a) (comments a) (taken a) (f (layout a)).

Definition set_hashes (f : gmap string nat → gmap string nat) (t : Excavation) :=
  mkExcavation (f (hashes t)) (names t) (index t) (top_level t) (digest_prefix t)
    (top_children t).
Definition set_names (f : gset string → gset string) (t : Excavation) :=
  mkExcavation (hashes t) (f (names t)) (index t) (top_level t) (digest_prefix t)
    (top_children t).
Definition set_index (f : gmap string (gset nat) → gmap string (gset nat))
    (t : Excavation) :=
  mkExcavation (hashes t) (names t) (f (index t)) (top_level t) (digest_prefix t)
    (top_children t).
Definition set_top_level (f : list nat → list nat) (t : Excavation) :=
  mkExcavation (hashes t) (names t) (index t) (f (top_level t)) (digest_prefix t)
    (top_children t).
Definition set_top_children (f : list nat → list nat) (t : Excavation) :=
  mkExcavation (hashes t) (names t) (index t) (top_level t) (digest_prefix t)
    (f (top_children t)).

(** [obj.attr = ...] on the artifact [i], and on the excavation. *)
Definition upd_art (i : nat) (f : ArtifactClass → ArtifactClass) (st : state) : state :=
  mkState (top st) (alter f i (arts st)).
Definition upd_top (f : Excavation → Excavation) (st : state) : state :=
  mkState (f (top st)) (arts st).

(* ===================================================================== *)
(** * Methods: state and exceptions *)
(* ===================================================================== *)

(** A method call runs from a state to a value or an exception, and to the
    state it leaves behind in either case. *)
Definition M (A : Type) : Type := state → result A * state.

Global Instance M_ret : MRet M := λ A a st, (Ok a, st).

Global Instance M_bind : MBind M := λ A B f m st,
  match m st with
  | (Ok a, st') => f a st'
  | (Raise e, st') => (Raise e, st')
  end.

Definition raise {A} (e : exn) : M A := λ st, (Raise e, st).
Definition get : M state := λ st, (Ok st, st).
Definition modify (f : state → state) : M unit := λ st, (Ok tt, f st).

(** [assert b] *)
Definition py_assert (b : bool) : M unit :=
  if b then mret tt else raise AssertionError.

(** [for x in l: f(x)] *)
Fixpoint for_each {A} (f : A → M unit) (l : list A) : M unit :=
  match l with
  | [] => mret tt
  | x :: rest => f x ;; for_each f rest
  end.

(* ===================================================================== *)
(** * The excavation's hooks *)
(* ===================================================================== *)

(** Modelled from the spec: [Excavation.add_artifact], not among the
    sources.  Section 4.3: it registers the digest and adds the artifact to
    the top level if it has only the excavation as parent. *)
Definition add_artifact (this : nat) : M unit := λ st,
  let a := art st this in
  let st1 := upd_top (set_hashes <[digest a := this]>) st in
  if decide (parents a = [NTop])
  then (Ok tt, upd_top (set_top_level (λ l, l ++ [this])) st1)
  else (Ok tt, st1).

(** Modelled from the spec: [Excavation.add_to_index], not among the
    sources.  Section 3.3: the index maps a string to the set of artifacts
    registered under it. *)
Definition add_to_index (key : string) (this : nat) : M unit :=
  modify (upd_top (set_index (λ ix, <[key := {[this]} ∪ default ∅ (ix !! key)]> ix))).

(* ===================================================================== *)
(** * [ArtifactClass] *)
(* ===================================================================== *)

(** [__len__] *)
Definition len (st : state) (self : nat) : Z := len_bits (bdx (art st self)).

(** [parent.children.append(self)], the parent an artifact or the
    excavation. *)
Definition append_child (parent : node) (self : nat) (st : state) : state :=
  match parent with
  | NTop => upd_top (set_top_children (λ l, l ++ [self])) st
  | NArt p => upd_art p (set_children (λ l, l ++ [self])) st
  end.

(** [add_parent]: attach to parent, and vice-versa. *)
Definition add_parent (self : nat) (parent : node) : M unit :=
  py_assert (bool_decide (NArt self ≠ parent)) ;;
  modify (upd_art self (set_parents (λ l, l ++ [parent]))) ;;
  modify (append_child parent self).

(** [ArtifactClass(up, digest, bits)]: the new object takes the next
    index of the arena. *)
Definition ArtifactClass_init (up : node) (digest : string) (bits : Bits) : M nat :=
  py_assert (0 <? len_bits bits) ;;
  st ← get ;
  let self := length (arts st) in
  let bdx :=
    match bits with
    | Bytes d => MemoryView d
    | _ => bits
    end in
  modify (λ st, mkState (top st)
    (arts st ++ [mkArtifact bdx digest [] [] None ∅ ∅ [] [] false []])) ;;
  add_parent self up ;;
  add_artifact self ;;
  mret self.

(** [name]: the canonical name; an empty [named] counts as none. *)
Definition name (st : state) (self : nat) : string :=
  let a := art st self in
  match named a with
  | Some n =>
      if String.eqb n EmptyString then "⟦" +:+ substring 0 (digest_prefix (top st)) (digest a) +:+ "⟧"
      else "⟦" +:+ n +:+ "⟧"
  | None => "⟦" +:+ substring 0 (digest_prefix (top st)) (digest a) +:+ "⟧"
  end.

(** [__lt__] between two artifacts. *)
Definition artifact_lt (st : state) (self other : nat) : bool :=
  String.ltb (name st self) (name st other).

(** [add_note] *)
Definition add_note (self : nat) (note : string) : M unit :=
  modify (upd_art self (set_notes (λ s, s ∪ {[note]}))) ;;
  add_to_index note self.

(** [set_name]: set a unique name. *)
Definition set_name (self : nat) (name : string) (fallback : bool) : M unit :=
  st ← get ;
  if bool_decide (named (art st self) = Some name) then mret tt
  else if bool_decide (named (art st self) ≠ None) then
    if fallback then
      add_note self name ;;
      add_to_index name self
    else
      raise (DuplicateName
        ("Name clash '" +:+ default EmptyString (named (art st self)) +:+ "' vs '" +:+ name +:+ "'"))
  else if bool_decide (name ∈ names (top st)) then
    if fallback then
      add_note self name ;;
      add_to_index name self
    else
      raise (DuplicateName ("Name already used '" +:+ name +:+ "'"))
  else
    modify (upd_top (set_names (λ s, s ∪ {[name]}))) ;;
    modify (upd_art self (set_named (Some name))) ;;
    add_to_index name self.

(** [add_type] *)
Definition add_type (self : nat) (typ : string) : M unit :=
  modify (upd_art self (set_types (λ s, s ∪ {[typ]}))) ;;
  add_to_index typ self.

(** [has_type] *)
Definition has_type (st : state) (self : nat) (note : string) : bool :=
  bool_decide (note ∈ types (art st self)).

(** [add_description] *)
Definition add_description (self : nat) (desc : string) : M unit :=
  modify (upd_art self (set_descriptions (λ l, l ++ [desc]))).

(** [add_comment] *)
Definition add_comment (self : nat) (desc : string) : M unit :=
  modify (upd_art self (set_comments (λ l, l ++ [desc]))) ;;
  modify (upd_art self (set_notes (λ s, s ∪ {["Has Comment"]}))).

(** [has_note] *)
Definition has_note (st : state) (self : nat) (note : string) : bool :=
  bool_decide (note ∈ notes (art st self)).

(** A generator run to its end: the list of what it yields, or the
    exception that stops it; [None] when the recursion outlasts the fuel. *)
Abbreviation generated A := (option (result (list A))).

(** [yield from] each child in turn, after [acc]. *)
Fixpoint yield_children {A} (self : nat) (iter : nat → generated A)
    (cs : list nat) (acc : list A) : generated A :=
  match cs with
  | [] => Some (Ok acc)
  | child :: rest =>
      if bool_decide (child = self) then Some (Raise AssertionError)
      else
        match iter child with
        | None => None
        | Some (Raise e) => Some (Raise e)
        | Some (Ok ys) => yield_children self iter rest (acc ++ ys)
        end
  end.

(** [iter_types] *)
Fixpoint iter_types (st : state) (fuel : nat) (self : nat) (recursive : bool)
    : generated string :=
  match fuel with
  | O => None
  | S fuel' =>
      let own := elements (types (art st self)) in
      if recursive then
        yield_children self (λ child, iter_types st fuel' child recursive)
          (children (art st self)) own
      else Some (Ok own)
  end.

(** [iter_notes] *)
Fixpoint iter_notes (st : state) (fuel : nat) (self : nat) (recursive : bool)
    : generated (nat * string) :=
  match fuel with
  | O => None
  | S fuel' =>
      let own := (λ i, (self, i)) <$> elements (notes (art st self)) in
      if recursive then
        yield_children self (λ child, iter_notes st fuel' child recursive)
          (children (art st self)) own
      else Some (Ok own)
  end.

(** ** [sorted(self.layout)] *)

(** [x < y] and [x > y] between [int]s; with [None] on either side Python
    raises [TypeError]. *)
Definition py_lt (x y : pyint) : result bool :=
  match x, y with
  | Some a, Some b => Ok (a <? b)
  | _, _ => Raise TypeError
  end.

Definition py_gt (x y : pyint) : result bool :=
  match x, y with
  | Some a, Some b => Ok (a >? b)
  | _, _ => Raise TypeError
  end.

(** [x < y] between two layout tuples: the first position where the two
    differ decides, by [<] on the items there; equal tuples are not less. *)
Definition entry_lt (st : state) (x y : entry) : result bool :=
  let '(s1, t1, a1) := x in
  let '(s2, t2, a2) := y in
  if bool_decide (s1 ≠ s2) then py_lt s1 s2
  else if bool_decide (t1 ≠ t2) then py_lt t1 t2
  else if bool_decide (a1 ≠ a2) then Ok (artifact_lt st a1 a2)
  else Ok false.

(** One insertion: [x] goes before the first element it is less than, so
    after the elements equal to it. *)
Fixpoint insort (st : state) (x : entry) (l : list entry) : result (list entry) :=
  match l with
  | [] => Ok [x]
  | y :: rest =>
      match entry_lt st x y with
      | Raise e => Raise e
      | Ok true => Ok (x :: y :: rest)
      | Ok false =>
          match insort st x rest with
          | Raise e => Raise e
          | Ok r => Ok (y :: r)
          end
      end
  end.

Fixpoint sorted_from (st : state) (acc l : list entry) : result (list entry) :=
  match l with
  | [] => Ok acc
  | x :: rest =>
      match insort st x acc with
      | Raise e => Raise e
      | Ok acc' => sorted_from st acc' rest
      end
  end.

(** [sorted(l)]: a stable sort by insertion, with the exception of the
    first comparison that raises.  Python's sort is stable as well, so the
    two agree wherever every pair of elements can be compared; on two
    elements both make the one comparison [l[1] < l[0]]. *)
Definition sorted (st : state) (l : list entry) : result (list entry) :=
  sorted_from st [] l.

(** ** [create] *)

(** What [create] does once it has the bits and their digest: look the
    digest up, make the artifact or attach to the one found, record the
    range. *)
Definition create_lookup (self : nat) (start stop : pyint) (bits : Bits)
    (digest : string) : M nat :=
  st ← get ;
  this ←
    match hashes (top st) !! digest with
    | Some this =>
        if len st this =? 0 then ArtifactClass_init (NArt self) digest bits
        else add_parent this (NArt self) ;; mret this
    | None => ArtifactClass_init (NArt self) digest bits
    end ;
  (if truthy start || truthy stop
   then modify (upd_art self (set_layout (λ l, l ++ [(start, stop, this)])))
   else mret tt) ;;
  mret this.

(** The last branch of [create]: the slice [self[start:stop]]. *)
Definition create_slice (self : nat) (start stop : pyint) : M nat :=
  match py_gt stop start with
  | Raise e => raise e
  | Ok gt =>
      py_assert gt ;;
      st ← get ;
      py_assert (default 0 stop <=? len st self) ;;
      if negb (truthy start) && (default 0 stop =? len st self) then mret self
      else
        let bits := getslice (bdx (art st self)) (default 0 start) (default 0 stop) in
        create_lookup self start stop bits (sha256 (tobytes bits))
  end.

(** [create]: return a new or old artifact for some bits.  A
    [ScatterGather] is no buffer, so [hashlib.sha256] refuses one given as
    [bits]. *)
Definition create (self : nat) (bits : option Bits) (start stop : pyint)
    (records : option (list (list byte))) : M nat :=
  match records with
  | Some (r :: rs) =>
      py_assert (if bits is None then true else false) ;;
      py_assert (0 <? Z.of_nat (length (r :: rs))) ;;
      create_lookup self start stop (ScatterGather (r :: rs)) (sha256 (concat (r :: rs)))
  | _ =>
      match bits with
      | Some (MemoryView d) => create_lookup self start stop (MemoryView d) (sha256 d)
      | Some (Bytes (b :: d)) => create_lookup self start stop (Bytes (b :: d)) (sha256 (b :: d))
      | Some (ScatterGather rs) =>
          if len_bits (ScatterGather rs) =? 0 then create_slice self start stop
          else raise TypeError
      | Some (Bytes []) | None => create_slice self start stop
      end
  end.

(** ** [examined] *)

(** One turn of the loop over the sorted layout: [l] and [offset]. *)
Definition walk_step (acc : list (Z * Z) * Z) (e : entry) : list (Z * Z) * Z :=
  let '(l, offset) := acc in
  match e with
  | (Some start, Some stop, _) =>
      (if offset <? start then l ++ [(offset, start)] else l, stop)
  | _ => acc
  end.

Definition walk (sl : list entry) : list (Z * Z) * Z :=
  fold_left walk_step sl ([], 0).

(** The ranges [examined] goes on to create: none when it returns early. *)
Definition gaps (st : state) (self : nat) : result (list (Z * Z)) :=
  match sorted st (layout (art st self)) with
  | Raise e => Raise e
  | Ok sl =>
      let '(l, offset) := walk sl in
      if offset =? 0 then Ok []
      else if negb (offset =? len st self) then Ok (l ++ [(offset, len st self)])
      else Ok l
  end.

(** [examined]: examination of this artifact is complete. *)
Definition examined (self : nat) : M unit :=
  st ← get ;
  match gaps st self with
  | Raise e => raise e
  | Ok l =>
      for_each (λ '(start, stop),
        create self None (Some start) (Some stop) None ;; mret tt) l
  end.

(* ===================================================================== *)
(** * Excavations to run the code on *)
(* ===================================================================== *)

(** An excavation with nothing in it yet. *)
Definition new_excavation : state :=
  mkState (mkExcavation ∅ ∅ ∅ [] 8 []) [].

(** Modelled from the spec: top-level ingestion, which is the
    excavation's and not among the sources.  Section 3.2: an artifact is
    created once per digest, by [create] on a parent or by top-level
    ingestion, the excavation being the parent. *)
Definition add_top_artifact (bits : list byte) : M nat :=
  st ← get ;
  match hashes (top st) !! sha256 bits with
  | Some this =>
      if len st this =? 0 then ArtifactClass_init NTop (sha256 bits) (Bytes bits)
      else add_parent this NTop ;; mret this
  | None => ArtifactClass_init NTop (sha256 bits) (Bytes bits)
  end.

(** The state a call leaves, and its outcome. *)
Definition exec {A} (m : M A) (st : state) : state := (m st).2.
Definition outcome {A} (m : M A) (st : state) : result A := (m st).1.

(* ===================================================================== *)
(** * Invariants and graph notions *)
(* ===================================================================== *)

(** What holds of every excavation the code builds: each artifact is
    registered under its own digest and the table holds nothing else, no
    artifact is empty, and a layout tuple has a true [start] or [stop]
    (the test [create] makes before it appends one). *)
Record wf (st : state) : Prop := mk_wf {
  wf_registered : ∀ i a, arts st !! i = Some a → hashes (top st) !! digest a = Some i;
  wf_hashes : ∀ d i, hashes (top st) !! d = Some i → digest <$> arts st !! i = Some d;
  wf_nonempty : ∀ i a, arts st !! i = Some a → 0 < len_bits (bdx a);
  wf_layout : ∀ i a e, arts st !! i = Some a → e ∈ layout a →
    (truthy e.1.1 || truthy e.1.2) = true;
}.

(** The same, as a check that runs. *)
Definition wfb (st : state) : bool :=
  forallb (λ '(i, a),
      bool_decide (hashes (top st) !! digest a = Some i)
      && (0 <? len_bits (bdx a))
      && forallb (λ e : entry, truthy e.1.1 || truthy e.1.2) (layout a))
    (imap pair (arts st))
  && forallb (λ '(d, i), bool_decide (digest <$> arts st !! i = Some d))
       (map_to_list (hashes (top st))).

(** No artifact is its own parent or child. *)
Definition no_self_edges (st : state) : Prop :=
  ∀ i a, arts st !! i = Some a → (NArt i ∉ parents a) ∧ (i ∉ children a).

(** A call of [create], and a sequence of them run one after the other,
    whether a call raises or not. *)
Record create_call := CreateCall {
  cc_self : nat;
  cc_bits : option Bits;
  cc_start : pyint;
  cc_stop : pyint;
  cc_records : option (list (list byte));
}.

Definition run_create (st : state) (c : create_call) : state :=
  exec (create (cc_self c) (cc_bits c) (cc_start c) (cc_stop c) (cc_records c)) st.

Definition run_creates (cs : list create_call) (st : state) : state :=
  fold_left run_create cs st.

(** [this in top.index[key]] *)
Definition registered (st : state) (key : string) (this : nat) : Prop :=
  this ∈ default ∅ (index (top st) !! key).

(** Index completeness: the name, the notes and the types of every
    artifact are keys of the index, with the artifact in their sets. *)
Definition index_complete (st : state) : Prop :=
  ∀ i a, arts st !! i = Some a →
    (∀ n, named a = Some n → registered st n i) ∧
    (∀ x, x ∈ notes a → registered st x i) ∧
    (∀ x, x ∈ types a → registered st x i).

(** The mutating operations open to an examiner. *)
Inductive mutation :=
| SetName (self : nat) (name : string) (fallback : bool)
| AddNote (self : nat) (note : string)
| AddType (self : nat) (typ : string)
| AddComment (self : nat) (desc : string)
| AddDescription (self : nat) (desc : string).

Definition mutate (st : state) (m : mutation) : state :=
  match m with
  | SetName self n fb => exec (set_name self n fb) st
  | AddNote self x => exec (add_note self x) st
  | AddType self x => exec (add_type self x) st
  | AddComment self d => exec (add_comment self d) st
  | AddDescription self d => exec (add_description self d) st
  end.

Definition is_add_comment (m : mutation) : bool :=
  match m with
  | AddComment _ _ => true
  | _ => false
  end.

(** [child] is in [self.children]. *)
Definition child_of (st : state) (self child : nat) : Prop :=
  child ∈ children (art st self).

(** A graph is a DAG when its artifacts can be ranked so that every
    child ranks below its parent. *)
Definition ranked (st : state) (rank : nat → nat) : Prop :=
  ∀ i c, child_of st i c → (rank c < rank i)%nat.

(** A byte position lies in a range. *)
Definition in_range (p : Z) (r : Z * Z) : Prop := r.1 ≤ p < r.2.

(** ** The state after a call of [create] *)

(** The object [ArtifactClass(up, digest, bits)] makes. *)
Definition fresh_artifact (up : node) (digest : string) (bits : Bits) : ArtifactClass :=
  mkArtifact
    match bits with
    | Bytes d => MemoryView d
    | _ => bits
    end
    digest [up] [] None ∅ ∅ [] [] false [].

(** What a call [self.create(...)] that found or made the artifact [x]
    does to the artifact [j]: [x] gets [self] as one more parent, [self]
    gets [x] as one more child and, for a true [start] or [stop], as one
    more layout tuple. *)
Definition touched (self x : nat) (start stop : pyint) (j : nat)
    (a : ArtifactClass) : ArtifactClass :=
  let a1 := if decide (j = x) then set_parents (λ l, l ++ [NArt self]) a else a in
  if decide (j = self) then
    let a2 := set_children (λ l, l ++ [x]) a1 in
    if truthy start || truthy stop
    then set_layout (λ l, l ++ [(start, stop, x)]) a2
    else a2
  else a1.

Definition after_create (st : state) (self x : nat) (digest : string)
    (start stop : pyint) (bits : Bits) : state :=
  mkState (set_hashes <[digest := x]> (top st))
    (imap (touched self x start stop) (arts st)
     ++ if decide (x = length (arts st))
        then [fresh_artifact (NArt self) digest bits]
        else []).

(** ** Properties of method calls *)

(** A call keeps [P] true of the state, whether it returns or raises. *)
Definition preserves {A} (P : state → Prop) (m : M A) : Prop :=
  ∀ st, P st → P (m st).2.

(** Whatever a call raises satisfies [P]. *)
Definition raises_only {A} (P : exn → Prop) (m : M A) : Prop :=
  ∀ st e, (m st).1 = Raise e → P e.

(** The exceptions of Python itself that the code can run into. *)
Definition builtin_error (e : exn) : Prop :=
  e = AssertionError ∨ e = TypeError.

(** ** Excavations with something in them *)

(** The top-level artifact of the eight bytes [AAAABBBB], at index 0. *)
Definition dig_AB : state :=
  exec (add_top_artifact (b_ "AAAABBBB")) new_excavation.

(** The same, as a check that runs. *)
Definition no_self_edgesb (st : state) : bool :=
  forallb (λ '(i, a),
      bool_decide (NArt i ∉ parents a) && bool_decide (i ∉ children a))
    (imap pair (arts st)).

(** The bytes [b] as a caller hands them over, as [bytes] or behind a
    [memoryview]. *)
Definition buffer (view : bool) (b : list byte) : Bits :=
  if view then MemoryView b else Bytes b.

(** Two top-level artifacts, [AAAABBBB] at index 0 and [CCCC] at index 1. *)
Definition dig_AB_CC : state :=
  exec (add_top_artifact (b_ "AAAABBBB") ;; add_top_artifact (b_ "CCCC")) new_excavation.

(** The recursion [iter_types] and [iter_notes] share: what the artifact
    has of its own, then what each child yields. *)
Fixpoint iter_with {A} (own : nat → list A) (st : state) (fuel : nat) (self : nat)
    (recursive : bool) : generated A :=
  match fuel with
  | O => None
  | S fuel' =>
      if recursive then
        yield_children self (λ child, iter_with own st fuel' child recursive)
          (children (art st self)) (own self)
      else Some (Ok (own self))
  end.

(** A diamond: the top-level artifact 0 has the children 1 and 2, both
    of which have the child 3, and 3 bears a note and a type. *)
Definition diamond : state :=
  exec (a ← add_top_artifact (b_ "AAAABBBB") ;
        b ← create a None (Some 0) (Some 4) None ;
        c ← create a None (Some 4) (Some 8) None ;
        d ← create b (Some (Bytes (b_ "shared"))) None None None ;
        create c (Some (Bytes (b_ "shared"))) None None None ;;
        add_note d "seen" ;;
        add_type d "text")
    new_excavation.

Definition diamond_rank (i : nat) : nat :=
  match i with
  | 0 => 2
  | 1 | 2 => 1
  | _ => 0
  end%nat.

(** [ranked], as a check that runs. *)
Definition rankedb (st : state) (rank : nat → nat) : bool :=
  forallb (λ '(i, a), forallb (λ c, rank c <? rank i)%nat (children a))
    (imap pair (arts st)).

(** ** Layout tuples *)

(** The endpoints of a layout tuple. *)
Definition lo (e : entry) : Z := default 0 e.1.1.
Definition hi (e : entry) : Z := default 0 e.1.2.

(** Both endpoints are given. *)
Definition concrete (e : entry) : Prop := is_Some e.1.1 ∧ is_Some e.1.2.

(** Both endpoints are given and delimit a non-empty range of an
    artifact of length [n]: what a range-based [create] accepts. *)
Definition in_bounds (n : Z) (e : entry) : Prop :=
  concrete e ∧ 0 ≤ lo e ∧ lo e < hi e ∧ hi e ≤ n.

(** The byte position [p] lies in the range of the tuple. *)
Definition claims (e : entry) (p : Z) : Prop := concrete e ∧ lo e ≤ p < hi e.

(** The order [sorted] leaves concrete tuples in: by [start], then [stop]. *)
Definition key_le (x y : entry) : Prop :=
  lo x < lo y ∨ (lo x = lo y ∧ hi x ≤ hi y).



(** No proper slice of the artifact has the digest of the artifact. *)
Definition no_slice_collision (a : ArtifactClass) : Prop :=
  ∀ s t, 0 ≤ s → s < t → t ≤ len_bits (bdx a) → (s, t) ≠ (0, len_bits (bdx a)) →
    sha256 (tobytes (getslice (bdx a) s t)) ≠ digest a.

(** ** More excavations *)

(** Scenario S2: of [AAAABBBB] an examiner claims [2, 6). *)
Definition dig_S2 : state :=
  exec (a ← add_top_artifact (b_ "AAAABBBB") ;
        create a None (Some 2) (Some 6) None)
    new_excavation.

(** Of [AAAABBBB] one examiner claims [0, 6), another [2, 4) inside it. *)
Definition dig_nested : state :=
  exec (a ← add_top_artifact (b_ "AAAABBBB") ;
        create a None (Some 0) (Some 6) None ;;
        create a None (Some 2) (Some 4) None)
    new_excavation.

(** On [AAAABBBB], [create(bits=b"XYZ", stop=5)], which leaves a tuple
    with no [start], and then [create(start=0, stop=4)]. *)
Definition dig_mixed : state :=
  exec (a ← add_top_artifact (b_ "AAAABBBB") ;
        create a (Some (Bytes (b_ "XYZ"))) None (Some 5) None ;;
        create a None (Some 0) (Some 4) None)
    new_excavation.

(** On [AAAABBBB], [create(bits=b"XYZ", start=3)]: a tuple with a
    [start] and no [stop]. *)
Definition dig_open : state :=
  exec (a ← add_top_artifact (b_ "AAAABBBB") ;
        create a (Some (Bytes (b_ "XYZ"))) (Some 3) None None)
    new_excavation.

(** A range [examined] can hand to [create]: inside an artifact of
    length [n], not empty and not the whole of it. *)
Definition proper_range (n : Z) (g : Z * Z) : Prop :=
  0 ≤ g.1 ∧ g.1 < g.2 ∧ g.2 ≤ n ∧ g ≠ (0, n).

(** On [AAAABBBB], [create(bits=b"XYZ", stop=5)] alone: the one tuple has
    no [start]. *)
Definition dig_stop_only : state :=
  exec (a ← add_top_artifact (b_ "AAAABBBB") ;
        create a (Some (Bytes (b_ "XYZ"))) None (Some 5) None)
    new_excavation.


(** [no_slice_collision], as a check that runs. *)
Definition no_slice_collisionb (a : ArtifactClass) : bool :=
  let n := len_bits (bdx a) in
  forallb (λ s,
      forallb (λ t,
          bool_decide ((s, t) = (0, n))
          || negb (String.eqb (sha256 (tobytes (getslice (bdx a) s t))) (digest a)))
        (seqZ (s + 1) (n - s)))
    (seqZ 0 n).

(* ===================================================================== *)
(** * What the graph keeps *)
(* ===================================================================== *)

(** Every artifact bears the digest of its own bytes. *)
Definition digests_honest (st : state) : Prop :=
  ∀ i a, arts st !! i = Some a → digest a = sha256 (tobytes (bdx a)).

(** How many times [x] is in [l]. *)
Definition occurrences {A} `{EqDecision A} (x : A) (l : list A) : nat :=
  length (filter (λ y, y = x) l).

(** [add_parent] attaches to the parent, and vice-versa: an artifact has a
    parent as many times as that parent has it as a child, and every edge
    ends at an object that exists. *)
Record edges_mirrored (st : state) : Prop := mk_edges_mirrored {
  em_artifact : ∀ i j a b, arts st !! i = Some a → arts st !! j = Some b →
    occurrences (NArt j) (parents a) = occurrences i (children b);
  em_top : ∀ i a, arts st !! i = Some a →
    occurrences NTop (parents a) = occurrences i (top_children (top st));
  em_parents : ∀ i a j, arts st !! i = Some a → NArt j ∈ parents a →
    (j < length (arts st))%nat;
  em_children : ∀ i a c, arts st !! i = Some a → c ∈ children a →
    (c < length (arts st))%nat;
  em_top_children : ∀ c, c ∈ top_children (top st) → (c < length (arts st))%nat;
}.

(** The names borne are in [top.names], and no two artifacts bear the
    same name. *)
Record names_unique (st : state) : Prop := mk_names_unique {
  nu_known : ∀ i a n, arts st !! i = Some a → named a = Some n → n ∈ names (top st);
  nu_unique : ∀ i j a b n, arts st !! i = Some a → arts st !! j = Some b →
    named a = Some n → named b = Some n → i = j;
}.

(** From [st] to [st'] every artifact is still there, with the bytes,
    the digest and the place in [top.hashes] it had. *)
Definition extends (st st' : state) : Prop :=
  ∀ i a, arts st !! i = Some a →
    ∃ a', arts st' !! i = Some a' ∧ bdx a' = bdx a ∧ digest a' = digest a
      ∧ hashes (top st') !! digest a = hashes (top st) !! digest a.

(** All of it. *)
Record sound (st : state) : Prop := mk_sound {
  sound_wf : wf st;
  sound_honest : digests_honest st;
  sound_mirrored : edges_mirrored st;
  sound_no_self : no_self_edges st;
  sound_names : names_unique st;
}.

(** The calls an examiner and the driver make on an artifact. *)
Inductive operation :=
| OpCreate (c : create_call)
| OpExamined (self : nat)
| OpMutate (m : mutation).

Definition mutation_self (m : mutation) : nat :=
  match m with
  | SetName self _ _ | AddNote self _ | AddType self _
  | AddComment self _ | AddDescription self _ => self
  end.

Definition operation_self (o : operation) : nat :=
  match o with
  | OpCreate c => cc_self c
  | OpExamined self => self
  | OpMutate m => mutation_self m
  end.

(** One call, in the state the calls before it have left, whether it
    returns or raises; a call needs its object, so one on an index that
    holds no artifact is no call at all. *)
Definition run_operation (st : state) (o : operation) : state :=
  if decide (operation_self o < length (arts st))%nat then
    match o with
    | OpCreate c => run_create st c
    | OpExamined self => exec (examined self) st
    | OpMutate m => mutate st m
    end
  else st.

Definition run_operations (os : list operation) (st : state) : state :=
  fold_left run_operation os st.

(** The checks of the invariants that run. *)
Definition digests_honestb (st : state) : bool :=
  forallb (λ a, String.eqb (digest a) (sha256 (tobytes (bdx a)))) (arts st).

Definition edges_mirroredb (st : state) : bool :=
  let n := length (arts st) in
  forallb (λ '(i, a),
      forallb (λ '(j, b),
          bool_decide (occurrences (NArt j) (parents a) = occurrences i (children b)))
        (imap pair (arts st))
      && bool_decide (occurrences NTop (parents a) = occurrences i (top_children (top st)))
      && forallb (λ p, match p with NTop => true | NArt j => (j <? n)%nat end) (parents a)
      && forallb (λ c, (c <? n)%nat) (children a))
    (imap pair (arts st))
  && forallb (λ c, (c <? n)%nat) (top_children (top st)).

Definition names_uniqueb (st : state) : bool :=
  forallb (λ '(i, a),
      match named a with
      | None => true
      | Some n =>
          bool_decide (n ∈ names (top st))
          && forallb (λ '(j, b), bool_decide (named b = Some n → i = j))
               (imap pair (arts st))
      end)
    (imap pair (arts st)).

Definition soundb (st : state) : bool :=
  wfb st && digests_honestb st && edges_mirroredb st && no_self_edgesb st
  && names_uniqueb st.

(** From [st] to [st'] only annotations have changed: the arena has the
    same artifacts with the same bytes, digests, edges and layouts, and the
    digest table and the children of the excavation are the same. *)
Record same_graph (st st' : state) : Prop := mk_same_graph {
  sg_length : length (arts st') = length (arts st);
  sg_hashes : hashes (top st') = hashes (top st);
  sg_top_children : top_children (top st') = top_children (top st);
  sg_arts : ∀ i a, arts st !! i = Some a →
    ∃ a', arts st' !! i = Some a' ∧ bdx a' = bdx a ∧ digest a' = digest a
      ∧ parents a' = parents a ∧ children a' = children a ∧ layout a' = layout a;
}.

(** Calls to run on [dig_AB]: a range is derived, the artifact named and
    examined, a child asked for the bytes of its parent, a comment added,
    and a name asked for that is taken. *)
Definition demo_operations : list operation :=
  [ OpCreate (CreateCall 0 None (Some 2) (Some 6) None);
    OpMutate (SetName 0 "tape" true);
    OpExamined 0;
    OpCreate (CreateCall 1 (Some (Bytes (b_ "AAAABBBB"))) None None None);
    OpMutate (AddComment 1 "torn");
    OpMutate (SetName 1 "tape" false) ].

(** A child of [AAAABBBB] that is handed the bytes of its own parent:
    [create] finds the parent in the registry and makes it the child's
    child. *)
Definition dig_cycle : state :=
  exec (a ← add_top_artifact (b_ "AAAABBBB") ;
        c ← create a None (Some 2) (Some 6) None ;
        create c (Some (Bytes (b_ "AAAABBBB"))) None None None)
    new_excavation.

(** ** The walk of [examined], on ranges *)

(** The range of a concrete tuple. *)
Definition key (e : entry) : Z * Z := (lo e, hi e).

(** The order of [sorted] on ranges: by [start], then [stop]. *)
Definition range_le (x y : Z * Z) : Prop := x.1 < y.1 ∨ (x.1 = y.1 ∧ x.2 ≤ y.2).

(** The step of the walk at a concrete tuple of range [r]. *)
Definition walk_range (acc : list (Z * Z) * Z) (r : Z * Z) : list (Z * Z) * Z :=
  (if acc.2 <? r.1 then acc.1 ++ [(acc.2, r.1)] else acc.1, r.2).

(** Sorted ranges [rs], with the ranges that [examined] finds from the
    cursor [offset] on put where they sort, for an artifact of length [n]. *)
Fixpoint filled (n offset : Z) (rs : list (Z * Z)) : list (Z * Z) :=
  match rs with
  | [] => if offset =? n then [] else [(offset, n)]
  | r :: rest =>
      (if offset <? r.1 then [(offset, r.1)] else []) ++ r :: filled n r.2 rest
  end.

(** The call is [add_comment]. *)
Definition op_is_add_comment (o : operation) : bool :=
  match o with
  | OpMutate m => is_add_comment m
  | _ => false
  end.

(** ** Nothing is taken back *)

(** From [a] to [a'] the lists have grown at the end, the sets have
    grown, and a name that was set is still the name. *)
Definition art_grows (a a' : ArtifactClass) : Prop :=
  parents a `prefix_of` parents a'
  ∧ children a `prefix_of` children a'
  ∧ layout a `prefix_of` layout a'
  ∧ descriptions a `prefix_of` descriptions a'
  ∧ comments a `prefix_of` comments a'
  ∧ notes a ⊆ notes a'
  ∧ types a ⊆ types a'
  ∧ (named a ≠ None → named a' = named a).

Record grows (st st' : state) : Prop := mk_grows {
  grows_arts : ∀ i a, arts st !! i = Some a →
    ∃ a', arts st' !! i = Some a' ∧ art_grows a a';
  grows_names : names (top st) ⊆ names (top st');
  grows_top_children : top_children (top st) `prefix_of` top_children (top st');
  grows_index : ∀ k i, registered st k i → registered st' k i;
}.

(** ** More on [set_name] and on the iterators *)

(** From [a] to [a'] nothing but the name and the notes can have changed. *)
Definition same_content (a a' : ArtifactClass) : Prop :=
  bdx a' = bdx a ∧ digest a' = digest a
  ∧ parents a' = parents a ∧ children a' = children a ∧ layout a' = layout a
  ∧ types a' = types a ∧ descriptions a' = descriptions a ∧ comments a' = comments a.

(** Scenario S4, its first half: of the two top-level artifacts, the
    first has been named [alpha]. *)
Definition dig_alpha : state :=
  exec (set_name 0 "alpha" true) dig_AB_CC.

(** The number of paths of at most [depth] steps from [self] to [d]
    along the [children] lists, a child that is listed twice counting
    twice. *)
Fixpoint paths (st : state) (depth : nat) (self d : nat) : nat :=
  ((if decide (self = d) then 1 else 0)
   + match depth with
     | O => 0
     | S depth' => sum_list ((λ c, paths st depth' c d) <$> children (art st self))
     end)%nat.

(* ===================================================================== *)
(** * The digest function on known inputs *)
(* ===================================================================== *)

Example sha256_constants :
  length SHA256.K = 64%nat
  ∧ nth 0 SHA256.K 0 = 0x428a2f98 ∧ nth 63 SHA256.K 0 = 0xc67178f2
  ∧ nth 0 SHA256.H0 0 = 0x6a09e667 ∧ nth 7 SHA256.H0 0 = 0x5be0cd19.
Proof. vm_compute. repeat split. Qed.

Example sha256_empty :
  sha256 [] = "e3b0c44298fc1c149afbf4c8996fb92427ae41e4649b934ca495991b7852b855"%string.
Proof. vm_compute. reflexivity. Qed.

Example sha256_abc :
  sha256 (b_ "abc") = "ba7816bf8f01cfea414140de5dae2223b00361a396177a9cb410ff61f20015ad"%string.
Proof. vm_compute. reflexivity. Qed.

Example sha256_XYZ :
  sha256 (b_ "XYZ") = "ade099751d2ea9f3393f0f32d20c6b980dd5d3b0989dea599b966ae0d3cd5a1e"%string.
Proof. vm_compute. reflexivity. Qed.

Example sha256_two_blocks :
  sha256 (repeat "a"%byte 64) = "ffe054fe7ae0cb6dc65c3af9b61d5209f439851db43d0ba5997337df154668eb"%string.
Proof. vm_compute. reflexivity. Qed.

(* ===================================================================== *)
(** * Running the monad *)
(* ===================================================================== *)

Ltac run :=
  unfold mbind, M_bind, mret, M_ret, get, modify, raise, py_assert in *; simpl in *.

Lemma art_lookup st i a : arts st !! i = Some a → art st i = a.
Proof.
  intros H. unfold art. by rewrite (list_lookup_total_correct _ _ _ H).
Qed.

Lemma len_lookup st i a : arts st !! i = Some a → len st i = len_bits (bdx a).
Proof. intros H. unfold len. by rewrite (art_lookup _ _ _ H). Qed.

(* ===================================================================== *)
(** * The whole-self slice *)
(* ===================================================================== *)

(** C4.  Whole-self slice is identity: for an artifact [self] of positive
    length, [self.create(start=0, stop=len(self))] returns [self] and leaves
    the whole state, so its layout, parents and children, as it was. *)
Theorem create_whole_self (st : state) (self : nat) :
  0 < len st self →
  create self None (Some 0) (Some (len st self)) None st = (Ok self, st).
Proof.
  intros Hlen. unfold create, create_slice. simpl.
  assert (Hgt : (len st self >? 0) = true) by (apply Z.gtb_lt; lia).
  rewrite Hgt. run.
  by rewrite Z.leb_refl, Z.eqb_refl.
Qed.

(* ===================================================================== *)
(** * Field updates and lookups *)
(* ===================================================================== *)

Lemma arts_upd_art_eq st i f a :
  arts st !! i = Some a → arts (upd_art i f st) !! i = Some (f a).
Proof. intros H. unfold upd_art. simpl. by rewrite list_lookup_alter_eq, H. Qed.

Lemma arts_upd_art_ne st i j f :
  i ≠ j → arts (upd_art i f st) !! j = arts st !! j.
Proof. intros H. unfold upd_art. simpl. by rewrite list_lookup_alter_ne. Qed.

Lemma registered_add_to_index st key this :
  registered (exec (add_to_index key this) st) key this.
Proof.
  unfold registered, exec, add_to_index, modify. simpl.
  rewrite lookup_insert_eq. simpl. apply elem_of_union_l. by apply elem_of_singleton.
Qed.

Lemma registered_mono st key this k i :
  registered st k i → registered (exec (add_to_index key this) st) k i.
Proof.
  unfold registered, exec, add_to_index, modify. simpl. intros H.
  destruct (decide (key = k)) as [->|Hne].
  - rewrite lookup_insert_eq. simpl. by apply elem_of_union_r.
  - by rewrite lookup_insert_ne.
Qed.

(* ===================================================================== *)
(** * [set_name] *)
(* ===================================================================== *)

(** C5.  [set_name] on an artifact [self] and a name [n]: a no-op when
    [self] bears [n] already; when [self] bears another name or [n] is in
    [top.names], with [fallback] the name becomes a note of [self] and
    [self] is registered under [n] in the index, [named] and [top.names]
    staying as they were, and without [fallback] the call raises
    [DuplicateName] in an unchanged state; otherwise [n] joins
    [top.names], [named] becomes [n] and [self] is registered under [n].
    In both cases that change something, nothing else of [self] changes,
    no other artifact changes, and the index gains this one entry. *)
Theorem set_name_semantics (st : state) (self : nat) (a : ArtifactClass)
    (n : string) (fallback : bool) :
  arts st !! self = Some a →
  (named a = Some n → set_name self n fallback st = (Ok tt, st)) ∧
  (named a ≠ Some n → named a ≠ None ∨ n ∈ names (top st) →
     (∃ st' a', set_name self n true st = (Ok tt, st') ∧
        arts st' !! self = Some a' ∧
        named a' = named a ∧
        notes a' = notes a ∪ {[n]} ∧
        same_content a a' ∧
        (∀ k i, registered st' k i ↔ registered st k i ∨ (k = n ∧ i = self)) ∧
        names (top st') = names (top st) ∧
        hashes (top st') = hashes (top st) ∧
        ∀ j, j ≠ self → arts st' !! j = arts st !! j) ∧
     (∃ msg, set_name self n false st = (Raise (DuplicateName msg), st))) ∧
  (named a = None → n ∉ names (top st) →
     ∃ st' a', set_name self n fallback st = (Ok tt, st') ∧
        arts st' !! self = Some a' ∧
        named a' = Some n ∧
        notes a' = notes a ∧
        same_content a a' ∧
        (∀ k i, registered st' k i ↔ registered st k i ∨ (k = n ∧ i = self)) ∧
        names (top st') = names (top st) ∪ {[n]} ∧
        hashes (top st') = hashes (top st) ∧
        ∀ j, j ≠ self → arts st' !! j = arts st !! j).
Proof.
  intros Ha. pose proof (art_lookup _ _ _ Ha) as Hart.
  assert (Hdemote : ∃ st' a',
        (add_note self n ;; add_to_index n self) st = (Ok tt, st') ∧
        arts st' !! self = Some a' ∧
        named a' = named a ∧
        notes a' = notes a ∪ {[n]} ∧
        same_content a a' ∧
        (∀ k i, registered st' k i ↔ registered st k i ∨ (k = n ∧ i = self)) ∧
        names (top st') = names (top st) ∧
        hashes (top st') = hashes (top st) ∧
        ∀ j, j ≠ self → arts st' !! j = arts st !! j).
  { eexists _, (set_notes (λ s, s ∪ {[n]}) a).
    split; [reflexivity|]. simpl. split_and!; try done.
    - by rewrite list_lookup_alter_eq, Ha.
    - intros k i. unfold registered. simpl.
      destruct (decide (k = n)) as [->|Hk].
      + rewrite !lookup_insert_eq. simpl. set_solver.
      + rewrite !lookup_insert_ne by done. naive_solver.
    - intros j Hj. by rewrite list_lookup_alter_ne. }
  split_and!.
  - intros Hn. unfold set_name. run. rewrite Hart.
    by rewrite bool_decide_eq_true_2.
  - intros Hne Hor. split.
    + destruct Hdemote as (st' & a' & Hrun & Hrest). exists st', a'. split; [|done].
      unfold set_name. run. rewrite Hart.
      rewrite bool_decide_eq_false_2 by done.
      destruct (named a) as [m|] eqn:Hm.
      * by rewrite bool_decide_eq_true_2.
      * rewrite bool_decide_eq_false_2 by (intros ?; congruence).
        destruct Hor as [?|Hin]; [done|].
        by rewrite bool_decide_eq_true_2.
    + unfold set_name. run. rewrite Hart.
      rewrite bool_decide_eq_false_2 by done.
      destruct (named a) as [m|] eqn:Hm.
      * rewrite bool_decide_eq_true_2 by done. eauto.
      * rewrite bool_decide_eq_false_2 by (intros ?; congruence).
        destruct Hor as [?|Hin]; [done|].
        rewrite bool_decide_eq_true_2 by done. eauto.
  - intros Hnone Hfresh. eexists _, (set_named (Some n) a). split.
    + unfold set_name. run. rewrite Hart, Hnone.
      rewrite bool_decide_eq_false_2 by done.
      rewrite bool_decide_eq_false_2 by (intros ?; congruence).
      rewrite bool_decide_eq_false_2 by done. reflexivity.
    + simpl. split_and!; try done.
      * by rewrite list_lookup_alter_eq, Ha.
      * intros k i. unfold registered. simpl.
        destruct (decide (k = n)) as [->|Hk].
        -- rewrite !lookup_insert_eq. simpl. set_solver.
        -- rewrite !lookup_insert_ne by done. naive_solver.
      * intros j Hj. by rewrite list_lookup_alter_ne.
Qed.

(* ===================================================================== *)
(** * What [create] does to the state *)
(* ===================================================================== *)

Lemma set_hashes_id (t : Excavation) d x :
  hashes t !! d = Some x → set_hashes <[d := x]> t = t.
Proof.
  intros H. destruct t. unfold set_hashes. simpl in *. f_equal. by apply insert_id.
Qed.

(** The digest is found: [self] is attached to the artifact [x] found. *)
Lemma create_lookup_hit st self a start stop bits d x :
  wf st → arts st !! self = Some a → digest a ≠ d →
  hashes (top st) !! d = Some x →
  create_lookup self start stop bits d st
  = (Ok x, after_create st self x d start stop bits).
Proof.
  intros Hwf Ha Hd Hx.
  pose proof (wf_hashes _ Hwf _ _ Hx) as Hax.
  destruct (arts st !! x) as [ax|] eqn:Hlx; [|done]. simpl in Hax.
  assert (Hne : x ≠ self) by (intros ->; congruence).
  assert (Hlt : (x < length (arts st))%nat) by (by eapply lookup_lt_Some).
  pose proof (wf_nonempty _ Hwf _ _ Hlx) as Hpos.
  unfold create_lookup. run. rewrite Hx.
  rewrite (len_lookup _ _ _ Hlx).
  destruct (Z.eqb_spec (len_bits (bdx ax)) 0) as [?|_]; [lia|].
  unfold add_parent. run.
  rewrite bool_decide_eq_true_2 by congruence. simpl.
  unfold after_create.
  destruct (decide (x = length (arts st))) as [?|_]; [lia|]. rewrite app_nil_r.
  rewrite set_hashes_id by done.
  assert (Harts : ∀ f, alter f self (alter (set_children (λ l, l ++ [x])) self
              (alter (set_parents (λ l, l ++ [NArt self])) x (arts st)))
          = imap (λ j a, let a1 := if decide (j = x)
                     then set_parents (λ l, l ++ [NArt self]) a else a in
                   if decide (j = self) then f (set_children (λ l, l ++ [x]) a1) else a1)
              (arts st)).
  { intros f. apply list_eq. intros j. rewrite list_lookup_imap.
    destruct (decide (j = self)) as [->|Hjs].
    - rewrite !list_lookup_alter_eq, list_lookup_alter_ne by done.
      destruct (arts st !! self); simpl; [|done].
      repeat case_decide; by simplify_eq.
    - rewrite !(list_lookup_alter_ne _ _ self) by done.
      destruct (decide (j = x)) as [->|Hjx].
      + rewrite list_lookup_alter_eq.
        destruct (arts st !! x); simpl; [|done].
        repeat case_decide; by simplify_eq.
      + rewrite list_lookup_alter_ne by done.
        destruct (arts st !! j); simpl; [|done].
        repeat case_decide; by simplify_eq. }
  destruct (truthy start || truthy stop) eqn:Ht; simpl.
  - unfold upd_art, append_child. simpl. rewrite Harts. unfold touched.
    rewrite Ht. destruct st; reflexivity.
  - unfold upd_art, append_child. simpl.
    specialize (Harts id). rewrite list_alter_id in Harts by done.
    rewrite Harts. unfold touched. rewrite Ht. destruct st; reflexivity.
Qed.

Lemma arena_after_init (l : list ArtifactClass) up (p : option nat) d bits :
  (∀ i, p = Some i → (i < length l)%nat) →
  match p with
  | Some i => alter (set_children (λ cs, cs ++ [length l])) i
  | None => id
  end
    (alter (set_parents (λ ps, ps ++ [up])) (length l)
       (l ++ [mkArtifact
                match bits with
                | Bytes d0 => MemoryView d0
                | _ => bits
                end d [] [] None ∅ ∅ [] [] false []]))
  = match p with
    | Some i => alter (set_children (λ cs, cs ++ [length l])) i l
    | None => l
    end ++ [fresh_artifact up d bits].
Proof.
  intros Hp.
  rewrite alter_app_r_alt by lia. rewrite Nat.sub_diag. simpl.
  destruct p as [i|]; [|done].
  rewrite alter_app_l by auto. done.
Qed.

(** The digest is new: an artifact is made, at the end of the arena. *)
Lemma create_lookup_miss st self a start stop bits d :
  arts st !! self = Some a → 0 < len_bits bits →
  hashes (top st) !! d = None →
  create_lookup self start stop bits d st
  = (Ok (length (arts st)),
     after_create st self (length (arts st)) d start stop bits).
Proof.
  intros Ha Hpos Hnone.
  assert (Hlt : (self < length (arts st))%nat) by (by eapply lookup_lt_Some).
  unfold create_lookup. run. rewrite Hnone.
  unfold ArtifactClass_init. run.
  destruct (Z.ltb_spec 0 (len_bits bits)) as [_|?]; [|lia]. simpl.
  unfold add_parent. run.
  rewrite bool_decide_eq_true_2 by (intros [= ?]; lia). simpl.
  unfold add_artifact, art. simpl.
  pose proof (arena_after_init (arts st) (NArt self) (Some self) d bits) as Hl.
  simpl in Hl. rewrite Hl by (intros ? [= <-]; done). clear Hl.
  rewrite !lookup_total_app_r by (rewrite length_alter; lia).
  rewrite !length_alter, !Nat.sub_diag. simpl.
  destruct (decide ([NArt self] = [NTop])) as [?|_]; [done|].
  assert (Harts : ∀ f, alter f self
            (alter (set_children (λ l, l ++ [length (arts st)])) self (arts st))
          = imap (λ j a, let a1 := if decide (j = length (arts st))
                     then set_parents (λ l, l ++ [NArt self]) a else a in
                   if decide (j = self)
                   then f (set_children (λ l, l ++ [length (arts st)]) a1) else a1)
              (arts st)).
  { intros f. apply list_eq. intros j. rewrite list_lookup_imap.
    destruct (arts st !! j) as [aj|] eqn:Hj.
    - apply lookup_lt_Some in Hj as Hjlt.
      destruct (decide (j = self)) as [->|Hjs].
      + rewrite !list_lookup_alter_eq, Hj. simpl.
        repeat case_decide; first lia; done.
      + rewrite !list_lookup_alter_ne, Hj by done. simpl.
        repeat case_decide; first lia; done.
    - destruct (decide (j = self)) as [->|Hjs].
      + by rewrite !list_lookup_alter_eq, Hj.
      + by rewrite !list_lookup_alter_ne, Hj by done. }
  unfold after_create. rewrite decide_True by done.
  pose proof (arena_after_init (arts st) (NArt self) (Some self) d bits) as Hl.
  simpl in Hl.
  destruct (truthy start || truthy stop) eqn:Ht; simpl.
  - unfold upd_art, upd_top. simpl.
    rewrite Hl by (intros ? [= <-]; done).
    rewrite alter_app_l by (by rewrite length_alter).
    rewrite Harts. unfold touched. by rewrite Ht.
  - unfold upd_art, upd_top. simpl.
    rewrite Hl by (intros ? [= <-]; done).
    specialize (Harts id). rewrite list_alter_id in Harts by done.
    rewrite Harts. unfold touched. by rewrite Ht.
Qed.

Lemma touched_digest self x start stop j a :
  digest (touched self x start stop j a) = digest a.
Proof. unfold touched. repeat case_decide; by destruct (truthy start || truthy stop). Qed.

Lemma touched_bdx self x start stop j a :
  bdx (touched self x start stop j a) = bdx a.
Proof. unfold touched. repeat case_decide; by destruct (truthy start || truthy stop). Qed.

Lemma touched_layout self x start stop j a :
  layout (touched self x start stop j a)
  = if decide (j = self)
    then if truthy start || truthy stop then layout a ++ [(start, stop, x)] else layout a
    else layout a.
Proof. unfold touched. repeat case_decide; by destruct (truthy start || truthy stop). Qed.

Lemma touched_parents self x start stop j a :
  parents (touched self x start stop j a)
  = if decide (j = x) then parents a ++ [NArt self] else parents a.
Proof. unfold touched. repeat case_decide; by destruct (truthy start || truthy stop). Qed.

Lemma touched_children self x start stop j a :
  children (touched self x start stop j a)
  = if decide (j = self) then children a ++ [x] else children a.
Proof. unfold touched. repeat case_decide; by destruct (truthy start || truthy stop). Qed.

Lemma touched_notes self x start stop j a :
  notes (touched self x start stop j a) = notes a
  ∧ types (touched self x start stop j a) = types a
  ∧ named (touched self x start stop j a) = named a.
Proof. unfold touched. repeat case_decide; by destruct (truthy start || truthy stop). Qed.

Lemma arts_after_create_old st self x d start stop bits j aj :
  arts st !! j = Some aj →
  arts (after_create st self x d start stop bits) !! j
  = Some (touched self x start stop j aj).
Proof.
  intros Hj. unfold after_create. simpl.
  rewrite lookup_app_l by (rewrite length_imap; by eapply lookup_lt_Some).
  by rewrite list_lookup_imap, Hj.
Qed.

Lemma arts_after_create_new st self d start stop bits :
  arts (after_create st self (length (arts st)) d start stop bits) !! length (arts st)
  = Some (fresh_artifact (NArt self) d bits).
Proof.
  unfold after_create. simpl. rewrite decide_True by done.
  rewrite lookup_app_r by (by rewrite length_imap).
  by rewrite length_imap, Nat.sub_diag.
Qed.

Lemma arts_after_create_inv st self x d start stop bits j a' :
  arts (after_create st self x d start stop bits) !! j = Some a' →
  (∃ aj, arts st !! j = Some aj ∧ a' = touched self x start stop j aj)
  ∨ (j = length (arts st) ∧ x = j ∧ a' = fresh_artifact (NArt self) d bits).
Proof.
  unfold after_create. simpl. intros H.
  apply lookup_app_Some in H as [H|[Hle H]].
  - rewrite list_lookup_imap in H.
    destruct (arts st !! j) as [aj|]; simplify_eq/=. eauto.
  - rewrite length_imap in *. case_decide; [|by rewrite lookup_nil in H].
    apply list_lookup_singleton_Some in H as [Hz <-].
    right. split_and!; [lia|lia|done].
Qed.

Lemma length_after_create st self x d start stop bits :
  length (arts (after_create st self x d start stop bits))
  = if decide (x = length (arts st)) then S (length (arts st)) else length (arts st).
Proof.
  unfold after_create. simpl. rewrite length_app, length_imap.
  case_decide; simpl; lia.
Qed.

Lemma top_after_create st self x d start stop bits :
  top (after_create st self x d start stop bits) = set_hashes <[d := x]> (top st).
Proof. done. Qed.

Lemma hashes_after_create st self x d start stop bits :
  hashes (top (after_create st self x d start stop bits)) = <[d := x]> (hashes (top st)).
Proof. done. Qed.

(** The invariants survive a call that found or made its artifact. *)
Lemma wf_after_create st self a x d start stop bits :
  wf st → arts st !! self = Some a → 0 < len_bits bits →
  hashes (top st) !! d = Some x
  ∨ (hashes (top st) !! d = None ∧ x = length (arts st)) →
  wf (after_create st self x d start stop bits).
Proof.
  intros Hwf Ha Hpos Hx. split.
  - intros i a' Hi. rewrite hashes_after_create.
    apply arts_after_create_inv in Hi as [(ai & Hi & ->)|(-> & -> & ->)].
    + rewrite touched_digest.
      pose proof (wf_registered _ Hwf _ _ Hi) as Hreg.
      destruct (decide (d = digest ai)) as [->|Hne].
      * rewrite lookup_insert_eq. destruct Hx as [Hx|[Hx _]]; congruence.
      * by rewrite lookup_insert_ne.
    + cbn [fresh_artifact digest]. by rewrite lookup_insert_eq.
  - intros d' i. rewrite hashes_after_create. intros Hi.
    destruct (decide (d = d')) as [<-|Hne].
    + rewrite lookup_insert_eq in Hi. simplify_eq.
      destruct Hx as [Hx|[Hx ->]].
      * pose proof (wf_hashes _ Hwf _ _ Hx) as Hax.
        destruct (arts st !! i) as [ai|] eqn:Hi; [|done].
        erewrite arts_after_create_old by done. simpl.
        rewrite touched_digest. done.
      * by rewrite arts_after_create_new.
    + rewrite lookup_insert_ne in Hi by done.
      pose proof (wf_hashes _ Hwf _ _ Hi) as Hax.
      destruct (arts st !! i) as [ai|] eqn:Hai; [|done].
      erewrite arts_after_create_old by done. simpl.
      by rewrite touched_digest.
  - intros i a' Hi. apply arts_after_create_inv in Hi as [(ai & Hi & ->)|(-> & -> & ->)].
    + rewrite touched_bdx. by eapply wf_nonempty.
    + cbn [fresh_artifact bdx]. by destruct bits.
  - intros i a' e Hi He.
    apply arts_after_create_inv in Hi as [(ai & Hi & ->)|(-> & -> & ->)].
    + rewrite touched_layout in He.
      case_decide; [|by eapply wf_layout].
      destruct (truthy start || truthy stop) eqn:Ht; [|by eapply wf_layout].
      apply elem_of_app in He as [He|He]; [by eapply wf_layout|].
      apply list_elem_of_singleton in He as ->. done.
    + cbn [fresh_artifact layout] in He. by apply elem_of_nil in He.
Qed.

(* ===================================================================== *)
(** * Reasoning rules for method calls *)
(* ===================================================================== *)

Section rules.
Context {A B : Type}.
Implicit Types (m : M A) (f : A → M B).

Lemma preserves_bind P m f :
  preserves P m → (∀ a, preserves P (f a)) → preserves P (m ≫= f).
Proof.
  intros Hm Hf st HP. specialize (Hm st HP). unfold mbind, M_bind.
  destruct (m st) as [[a|e] st']; simpl in *; [by apply Hf|done].
Qed.

Lemma preserves_ret P (a : A) : preserves P (mret a).
Proof. by intros st HP. Qed.

Lemma preserves_raise P e : preserves P (raise e : M A).
Proof. by intros st HP. Qed.

Lemma raises_only_bind (P : exn → Prop) m f :
  raises_only P m → (∀ a, raises_only P (f a)) → raises_only P (m ≫= f).
Proof.
  intros Hm Hf st e. specialize (Hm st). unfold mbind, M_bind.
  destruct (m st) as [[a|e'] st']; simpl in *.
  - apply Hf.
  - intros [= <-]. by apply Hm.
Qed.

Lemma raises_only_ret (P : exn → Prop) (a : A) : raises_only P (mret a).
Proof. by intros st e. Qed.

Lemma raises_only_raise (P : exn → Prop) e : P e → raises_only P (raise e : M A).
Proof. intros He st e' [= <-]. done. Qed.
End rules.

Lemma preserves_get P : preserves P get.
Proof. by intros st HP. Qed.

Lemma preserves_modify (P : state → Prop) f :
  (∀ st, P st → P (f st)) → preserves P (modify f).
Proof. intros Hf st HP. by apply Hf. Qed.

Lemma preserves_assert P b : preserves P (py_assert b).
Proof. by destruct b; intros st HP. Qed.

Lemma raises_only_get P : raises_only P get.
Proof. by intros st e. Qed.

Lemma raises_only_modify P f : raises_only P (modify f).
Proof. by intros st e. Qed.

Lemma raises_only_assert b : raises_only builtin_error (py_assert b).
Proof. destruct b; intros st e [= <-]. by left. Qed.

Create HintDb calls.
#[local] Hint Resolve preserves_ret preserves_raise preserves_get preserves_assert
  raises_only_ret raises_only_get raises_only_modify raises_only_assert : calls.

Ltac step_call :=
  first
    [ apply preserves_bind; [|intros ?]
    | apply raises_only_bind; [|intros ?]
    | apply raises_only_raise; (by left) || (by right)
    | solve [auto with calls] ].

(* ===================================================================== *)
(** * [create] raises Python's own errors only *)
(* ===================================================================== *)







(* ===================================================================== *)
(** * No artifact becomes its own parent or child *)
(* ===================================================================== *)

Lemma no_self_edges_upd_top f st : no_self_edges st → no_self_edges (upd_top f st).
Proof. done. Qed.

Lemma no_self_edges_upd_art i f st :
  (∀ a, (NArt i ∉ parents a) → (i ∉ children a) →
        (NArt i ∉ parents (f a)) ∧ (i ∉ children (f a))) →
  no_self_edges st → no_self_edges (upd_art i f st).
Proof.
  intros Hf Hst j a. unfold upd_art. simpl. intros Hj.
  destruct (decide (i = j)) as [->|Hne].
  - rewrite list_lookup_alter_eq in Hj.
    destruct (arts st !! j) as [aj|] eqn:Haj; simplify_eq/=.
    destruct (Hst _ _ Haj). by apply Hf.
  - rewrite list_lookup_alter_ne in Hj by done. by apply Hst.
Qed.

Lemma add_parent_no_self self parent : preserves no_self_edges (add_parent self parent).
Proof.
  intros st Hst. unfold add_parent. run.
  case_bool_decide as Hne; [|done]. simpl.
  unfold append_child. destruct parent as [|p].
  - apply no_self_edges_upd_top, no_self_edges_upd_art; [|done].
    intros a Hp Hc. split; [|done]. simpl.
    rewrite elem_of_app, list_elem_of_singleton. by intros [?|?].
  - apply no_self_edges_upd_art.
    + intros a Hp Hc. split; [done|]. simpl.
      rewrite elem_of_app, list_elem_of_singleton.
      intros [?| ->]; [done|]. by apply Hne.
    + apply no_self_edges_upd_art; [|done].
      intros a Hp Hc. split; [|done]. simpl.
      rewrite elem_of_app, list_elem_of_singleton. by intros [?|?].
Qed.

Lemma add_artifact_no_self this : preserves no_self_edges (add_artifact this).
Proof. intros st Hst. unfold add_artifact. by case_decide. Qed.

Lemma init_no_self up d bits : preserves no_self_edges (ArtifactClass_init up d bits).
Proof.
  unfold ArtifactClass_init.
  do 2 (step_call; [step_call|]).
  step_call.
  - apply preserves_modify. intros st Hst j aj. simpl. intros Hj.
    apply lookup_app_Some in Hj as [Hj|[_ Hj]]; [by apply Hst|].
    apply list_lookup_singleton_Some in Hj as [_ <-]. simpl.
    split; apply not_elem_of_nil.
  - step_call; [apply add_parent_no_self|].
    step_call; [apply add_artifact_no_self|step_call].
Qed.

Lemma create_lookup_no_self self start stop bits d :
  preserves no_self_edges (create_lookup self start stop bits d).
Proof.
  unfold create_lookup. step_call; [step_call|]. step_call.
  - destruct (hashes (top a) !! d) as [this|]; [|apply init_no_self].
    case_match; [apply init_no_self|].
    step_call; [apply add_parent_no_self|step_call].
  - step_call; [|step_call]. case_match; [|step_call].
    apply preserves_modify. intros st. by apply no_self_edges_upd_art.
Qed.

Lemma create_slice_no_self self start stop :
  preserves no_self_edges (create_slice self start stop).
Proof.
  unfold create_slice.
  destruct (py_gt stop start) as [gt|e]; [|step_call].
  do 3 (step_call; [step_call|]).
  case_match; [step_call|apply create_lookup_no_self].
Qed.

Lemma create_no_self self bits start stop records :
  preserves no_self_edges (create self bits start stop records).
Proof.
  unfold create.
  destruct records as [[|r rs]|];
    [| do 2 (step_call; [step_call|]); apply create_lookup_no_self |];
    (destruct bits as [[[|b d]|d|rs]|];
       [ apply create_slice_no_self | apply create_lookup_no_self
       | apply create_lookup_no_self
       | case_match; [apply create_slice_no_self | step_call]
       | apply create_slice_no_self ]).
Qed.

Lemma run_creates_no_self cs st :
  no_self_edges st → no_self_edges (run_creates cs st).
Proof.
  revert st. induction cs as [|c cs IH]; intros st Hst; [done|].
  apply IH. by apply create_no_self.
Qed.

(* ===================================================================== *)
(** * The checks that run are sound *)
(* ===================================================================== *)

Lemma elem_of_imap_pair {A} (l : list A) i a :
  l !! i = Some a → (i, a) ∈ imap pair l.
Proof.
  intros H. apply list_elem_of_lookup. exists i.
  by rewrite list_lookup_imap, H.
Qed.

Lemma wfb_sound st : wfb st = true → wf st.
Proof.
  unfold wfb. intros H.
  apply andb_true_iff in H as [Harts Hhashes].
  apply Is_true_true, forallb_True in Harts.
  apply Is_true_true, forallb_True in Hhashes.
  rewrite Forall_forall in Harts. rewrite Forall_forall in Hhashes.
  assert (Hart : ∀ i a, arts st !! i = Some a →
    hashes (top st) !! digest a = Some i ∧ 0 < len_bits (bdx a)
    ∧ ∀ e : entry, e ∈ layout a → (truthy e.1.1 || truthy e.1.2) = true).
  { intros i a Hi. specialize (Harts _ (elem_of_imap_pair _ _ _ Hi)).
    simpl in Harts. apply Is_true_true in Harts.
    apply andb_true_iff in Harts as [Hx Hl].
    apply andb_true_iff in Hx as [Hr Hp].
    apply bool_decide_eq_true in Hr. apply Z.ltb_lt in Hp.
    split_and!; [done|done|].
    apply Is_true_true, forallb_True in Hl. rewrite Forall_forall in Hl.
    intros e He. by apply Is_true_true, Hl. }
  split.
  - intros i a Hi. by destruct (Hart _ _ Hi) as (?&?&?).
  - intros d i Hi. apply elem_of_map_to_list in Hi.
    specialize (Hhashes _ Hi). simpl in Hhashes.
    by apply bool_decide_unpack in Hhashes.
  - intros i a Hi. by destruct (Hart _ _ Hi) as (?&?&?).
  - intros i a e Hi He. destruct (Hart _ _ Hi) as (?&?&Hl). by apply Hl.
Qed.

Lemma no_self_edgesb_sound st : no_self_edgesb st = true → no_self_edges st.
Proof.
  unfold no_self_edgesb. intros H i a Hi.
  apply Is_true_true, forallb_True in H. rewrite Forall_forall in H.
  specialize (H _ (elem_of_imap_pair _ _ _ Hi)). simpl in H.
  apply Is_true_true, andb_true_iff in H as [Hp Hc].
  by apply bool_decide_eq_true in Hp, Hc.
Qed.

Example dig_AB_wf : wf dig_AB.
Proof. apply wfb_sound. vm_compute. reflexivity. Qed.

(* ===================================================================== *)
(** * Input with the digest of [self] *)
(* ===================================================================== *)

Lemma create_lookup_self st self a start stop bits :
  wf st → arts st !! self = Some a →
  create_lookup self start stop bits (digest a) st = (Raise AssertionError, st).
Proof.
  intros Hwf Ha. unfold create_lookup. run.
  rewrite (wf_registered _ Hwf _ _ Ha), (len_lookup _ _ _ Ha).
  pose proof (wf_nonempty _ Hwf _ _ Ha).
  destruct (Z.eqb_spec (len_bits (bdx a)) 0) as [?|_]; [lia|].
  unfold add_parent. run.
  by rewrite bool_decide_eq_false_2 by (by intros ?).
Qed.

(** C10.  When the input [b] has the digest of the artifact [self] itself,
    [self.create(bits=b)] does not return: the digest is found in
    [top.hashes], [self.add_parent(self)] is called and its assertion
    fails, in an unchanged state (empty [bytes] never get that far: the
    comparison of the absent range raises [TypeError] first).  And no
    sequence of calls of [create], whatever they are given and whether they
    raise or not, makes an artifact its own parent or child. *)
Theorem create_own_digest (st : state) (self : nat) (a : ArtifactClass) (b : list byte) :
  wf st → no_self_edges st →
  arts st !! self = Some a →
  sha256 b = digest a →
  create self (Some (Bytes b)) None None None st
    = (Raise (if b is [] then TypeError else AssertionError), st)
  ∧ create self (Some (MemoryView b)) None None None st = (Raise AssertionError, st)
  ∧ ∀ cs, no_self_edges (run_creates cs st).
Proof.
  intros Hwf Hns Ha Hd. split_and!.
  - destruct b as [|b0 b]; [reflexivity|].
    unfold create. rewrite Hd. by eapply create_lookup_self.
  - unfold create. rewrite Hd. by eapply create_lookup_self.
  - intros cs. by apply run_creates_no_self.
Qed.

Lemma create_own_digest_witness :
  create 0 (Some (Bytes (b_ "AAAABBBB"))) None None None dig_AB
    = (Raise AssertionError, dig_AB)
  ∧ create 0 (Some (MemoryView (b_ "AAAABBBB"))) None None None dig_AB
    = (Raise AssertionError, dig_AB)
  ∧ ∀ cs, no_self_edges (run_creates cs dig_AB).
Proof.
  apply (create_own_digest dig_AB 0 (art dig_AB 0) (b_ "AAAABBBB")).
  - apply wfb_sound. vm_compute. reflexivity.
  - apply no_self_edgesb_sound. vm_compute. reflexivity.
  - vm_compute. reflexivity.
  - vm_compute. reflexivity.
Defined.

(* ===================================================================== *)
(** * Empty input *)
(* ===================================================================== *)




Lemma create_whole_self_witness :
  0 < len dig_AB 0
  ∧ create 0 None (Some 0) (Some (len dig_AB 0)) None dig_AB = (Ok 0%nat, dig_AB).
Proof.
  split; [vm_compute; reflexivity|].
  apply (create_whole_self dig_AB 0). vm_compute. reflexivity.
Defined.

(** The three cases, on the two top-level artifacts of scenario S4: the
    first bears [alpha] and is given it again; the second asks for
    [alpha], which is taken; the first, with no name yet, is given
    [alpha]. *)
Lemma set_name_semantics_witness :
  set_name 0 "alpha" true dig_alpha = (Ok tt, dig_alpha)
  ∧ ((∃ st' a', set_name 1 "alpha" true dig_alpha = (Ok tt, st') ∧
        arts st' !! 1%nat = Some a' ∧
        named a' = named (art dig_alpha 1) ∧
        notes a' = notes (art dig_alpha 1) ∪ {["alpha"]} ∧
        same_content (art dig_alpha 1) a' ∧
        (∀ k i, registered st' k i
                ↔ registered dig_alpha k i ∨ (k = "alpha" ∧ i = 1%nat)) ∧
        names (top st') = names (top dig_alpha) ∧
        hashes (top st') = hashes (top dig_alpha) ∧
        ∀ j, j ≠ 1%nat → arts st' !! j = arts dig_alpha !! j)
     ∧ (∃ msg, set_name 1 "alpha" false dig_alpha
               = (Raise (DuplicateName msg), dig_alpha)))
  ∧ (∃ st' a', set_name 0 "alpha" true dig_AB_CC = (Ok tt, st') ∧
        arts st' !! 0%nat = Some a' ∧
        named a' = Some "alpha" ∧
        notes a' = notes (art dig_AB_CC 0) ∧
        same_content (art dig_AB_CC 0) a' ∧
        (∀ k i, registered st' k i
                ↔ registered dig_AB_CC k i ∨ (k = "alpha" ∧ i = 0%nat)) ∧
        names (top st') = names (top dig_AB_CC) ∪ {["alpha"]} ∧
        hashes (top st') = hashes (top dig_AB_CC) ∧
        ∀ j, j ≠ 0%nat → arts st' !! j = arts dig_AB_CC !! j).
Proof.
  split; [|split].
  - destruct (set_name_semantics dig_alpha 0 (art dig_alpha 0) "alpha" true)
      as (Hsame & _ & _); [vm_compute; reflexivity|].
    apply Hsame. vm_compute. reflexivity.
  - destruct (set_name_semantics dig_alpha 1 (art dig_alpha 1) "alpha" true)
      as (_ & Htaken & _); [vm_compute; reflexivity|].
    apply Htaken.
    + vm_compute. discriminate.
    + right. apply (bool_decide_unpack _). vm_compute. exact I.
  - destruct (set_name_semantics dig_AB_CC 0 (art dig_AB_CC 0) "alpha" true)
      as (_ & _ & Hfresh); [vm_compute; reflexivity|].
    apply Hfresh.
    + vm_compute. reflexivity.
    + apply (bool_decide_unpack _). vm_compute. exact I.
Defined.

(** Scenario S4: [set_name("alpha")] on A, then on B with the fallback. *)
Example set_name_S4 :
  let st := exec (set_name 1 "alpha" true) dig_alpha in
  named (art st 0) = Some "alpha"%string
  ∧ named (art st 1) = None
  ∧ "alpha"%string ∈ notes (art st 1)
  ∧ index (top st) !! "alpha"%string = Some ({[0%nat; 1%nat]} : gset nat).
Proof.
  split_and!; [vm_compute; reflexivity..| |].
  - apply (bool_decide_unpack _). vm_compute. exact I.
  - apply (bool_decide_unpack _). vm_compute. exact I.
Qed.

(* ===================================================================== *)
(** * Content-addressed identity *)
(* ===================================================================== *)

(** A call on bits whose digest is not the caller's own finds or makes
    the artifact, and keeps the invariants. *)
Lemma create_lookup_spec st self a start stop bits d :
  wf st → arts st !! self = Some a → digest a ≠ d → 0 < len_bits bits →
  ∃ x, create_lookup self start stop bits d st
       = (Ok x, after_create st self x d start stop bits)
     ∧ (hashes (top st) !! d = Some x
        ∨ (hashes (top st) !! d = None ∧ x = length (arts st)))
     ∧ x ≠ self
     ∧ wf (after_create st self x d start stop bits).
Proof.
  intros Hwf Ha Hd Hpos.
  destruct (hashes (top st) !! d) as [x|] eqn:Hx.
  - exists x. split_and!.
    + by eapply create_lookup_hit.
    + by left.
    + intros ->. pose proof (wf_hashes _ Hwf _ _ Hx) as H.
      rewrite Ha in H. simplify_eq/=.
    + eapply wf_after_create; eauto.
  - exists (length (arts st)). split_and!.
    + by eapply create_lookup_miss.
    + by right.
    + apply lookup_lt_Some in Ha. lia.
    + eapply wf_after_create; eauto.
Qed.

Lemma create_buffer self view b start stop :
  b ≠ [] →
  create self (Some (buffer view b)) start stop None
  = create_lookup self start stop (buffer view b) (sha256 b).
Proof. intros Hb. destruct view, b; done. Qed.

Lemma len_bits_buffer view b : b ≠ [] → 0 < len_bits (buffer view b).
Proof. intros Hb. destruct view, b; try done; unfold len_bits; simpl; lia. Qed.

(** C1, as the code has it.  Identity is content-addressed: for a
    non-empty byte sequence [b] and two parents [p1] and [p2], the same or
    not, neither of which has the digest of [b] itself, [create(bits=b)]
    on one and then on the other returns the same artifact [x]; after the
    calls [x] is what [top.hashes] holds for the digest, it is the one
    artifact with this digest, its [parents] are what they were (none, if
    the first call made it) followed by [p1] and [p2], and each call has
    appended [x] to the [children] of its caller. *)
Theorem create_content_addressed (st : state) (p1 p2 : nat) (a1 a2 : ArtifactClass)
    (b : list byte) (view1 view2 : bool) :
  wf st → b ≠ [] →
  arts st !! p1 = Some a1 → arts st !! p2 = Some a2 →
  digest a1 ≠ sha256 b → digest a2 ≠ sha256 b →
  ∃ x st1 st2,
    create p1 (Some (buffer view1 b)) None None None st = (Ok x, st1)
    ∧ create p2 (Some (buffer view2 b)) None None None st1 = (Ok x, st2)
    ∧ hashes (top st2) !! sha256 b = Some x
    ∧ (∀ j aj, arts st2 !! j = Some aj → digest aj = sha256 b ↔ j = x)
    ∧ parents (art st2 x)
      = default [] (parents <$> arts st !! x) ++ [NArt p1; NArt p2]
    ∧ children (art st1 p1) = children a1 ++ [x]
    ∧ children (art st2 p2) = children (art st1 p2) ++ [x]
    ∧ wf st2.
Proof.
  intros Hwf Hb Hp1 Hp2 Hd1 Hd2.
  destruct (create_lookup_spec st p1 a1 None None (buffer view1 b) (sha256 b))
    as (x & Hrun1 & Hcase & Hx1 & Hwf1); auto using len_bits_buffer.
  set (st1 := after_create st p1 x (sha256 b) None None (buffer view1 b)) in *.
  assert (Hh1 : hashes (top st1) !! sha256 b = Some x)
    by (unfold st1; by rewrite hashes_after_create, lookup_insert_eq).
  assert (Hp2' : arts st1 !! p2 = Some (touched p1 x None None p2 a2))
    by (by apply arts_after_create_old).
  assert (Hrun2 : create_lookup p2 None None (buffer view2 b) (sha256 b) st1
                  = (Ok x, after_create st1 p2 x (sha256 b) None None (buffer view2 b))).
  { eapply create_lookup_hit; eauto. by rewrite touched_digest. }
  set (st2 := after_create st1 p2 x (sha256 b) None None (buffer view2 b)) in *.
  assert (Hwf2 : wf st2) by (eapply wf_after_create; eauto using len_bits_buffer).
  assert (Hh2 : hashes (top st2) !! sha256 b = Some x)
    by (unfold st2; by rewrite hashes_after_create, lookup_insert_eq).
  assert (Hx2 : x ≠ p2).
  { intros ->. pose proof (wf_hashes _ Hwf1 _ _ Hh1) as H.
    rewrite Hp2' in H. simpl in H. rewrite touched_digest in H. congruence. }
  (* the artifact [x] after the first call *)
  assert (Hax1 : ∃ ax1, arts st1 !! x = Some ax1
            ∧ parents ax1 = default [] (parents <$> arts st !! x) ++ [NArt p1]).
  { destruct Hcase as [Hhit|[Hmiss ->]].
    - pose proof (wf_hashes _ Hwf _ _ Hhit) as H.
      destruct (arts st !! x) as [ax|] eqn:Hax; [|done].
      eexists. split; [by apply arts_after_create_old|].
      rewrite touched_parents. by rewrite decide_True.
    - eexists. split; [apply arts_after_create_new|].
      by rewrite lookup_ge_None_2. }
  destruct Hax1 as (ax1 & Hax1 & Hpar1).
  exists x, st1, st2. split_and!.
  - by rewrite create_buffer.
  - by rewrite create_buffer.
  - done.
  - intros j aj Hj. split.
    + intros Hdj. pose proof (wf_registered _ Hwf2 _ _ Hj) as H. congruence.
    + intros ->. pose proof (wf_hashes _ Hwf2 _ _ Hh2) as H.
      rewrite Hj in H. by simplify_eq/=.
  - erewrite art_lookup by (by apply arts_after_create_old).
    rewrite touched_parents, decide_True, Hpar1, <- app_assoc by done. done.
  - erewrite art_lookup by (by apply arts_after_create_old).
    by rewrite touched_children, decide_True.
  - erewrite (art_lookup st2) by (by apply arts_after_create_old).
    rewrite (art_lookup st1 _ _ Hp2').
    by rewrite (touched_children p2), decide_True.
  - done.
Qed.

(** Scenario S3: two parents each [create(bits=b"XYZ")]. *)
Lemma create_content_addressed_witness :
  ∃ x st1 st2,
    create 0 (Some (Bytes (b_ "XYZ"))) None None None dig_AB_CC = (Ok x, st1)
    ∧ create 1 (Some (Bytes (b_ "XYZ"))) None None None st1 = (Ok x, st2)
    ∧ hashes (top st2) !! sha256 (b_ "XYZ") = Some x
    ∧ (∀ j aj, arts st2 !! j = Some aj → digest aj = sha256 (b_ "XYZ") ↔ j = x)
    ∧ parents (art st2 x)
      = default [] (parents <$> arts dig_AB_CC !! x) ++ [NArt 0; NArt 1]
    ∧ children (art st1 0) = children (art dig_AB_CC 0) ++ [x]
    ∧ children (art st2 1) = children (art st1 1) ++ [x]
    ∧ wf st2.
Proof.
  apply (create_content_addressed dig_AB_CC 0 1
           (art dig_AB_CC 0) (art dig_AB_CC 1) (b_ "XYZ") false false).
  - apply wfb_sound. vm_compute. reflexivity.
  - vm_compute. discriminate.
  - vm_compute. reflexivity.
  - vm_compute. reflexivity.
  - vm_compute. discriminate.
  - vm_compute. discriminate.
Defined.

(** C1 as it is stated fails: with [b] the bytes of the second parent,
    the call on the first parent returns that parent as the artifact, and
    the call on the second parent itself returns nothing, its assertion
    failing. *)
Lemma create_content_addressed_fails :
  outcome (create 0 (Some (Bytes (b_ "CCCC"))) None None None) dig_AB_CC = Ok 1%nat
  ∧ outcome (create 1 (Some (Bytes (b_ "CCCC"))) None None None)
      (exec (create 0 (Some (Bytes (b_ "CCCC"))) None None None) dig_AB_CC)
    = Raise AssertionError.
Proof. split; vm_compute; reflexivity. Qed.

(* ===================================================================== *)
(** * The index *)
(* ===================================================================== *)

Lemma registered_upd_art st i f key this :
  registered (upd_art i f st) key this ↔ registered st key this.
Proof. done. Qed.

Lemma index_complete_add_to_index st key this :
  index_complete st → index_complete (exec (add_to_index key this) st).
Proof.
  intros Hst i a Hi. destruct (Hst i a Hi) as (Hn & Hx & Ht).
  split_and!; intros; apply registered_mono; auto.
Qed.

(** Registering an annotation as it is set keeps the index complete. *)
Lemma index_complete_annotate st self f key :
  index_complete st →
  (∀ a, (∀ n, named (f a) = Some n → named a = Some n ∨ n = key)
        ∧ (∀ x, x ∈ notes (f a) → x ∈ notes a ∨ x = key)
        ∧ (∀ x, x ∈ types (f a) → x ∈ types a ∨ x = key)) →
  index_complete (exec (add_to_index key self) (upd_art self f st)).
Proof.
  intros Hst Hf i a' Hi.
  change (arts (exec (add_to_index key self) (upd_art self f st)))
    with (alter f self (arts st)) in Hi.
  assert (Hreg : ∀ k, registered st k i →
            registered (exec (add_to_index key self) (upd_art self f st)) k i).
  { intros k Hk. by apply registered_mono. }
  destruct (decide (self = i)) as [->|Hne].
  - rewrite list_lookup_alter_eq in Hi.
    destruct (arts st !! i) as [a|] eqn:Ha; simplify_eq/=.
    destruct (Hst i a Ha) as (Hn & Hx & Ht).
    destruct (Hf a) as (Hfn & Hfx & Hft).
    split_and!.
    + intros n Hnm. destruct (Hfn _ Hnm) as [?| ->]; [auto|].
      apply registered_add_to_index.
    + intros x Hin. destruct (Hfx _ Hin) as [?| ->]; [auto|].
      apply registered_add_to_index.
    + intros x Hin. destruct (Hft _ Hin) as [?| ->]; [auto|].
      apply registered_add_to_index.
  - rewrite list_lookup_alter_ne in Hi by done.
    destruct (Hst i a' Hi) as (Hn & Hx & Ht). split_and!; auto.
Qed.

Lemma add_note_index_complete st self note :
  index_complete st → index_complete (exec (add_note self note) st).
Proof.
  intros Hst. apply (index_complete_annotate st self _ note Hst).
  intros a. split_and!; simpl; auto.
  intros x [?| ->%elem_of_singleton]%elem_of_union; auto.
Qed.

Lemma add_type_index_complete st self typ :
  index_complete st → index_complete (exec (add_type self typ) st).
Proof.
  intros Hst. apply (index_complete_annotate st self _ typ Hst).
  intros a. split_and!; simpl; auto.
  intros x [?| ->%elem_of_singleton]%elem_of_union; auto.
Qed.

Lemma add_description_index_complete st self desc :
  index_complete st → index_complete (exec (add_description self desc) st).
Proof.
  intros Hst i a' Hi. unfold exec, add_description, modify, upd_art in Hi. simpl in Hi.
  destruct (decide (self = i)) as [->|Hne].
  - rewrite list_lookup_alter_eq in Hi.
    destruct (arts st !! i) as [a|] eqn:Ha; simplify_eq/=.
    by apply (Hst i a).
  - rewrite list_lookup_alter_ne in Hi by done. by apply (Hst i a').
Qed.

Lemma set_name_index_complete st self n fallback :
  index_complete st → index_complete (exec (set_name self n fallback) st).
Proof.
  intros Hst. unfold exec, set_name. run.
  case_bool_decide; [done|].
  assert (Hdemote : index_complete (exec (add_note self n ;; add_to_index n self) st)).
  { change (exec (add_note self n ;; add_to_index n self) st)
      with (exec (add_to_index n self) (exec (add_note self n) st)).
    by apply index_complete_add_to_index, add_note_index_complete. }
  case_bool_decide; [by destruct fallback|].
  case_bool_decide; [by destruct fallback|].
  simpl.
  apply (index_complete_annotate (upd_top (set_names (λ s, s ∪ {[n]})) st) self
           (set_named (Some n)) n); [done|].
  intros a. split_and!; simpl; auto. intros m [= <-]. by right.
Qed.

(** Every mutation but [add_comment] keeps the index complete. *)
Lemma mutate_index_complete st m :
  is_add_comment m = false → index_complete st → index_complete (mutate st m).
Proof.
  intros Hm Hst. destruct m; simpl; try done;
    auto using set_name_index_complete, add_note_index_complete,
      add_type_index_complete, add_description_index_complete.
Qed.

Lemma dig_AB_index_complete : index_complete dig_AB.
Proof.
  intros i a Hi.
  assert (Harts : arts dig_AB
    = [fresh_artifact NTop (sha256 (b_ "AAAABBBB")) (Bytes (b_ "AAAABBBB"))])
    by (vm_compute; reflexivity).
  rewrite Harts in Hi. clear Harts. destruct i as [|i]; [|done].
  injection Hi as <-. cbn [fresh_artifact named notes types].
  split_and!; [done|intros x Hx..]; by apply elem_of_empty in Hx.
Qed.

(** C6 on the code.  On an excavation whose index is complete,
    [add_comment] puts the note [Has Comment] on the artifact and registers
    it nowhere: the index has no such key, and is complete no more. *)
Theorem add_comment_not_indexed :
  let st := mutate dig_AB (AddComment 0 "found in the margin") in
  index_complete dig_AB
  ∧ "Has Comment" ∈ notes (art st 0)
  ∧ index (top st) !! "Has Comment" = None
  ∧ ¬ index_complete st.
Proof.
  assert (Hnote : "Has Comment"
            ∈ notes (art (mutate dig_AB (AddComment 0 "found in the margin")) 0)).
  { unfold mutate, exec, add_comment, art. run.
    rewrite !list_lookup_total_alter_eq by (vm_compute; lia). simpl.
    apply elem_of_union_r. by apply elem_of_singleton. }
  assert (Hidx : index (top (mutate dig_AB (AddComment 0 "found in the margin")))
                 !! "Has Comment" = None) by (vm_compute; reflexivity).
  split_and!; [apply dig_AB_index_complete|done|done|].
  intros Hc.
  destruct (Hc 0%nat (art (mutate dig_AB (AddComment 0 "found in the margin")) 0))
    as (_ & Hx & _).
  { vm_compute. reflexivity. }
  specialize (Hx _ Hnote). unfold registered in Hx. rewrite Hidx in Hx.
  by apply elem_of_empty in Hx.
Qed.

(* ===================================================================== *)
(** * Recursive iteration *)
(* ===================================================================== *)

Lemma iter_types_with st fuel self recursive :
  iter_types st fuel self recursive
  = iter_with (λ i, elements (types (art st i))) st fuel self recursive.
Proof.
  revert self. induction fuel as [|fuel IH]; intros self; [done|].
  simpl. destruct recursive; [|done].
  generalize (children (art st self)) (elements (types (art st self))).
  intros cs. induction cs as [|c cs IHcs]; intros acc; [done|].
  simpl. rewrite IH. case_bool_decide; [done|].
  destruct (iter_with _ st fuel c true) as [[ys|e]|]; auto.
Qed.

Lemma iter_notes_with st fuel self recursive :
  iter_notes st fuel self recursive
  = iter_with (λ i, (λ x, (i, x)) <$> elements (notes (art st i))) st fuel self recursive.
Proof.
  revert self. induction fuel as [|fuel IH]; intros self; [done|].
  simpl. destruct recursive; [|done].
  generalize (children (art st self))
    ((λ x, (self, x)) <$> elements (notes (art st self))).
  intros cs. induction cs as [|c cs IHcs]; intros acc; [done|].
  simpl. rewrite IH. case_bool_decide; [done|].
  destruct (iter_with _ st fuel c true) as [[ys|e]|]; auto.
Qed.

Lemma elem_of_concat {A} (x : A) (ls : list (list A)) :
  x ∈ concat ls ↔ ∃ l, x ∈ l ∧ l ∈ ls.
Proof.
  rewrite list_elem_of_In, in_concat. split.
  - intros (l & Hl & Hx). exists l. by rewrite !list_elem_of_In.
  - intros (l & Hx & Hl). exists l. by rewrite <- !list_elem_of_In.
Qed.

Section traversal.
Context {A : Type} (own : nat → list A) (st : state).

(** Every child yields its list: the children yield them in turn. *)
Lemma yield_children_all self (iter : nat → generated A) cs ls acc :
  Forall2 (λ c lc, c ≠ self ∧ iter c = Some (Ok lc)) cs ls →
  yield_children self iter cs acc = Some (Ok (acc ++ concat ls)).
Proof.
  intros H. revert acc. induction H as [|c lc cs ls [Hne Hc] _ IH]; intros acc.
  - simpl. by rewrite app_nil_r.
  - simpl. rewrite bool_decide_eq_false_2 by done. rewrite Hc, IH.
    by rewrite app_assoc.
Qed.

Lemma Forall2_choice {B} (Q : nat → B → Prop) (cs : list nat) :
  (∀ c, c ∈ cs → ∃ b, Q c b) → ∃ bs, Forall2 Q cs bs.
Proof.
  induction cs as [|c cs IH]; intros H.
  - exists []. constructor.
  - destruct (H c) as [b Hb]; [by left|].
    destruct IH as [bs Hbs]; [intros c' Hc'; apply H; by right|].
    exists (b :: bs). by constructor.
Qed.

(** On a ranked graph the recursion ends, with the same list for any
    fuel above the rank, and the list holds what the artifact and its
    descendants have and nothing else. *)
Lemma iter_with_terminates rank :
  ranked st rank →
  ∀ n self, (rank self < n)%nat →
    ∃ l, (∀ fuel, (rank self < fuel)%nat → iter_with own st fuel self true = Some (Ok l))
       ∧ (∀ e, e ∈ l ↔ ∃ d, rtc (child_of st) self d ∧ e ∈ own d).
Proof.
  intros Hrank n. induction n as [|n IH]; intros self Hn; [lia|].
  destruct (Forall2_choice
    (λ c lc, (rank c < rank self)%nat
             ∧ (∀ fuel, (rank c < fuel)%nat → iter_with own st fuel c true = Some (Ok lc))
             ∧ (∀ e, e ∈ lc ↔ ∃ d, rtc (child_of st) c d ∧ e ∈ own d))
    (children (art st self))) as [ls Hls].
  { intros c Hc. specialize (Hrank self c Hc).
    destruct (IH c) as (lc & ? & ?); [lia|]. by exists lc. }
  exists (own self ++ concat ls). split.
  - intros [|fuel] Hfuel; [lia|]. simpl.
    apply yield_children_all.
    eapply Forall2_impl; [done|].
    intros c lc (Hlt & Hc & _). simpl. split.
    + intros ->. lia.
    + apply Hc. lia.
  - intros e. rewrite elem_of_app. split.
    + intros [He|He].
      * exists self. by split.
      * apply elem_of_concat in He as (lc & He & Hlc).
        apply list_elem_of_lookup in Hlc as [k Hk].
        destruct (Forall2_lookup_r _ _ _ _ _ Hls Hk) as (c & Hck & _ & _ & Hchar).
        apply Hchar in He as (d & Hd & He).
        exists d. split; [|done].
        eapply rtc_l; [|done]. unfold child_of.
        apply list_elem_of_lookup. eauto.
    + intros (d & Hd & He).
      apply rtc_inv in Hd as [->|(c & Hc & Hd)]; [by left|].
      right. apply list_elem_of_lookup in Hc as [k Hk].
      destruct (Forall2_lookup_l _ _ _ _ _ Hls Hk) as (lc & Hlk & _ & _ & Hchar).
      apply elem_of_concat. exists lc. split.
      * apply Hchar. eauto.
      * apply list_elem_of_lookup. eauto.
Qed.
End traversal.

Lemma rankedb_sound st rank : rankedb st rank = true → ranked st rank.
Proof.
  unfold rankedb, ranked, child_of, art. intros H i c Hc.
  apply Is_true_true, forallb_True in H. rewrite Forall_forall in H.
  destruct (arts st !! i) as [a|] eqn:Hi.
  - rewrite (list_lookup_total_correct _ _ _ Hi) in Hc.
    specialize (H _ (elem_of_imap_pair _ _ _ Hi)). simpl in H.
    apply forallb_True in H. rewrite Forall_forall in H.
    specialize (H _ Hc). apply Is_true_true in H. by apply Nat.ltb_lt.
  - rewrite list_lookup_total_alt, Hi in Hc. simpl in Hc.
    by apply elem_of_nil in Hc.
Qed.

(** ** How many times an entry is yielded *)

Lemma yield_children_inv {A} self (iter : nat → generated A) cs : ∀ acc l,
  yield_children self iter cs acc = Some (Ok l) →
  ∃ ls, l = acc ++ concat ls
      ∧ Forall2 (λ c lc, c ≠ self ∧ iter c = Some (Ok lc)) cs ls.
Proof.
  induction cs as [|c cs IH]; intros acc l H; simpl in H.
  - exists []. simplify_eq. split; [by rewrite app_nil_r|constructor].
  - case_bool_decide as Hc; [done|].
    destruct (iter c) as [[ys|e]|] eqn:Hiter; [|done|done].
    destruct (IH _ _ H) as (ls & -> & Hls).
    exists (ys :: ls). split; [by rewrite <- app_assoc|].
    by constructor.
Qed.

Lemma iter_with_ext {A} (own1 own2 : nat → list A) st :
  (∀ i, own1 i = own2 i) →
  ∀ fuel self, iter_with own1 st fuel self true = iter_with own2 st fuel self true.
Proof.
  intros Hown. induction fuel as [|fuel IH]; intros self; [done|].
  simpl. rewrite Hown. generalize (own2 self).
  induction (children (art st self)) as [|c cs IHcs]; intros acc; [done|].
  simpl. rewrite IH. case_bool_decide; [done|].
  destruct (iter_with own2 st fuel c true) as [[ys|e]|]; auto.
Qed.

Lemma concat_fmap_fmap {A B} (f : A → B) (ls : list (list A)) :
  concat ((λ l : list A, f <$> l) <$> ls) = f <$> (concat ls : list A).
Proof.
  induction ls as [|l ls IH]; [done|]. csimpl. by rewrite fmap_app, IH.
Qed.

(** Mapping what the artifacts have maps what is yielded. *)
Lemma iter_with_fmap {A B} (f : A → B) (own : nat → list A) st : ∀ fuel self l,
  iter_with own st fuel self true = Some (Ok l) →
  iter_with (λ i, f <$> own i) st fuel self true = Some (Ok (f <$> l)).
Proof.
  induction fuel as [|fuel IH]; intros self l H; [done|]. simpl in *.
  apply yield_children_inv in H as (ls & -> & Hls).
  rewrite fmap_app, <- concat_fmap_fmap.
  apply yield_children_all. apply Forall2_fmap_r.
  eapply Forall2_impl; [done|]. intros c lc [Hc Hlc]. split; [done|].
  by apply IH.
Qed.

Lemma sum_list_fmap_ext {A} (f g : A → nat) (l : list A) :
  (∀ x, x ∈ l → f x = g x) → sum_list (f <$> l) = sum_list (g <$> l).
Proof.
  induction l as [|x l IH]; intros H; [done|]. csimpl.
  rewrite (H x) by (by left). rewrite IH; [done|].
  intros y Hy. apply H. by right.
Qed.

Lemma sum_list_Forall2 {A B} (f : A → nat) (g : B → nat) l k :
  Forall2 (λ x y, f x = g y) l k → sum_list (f <$> l) = sum_list (g <$> k).
Proof. induction 1 as [|x y l k Hxy _ IH]; [done|]. csimpl. by rewrite Hxy, IH. Qed.

Lemma occurrences_cons {A} `{EqDecision A} (x y : A) l :
  occurrences x (y :: l) = ((if decide (y = x) then 1 else 0) + occurrences x l)%nat.
Proof. unfold occurrences. rewrite filter_cons. by case_decide. Qed.

Lemma occurrences_concat {A} `{EqDecision A} (x : A) ls :
  occurrences x (concat ls) = sum_list (occurrences x <$> ls).
Proof.
  induction ls as [|l ls IH]; [done|]. csimpl. rewrite <- IH.
  unfold occurrences. by rewrite filter_app, length_app.
Qed.

(** The entries of one artifact, tagged with it, are there once each. *)
Lemma occurrences_tagged {B} `{EqDecision B} (i d : nat) (x : B) (l : list B) :
  NoDup l →
  occurrences (d, x) ((λ y, (i, y)) <$> l)
  = if decide (i = d ∧ x ∈ l) then 1%nat else 0%nat.
Proof.
  induction 1 as [|y l Hy Hnd IH].
  - simpl. case_decide as H; [|done]. destruct H as [_ H]. by apply elem_of_nil in H.
  - cbn [fmap list_fmap]. rewrite occurrences_cons. fold (fmap (λ y, (i, y)) l).
    rewrite IH.
    destruct (decide ((i, y) = (d, x))) as [[= -> ->]|Hne].
    + rewrite (decide_False (P := d = d ∧ x ∈ l)) by (by intros [_ ?]).
      rewrite decide_True; [done|]. split; [done|by left].
    + simpl. apply decide_ext. rewrite elem_of_cons.
      split; [naive_solver|]. intros [-> [->|?]]; [done|by split].
Qed.

(** Without children there is the one path, of no step. *)
Lemma ranked_leaf st rank self :
  ranked st rank → rank self = 0%nat → children (art st self) = [].
Proof.
  intros Hrank H0. destruct (children (art st self)) as [|c cs] eqn:Hcs; [done|].
  assert (Hc : child_of st self c) by (unfold child_of; rewrite Hcs; by left).
  specialize (Hrank _ _ Hc). lia.
Qed.

(** On a ranked graph no path from [c] has more steps than the rank of
    [c]: a greater depth counts the same paths. *)
Lemma paths_stable st rank d :
  ranked st rank →
  ∀ k1 k2 c, (rank c ≤ k1)%nat → (rank c ≤ k2)%nat → paths st k1 c d = paths st k2 c d.
Proof.
  intros Hrank. induction k1 as [|k1 IH]; intros k2 c H1 H2.
  - assert (Hleaf : children (art st c) = []) by (eapply ranked_leaf; [done|lia]).
    destruct k2; simpl; [done|]. by rewrite Hleaf.
  - destruct k2 as [|k2].
    + assert (Hleaf : children (art st c) = []) by (eapply ranked_leaf; [done|lia]).
      simpl. by rewrite Hleaf.
    + simpl. f_equal. apply sum_list_fmap_ext. intros c' Hc'.
      pose proof (Hrank c c' Hc'). apply IH; lia.
Qed.

(** The paths from [self]: the one of no step, and those that go on
    from a child. *)
Lemma paths_children st rank self d :
  ranked st rank →
  paths st (rank self) self d
  = ((if decide (self = d) then 1 else 0)
     + sum_list ((λ c, paths st (rank c) c d) <$> children (art st self)))%nat.
Proof.
  intros Hrank. destruct (rank self) as [|k] eqn:Hk.
  - rewrite (ranked_leaf st rank self Hrank Hk). simpl. done.
  - simpl. f_equal. apply sum_list_fmap_ext. intros c Hc.
    pose proof (Hrank self c Hc). eapply paths_stable; [done|lia|lia].
Qed.

Section counting.
Context {B : Type} `{EqDecision B} (has : nat → list B) (st : state).
Context (rank : nat → nat).
Hypothesis has_NoDup : ∀ i, NoDup (has i).
Hypothesis Hrank : ranked st rank.

(** What is yielded, tagged with the artifact it is of: an entry of [d]
    is there once for every path to [d]. *)
Lemma iter_with_counts : ∀ n self l,
  (rank self < n)%nat →
  iter_with (λ i, (λ y, (i, y)) <$> has i) st (S (rank self)) self true = Some (Ok l) →
  ∀ d x, occurrences (d, x) l
         = if decide (x ∈ has d) then paths st (rank self) self d else 0%nat.
Proof.
  induction n as [|n IH]; intros self l Hn Hl d x; [lia|].
  simpl in Hl. apply yield_children_inv in Hl as (ls & -> & Hls).
  assert (Hkids : Forall2 (λ c lc,
            (if decide (x ∈ has d) then paths st (rank c) c d else 0%nat)
            = occurrences (d, x) lc)
          (children (art st self)) ls).
  { apply Forall2_same_length_lookup. split; [by eapply Forall2_length|].
    intros k c lc Hc Hlc.
    destruct (Forall2_lookup_l _ _ _ _ _ Hls Hc) as (lc' & Hlc' & _ & Hrun).
    simplify_eq.
    assert (Hlt : (rank c < rank self)%nat).
    { apply Hrank. unfold child_of. by eapply list_elem_of_lookup_2. }
    destruct (iter_with_terminates (λ i, (λ y, (i, y)) <$> has i) st rank Hrank
                (S (rank c)) c) as (l' & Hl' & _); [lia|].
    rewrite Hl' in Hrun by lia. simplify_eq.
    symmetry. apply (IH c); [lia|]. apply Hl'. lia. }
  replace (occurrences (d, x) (((λ y, (self, y)) <$> has self) ++ concat ls))
    with (occurrences (d, x) ((λ y, (self, y)) <$> has self)
          + occurrences (d, x) (concat ls))%nat
    by (unfold occurrences; by rewrite filter_app, length_app).
  rewrite occurrences_tagged, occurrences_concat by done.
  rewrite (paths_children st rank self d Hrank).
  rewrite <- (sum_list_Forall2 _ _ _ _ Hkids).
  destruct (decide (x ∈ has d)) as [Hx|Hx].
  - f_equal. apply decide_ext. naive_solver.
  - rewrite decide_False by naive_solver.
    rewrite sum_list_fmap_const. lia.
Qed.
End counting.

(** What has a type or a note is an artifact there is. *)
Lemma art_out_of_range st d :
  (length (arts st) ≤ d)%nat → art st d = no_artifact.
Proof.
  intros H. unfold art. rewrite list_lookup_total_alt.
  by rewrite lookup_ge_None_2.
Qed.

(** One of the numbers from [k] on is [d0]. *)
Lemma sum_list_indicator (f : nat → nat) (d0 : nat) (b : bool) : ∀ m k,
  sum_list ((λ d, ((if decide (d0 = d ∧ b = true) then 1 else 0) + f d)%nat) <$> seq k m)
  = ((if decide (b = true ∧ (k ≤ d0 < k + m)%nat) then 1 else 0)
     + sum_list (f <$> seq k m))%nat.
Proof.
  induction m as [|m IHm]; intros k.
  - simpl. rewrite decide_False; [done|lia].
  - csimpl. rewrite IHm.
    destruct b; [|rewrite !decide_False by naive_solver; lia].
    destruct (decide (d0 = k)) as [->|Hk].
    + rewrite (decide_True (P := k = k ∧ _)) by done.
      rewrite (decide_False (P := _ ∧ (S k ≤ k < _)%nat)) by lia.
      rewrite decide_True by (split; [done|lia]). lia.
    + rewrite (decide_False (P := d0 = k ∧ _)) by naive_solver.
      destruct (decide (true = true ∧ (S k ≤ d0 < S k + m)%nat)) as [?|Hn].
      * rewrite decide_True by (split; [done|lia]). lia.
      * rewrite decide_False by lia. lia.
Qed.

(** Entries without their tags: every one counts for its artifact. *)
Lemma occurrences_untagged {B} `{EqDecision B} (x : B) (lt : list (nat * B)) (n : nat) :
  (∀ d y, (d, y) ∈ lt → (d < n)%nat) →
  occurrences x (snd <$> lt)
  = sum_list ((λ d, occurrences (d, x) lt) <$> seq 0 n).
Proof.
  induction lt as [|[d0 y0] lt IH]; intros Hin.
  - rewrite (sum_list_fmap_ext _ (λ _, 0%nat)) by done.
    rewrite sum_list_fmap_const. unfold occurrences. simpl. lia.
  - csimpl. rewrite occurrences_cons.
    rewrite IH by (intros d y Hy; eapply Hin; by right).
    assert (Hd0 : (d0 < n)%nat) by (eapply Hin; by left).
    rewrite (sum_list_fmap_ext (λ d, occurrences (d, x) ((d0, y0) :: lt))
               (λ d, ((if decide (d0 = d ∧ bool_decide (y0 = x) = true) then 1 else 0)
                      + occurrences (d, x) lt)%nat)).
    2:{ intros d _. rewrite occurrences_cons. f_equal.
        apply decide_ext. rewrite bool_decide_eq_true. naive_solver. }
    rewrite sum_list_indicator. f_equal. apply decide_ext.
    rewrite bool_decide_eq_true. split; [|naive_solver].
    intros ->. split; [done|lia].
Qed.

(** C7, as the code has it.  On a DAG, [iter_notes(recursive=True)] and
    [iter_types(recursive=True)] terminate, and yield what the artifact
    and its descendants bear and nothing else.  There is no visited-set:
    each note of a descendant is yielded once for every path of children
    that leads to the descendant, and a type is yielded once for every
    path to an artifact that bears it. *)
Theorem iter_recursive_terminates (st : state) (rank : nat → nat) (self : nat) :
  ranked st rank →
  (∃ l, (∀ fuel, (rank self < fuel)%nat → iter_notes st fuel self true = Some (Ok l))
      ∧ (∀ d x, (d, x) ∈ l ↔ rtc (child_of st) self d ∧ x ∈ notes (art st d))
      ∧ (∀ d x, x ∈ notes (art st d) →
           occurrences (d, x) l = paths st (rank self) self d))
  ∧ (∃ l, (∀ fuel, (rank self < fuel)%nat → iter_types st fuel self true = Some (Ok l))
      ∧ (∀ x, x ∈ l ↔ ∃ d, rtc (child_of st) self d ∧ x ∈ types (art st d))
      ∧ (∀ x, occurrences x l
              = sum_list ((λ d, if decide (x ∈ types (art st d))
                                then paths st (rank self) self d else 0%nat)
                          <$> seq 0 (length (arts st))))).
Proof.
  intros Hrank. split.
  - destruct (iter_with_terminates
        (λ i, (λ x, (i, x)) <$> elements (notes (art st i))) st rank Hrank
        (S (rank self)) self) as (l & Hrun & Hchar); [lia|].
    exists l. split_and!.
    + intros fuel Hfuel. rewrite iter_notes_with. by apply Hrun.
    + intros d x. rewrite Hchar. split.
      * intros (d' & Hd' & Hin).
        apply list_elem_of_fmap in Hin as (y & [= -> ->] & Hy).
        split; [done|]. by apply elem_of_elements.
      * intros [Hd Hx]. exists d. split; [done|].
        apply list_elem_of_fmap. exists x. split; [done|].
        by apply elem_of_elements.
    + intros d x Hx.
      rewrite (iter_with_counts (λ i, elements (notes (art st i))) st rank
                 (λ i, NoDup_elements _) Hrank (S (rank self)) self l)
        by (lia || (apply Hrun; lia)).
      rewrite decide_True; [done|]. by apply elem_of_elements.
  - set (tagged := λ i : nat, (λ x, (i, x)) <$> elements (types (art st i))).
    destruct (iter_with_terminates tagged st rank Hrank (S (rank self)) self)
      as (lt & Hrunt & Hchart); [lia|].
    destruct (iter_with_terminates
        (λ i, elements (types (art st i))) st rank Hrank
        (S (rank self)) self) as (l & Hrun & Hchar); [lia|].
    assert (Hl : l = snd <$> lt).
    { pose proof (iter_with_fmap snd tagged st _ _ _ (Hrunt (S (rank self)) ltac:(lia)))
        as Hmap.
      rewrite (iter_with_ext _ (λ i, elements (types (art st i)))) in Hmap.
      - rewrite Hrun in Hmap by lia. by simplify_eq.
      - intros i. unfold tagged. rewrite <- list_fmap_compose.
        by rewrite list_fmap_id. }
    exists l. split_and!.
    + intros fuel Hfuel. rewrite iter_types_with. by apply Hrun.
    + intros x. rewrite Hchar. split.
      * intros (d & Hd & Hin). exists d. split; [done|]. by apply elem_of_elements.
      * intros (d & Hd & Hin). exists d. split; [done|]. by apply elem_of_elements.
    + intros x. rewrite Hl.
      rewrite (occurrences_untagged x lt (length (arts st))).
      * apply sum_list_fmap_ext. intros d _.
        rewrite (iter_with_counts (λ i, elements (types (art st i))) st rank
                   (λ i, NoDup_elements _) Hrank (S (rank self)) self lt)
          by (lia || (apply Hrunt; lia)).
        apply decide_ext. apply elem_of_elements.
      * intros d y Hy. apply Hchart in Hy as (d' & _ & Hin).
        apply list_elem_of_fmap in Hin as (y' & [= -> ->] & Hy').
        apply elem_of_elements in Hy'.
        destruct (decide (d' < length (arts st))%nat) as [?|Hge]; [done|].
        rewrite art_out_of_range in Hy' by lia. by apply elem_of_empty in Hy'.
Qed.

Lemma iter_recursive_terminates_witness :
  (∃ l, (∀ fuel, (diamond_rank 0 < fuel)%nat → iter_notes diamond fuel 0 true = Some (Ok l))
      ∧ (∀ d x, (d, x) ∈ l ↔ rtc (child_of diamond) 0%nat d ∧ x ∈ notes (art diamond d))
      ∧ (∀ d x, x ∈ notes (art diamond d) →
           occurrences (d, x) l = paths diamond (diamond_rank 0) 0 d))
  ∧ (∃ l, (∀ fuel, (diamond_rank 0 < fuel)%nat → iter_types diamond fuel 0 true = Some (Ok l))
      ∧ (∀ x, x ∈ l ↔ ∃ d, rtc (child_of diamond) 0%nat d ∧ x ∈ types (art diamond d))
      ∧ (∀ x, occurrences x l
              = sum_list ((λ d, if decide (x ∈ types (art diamond d))
                                then paths diamond (diamond_rank 0) 0 d else 0%nat)
                          <$> seq 0 (length (arts diamond))))).
Proof.
  apply (iter_recursive_terminates diamond diamond_rank 0).
  apply rankedb_sound. vm_compute. reflexivity.
Defined.

(** C7 as it is stated fails: on the diamond, a DAG, the note and the
    type of the shared grandchild 3 are yielded twice, once by the way of
    each of its parents: there are two paths to it. *)
Lemma iter_recursive_repeats_shared :
  ranked diamond diamond_rank
  ∧ children (art diamond 1) = [3%nat]
  ∧ children (art diamond 2) = [3%nat]
  ∧ paths diamond (diamond_rank 0) 0 3 = 2%nat
  ∧ iter_notes diamond 3 0 true = Some (Ok [(3%nat, "seen"); (3%nat, "seen")])
  ∧ iter_types diamond 3 0 true = Some (Ok ["text"; "text"]).
Proof.
  split; [apply rankedb_sound; vm_compute; reflexivity|].
  split_and!; vm_compute; reflexivity.
Qed.

(* ===================================================================== *)
(** * Layouts with [None] endpoints *)
(* ===================================================================== *)

(** C9 on the code.  With a tuple without [start] next to a concrete
    one, both made by [create], [examined] does not complete: [sorted]
    compares the [int] with [None] and raises [TypeError], before the loop
    that would skip the tuple is reached. *)
Theorem examined_mixed_layout_raises :
  layout (art dig_mixed 0) = [(None, Some 5, 1%nat); (Some 0, Some 4, 2%nat)]
  ∧ sorted dig_mixed (layout (art dig_mixed 0)) = Raise TypeError
  ∧ examined 0 dig_mixed = (Raise TypeError, dig_mixed).
Proof. split_and!; vm_compute; reflexivity. Qed.

(* ===================================================================== *)
(** * [sorted] *)
(* ===================================================================== *)

Lemma insort_total st x l :
  (∀ y, y ∈ l → ∃ b, entry_lt st x y = Ok b) →
  ∃ r, insort st x l = Ok r ∧ r ≡ₚ x :: l.
Proof.
  induction l as [|y l IH]; intros H; [by exists [x]|].
  destruct (H y) as [b Hb]; [by left|]. simpl. rewrite Hb.
  destruct b; [by eexists|].
  destruct IH as (r & -> & Hr); [intros z Hz; apply H; by right|].
  eexists. split; [done|]. rewrite Hr. apply Permutation_swap.
Qed.

Lemma sorted_from_total st acc l :
  (∀ x y, x ∈ acc ++ l → y ∈ acc ++ l → ∃ b, entry_lt st x y = Ok b) →
  ∃ sl, sorted_from st acc l = Ok sl ∧ sl ≡ₚ acc ++ l.
Proof.
  revert acc. induction l as [|x l IH]; intros acc H.
  - exists acc. by rewrite app_nil_r.
  - simpl.
    destruct (insort_total st x acc) as (acc' & -> & Hacc').
    { intros y Hy. apply H; set_solver. }
    destruct (IH acc') as (sl & -> & Hsl).
    { intros y z Hy Hz. rewrite Hacc' in Hy, Hz. apply H; set_solver. }
    exists sl. split; [done|]. rewrite Hsl, Hacc'. simpl.
    apply Permutation_middle.
Qed.

(** Where every two tuples can be compared, [sorted] returns, with the
    same tuples. *)
Lemma sorted_total st l :
  (∀ x y, x ∈ l → y ∈ l → ∃ b, entry_lt st x y = Ok b) →
  ∃ sl, sorted st l = Ok sl ∧ sl ≡ₚ l.
Proof. intros H. by apply (sorted_from_total st [] l). Qed.

Lemma entry_lt_concrete st x y :
  concrete x → concrete y →
  ∃ b, entry_lt st x y = Ok b
     ∧ (b = true → key_le x y) ∧ (b = false → key_le y x).
Proof.
  destruct x as [[s1 t1] a1], y as [[s2 t2] a2].
  unfold concrete. simpl.
  intros [[u1 ->] [v1 ->]] [[u2 ->] [v2 ->]].
  unfold entry_lt, key_le, lo, hi. simpl.
  destruct (decide (u1 = u2)) as [->|Hu].
  - rewrite (bool_decide_eq_false_2 (Some u2 ≠ Some u2)) by (by intros ?).
    destruct (decide (v1 = v2)) as [->|Hv].
    + rewrite (bool_decide_eq_false_2 (Some v2 ≠ Some v2)) by (by intros ?).
      case_bool_decide; eexists; (split; [done|]); split; intros _; lia.
    + rewrite (bool_decide_eq_true_2 (Some v1 ≠ Some v2)) by congruence.
      eexists. split; [done|].
      split; [intros ?%Z.ltb_lt|intros ?%Z.ltb_ge]; lia.
  - rewrite (bool_decide_eq_true_2 (Some u1 ≠ Some u2)) by congruence.
    eexists. split; [done|].
    split; [intros ?%Z.ltb_lt|intros ?%Z.ltb_ge]; lia.
Qed.

Lemma insort_sorted st x l r :
  concrete x → Forall concrete l →
  StronglySorted key_le l → insort st x l = Ok r → StronglySorted key_le r.
Proof.
  intros Hx. revert r. induction l as [|y l IH]; intros r Hl Hs Hr.
  - simpl in Hr. simplify_eq. repeat constructor.
  - apply Forall_cons in Hl as [Hy Hl]. apply StronglySorted_inv in Hs as [Hs Hyl].
    simpl in Hr.
    destruct (entry_lt_concrete st x y Hx Hy) as (b & Hb & Ht & Hf).
    rewrite Hb in Hr. destruct b.
    + simplify_eq. constructor; [by constructor|].
      constructor; [by apply Ht|].
      eapply Forall_impl; [done|]. intros z Hz. specialize (Ht eq_refl).
      unfold key_le in *. lia.
    + destruct (insort st x l) as [r'|e] eqn:Hr'; simplify_eq.
      constructor; [by apply IH|].
      destruct (insort_total st x l) as (r'' & Hr'' & Hperm).
      { intros z Hz. rewrite Forall_forall in Hl.
        destruct (entry_lt_concrete st x z Hx (Hl _ Hz)) as (b & ? & _). eauto. }
      rewrite Hr' in Hr''. simplify_eq. rewrite Hperm.
      constructor; [by apply Hf|done].
Qed.

Lemma sorted_from_sorted st acc l sl :
  Forall concrete acc → Forall concrete l →
  StronglySorted key_le acc → sorted_from st acc l = Ok sl → StronglySorted key_le sl.
Proof.
  revert acc. induction l as [|x l IH]; intros acc Hacc Hl Hs Hsl.
  - simpl in Hsl. by simplify_eq.
  - apply Forall_cons in Hl as [Hx Hl]. simpl in Hsl.
    destruct (insort st x acc) as [acc'|e] eqn:Hacc'; [|done].
    apply (IH acc'); [|done| |done].
    + destruct (insort_total st x acc) as (r & Hr & Hperm).
      { intros z Hz. rewrite Forall_forall in Hacc.
        destruct (entry_lt_concrete st x z Hx (Hacc _ Hz)) as (b & ? & _). eauto. }
      rewrite Hacc' in Hr. simplify_eq. rewrite Hperm. by constructor.
    + by apply (insort_sorted st x acc acc').
Qed.

(** Concrete tuples are sorted by [start], then [stop]. *)
Lemma sorted_concrete st l :
  Forall concrete l →
  ∃ sl, sorted st l = Ok sl ∧ sl ≡ₚ l ∧ StronglySorted key_le sl.
Proof.
  intros Hl. destruct (sorted_total st l) as (sl & Hsl & Hperm).
  { intros x y Hx Hy. rewrite Forall_forall in Hl.
    destruct (entry_lt_concrete st x y (Hl _ Hx) (Hl _ Hy)) as (b & ? & _). eauto. }
  exists sl. split_and!; [done|done|].
  eapply (sorted_from_sorted st [] l); [constructor|done|constructor|done].
Qed.

(* ===================================================================== *)
(** * The walk of [examined] *)
(* ===================================================================== *)


Lemma walk_step_concrete l offset e :
  concrete e →
  walk_step (l, offset) e
  = (if offset <? lo e then l ++ [(offset, lo e)] else l, hi e).
Proof.
  destruct e as [[s t] x]. unfold concrete. simpl. by intros [[u ->] [v ->]].
Qed.

(** The cursor after a concrete tuple is the [stop] of the tuple. *)
Lemma walk_step_cursor l offset s t x :
  (walk_step (l, offset) (Some s, Some t, x)).2 = t.
Proof. done. Qed.



(* ===================================================================== *)
(** * Slices *)
(* ===================================================================== *)

(** The cross-cut of the records holds the bytes of the range, in order. *)
Lemma crosscut_concat rs : ∀ lo hi,
  concat (crosscut rs lo hi)
  = take (Z.to_nat (hi - Z.max lo 0)) (drop (Z.to_nat (Z.max lo 0)) (concat rs)).
Proof.
  induction rs as [|r rs IH]; intros lo hi; simpl.
  - by rewrite drop_nil, take_nil.
  - set (n := Z.of_nat (length r)). set (L := Z.max lo 0).
    set (part := take (Z.to_nat (Z.min hi n - L)) (drop (Z.to_nat L) r)).
    assert (Hpart : concat
              match part with
              | [] => crosscut rs (lo - n) (hi - n)
              | _ :: _ => part :: crosscut rs (lo - n) (hi - n)
              end
            = part ++ concat (crosscut rs (lo - n) (hi - n))).
    { by destruct part. }
    rewrite Hpart, IH. unfold part. clear Hpart IH part.
    destruct (Z.le_gt_cases n L) as [Hge|Hlt].
    + rewrite (drop_ge r) by lia. rewrite take_nil. simpl.
      rewrite drop_app_ge by lia.
      replace (Z.max (lo - n) 0) with (L - n) by lia.
      f_equal; [lia|]. f_equal. lia.
    + rewrite drop_app_le by lia.
      replace (Z.max (lo - n) 0) with 0 by lia. simpl. rewrite drop_0.
      rewrite take_app. rewrite length_drop.
      f_equal.
      * destruct (Z.le_gt_cases hi n).
        -- f_equal. lia.
        -- rewrite !take_ge; [done|rewrite length_drop; lia..].
      * f_equal. lia.
Qed.

(** A slice has the bytes of the slice of the bytes. *)
Lemma tobytes_getslice b s t :
  tobytes (getslice b s t) = py_slice (tobytes b) s t.
Proof.
  destruct b as [d|d|rs]; [done|done|]. simpl.
  rewrite crosscut_concat. unfold py_slice.
  set (n := Z.of_nat (length (concat rs))).
  assert (0 ≤ adjust_index n s).
  { unfold adjust_index. case_match; lia. }
  by rewrite Z.max_l by done.
Qed.

Lemma len_bits_getslice b s t :
  0 ≤ s → s ≤ t → t ≤ len_bits b → len_bits (getslice b s t) = t - s.
Proof.
  intros Hs Hst Ht. unfold len_bits in *. rewrite tobytes_getslice.
  unfold py_slice, adjust_index.
  destruct (Z.ltb_spec s 0), (Z.ltb_spec t 0); try lia.
  rewrite length_take, length_drop. lia.
Qed.

(* ===================================================================== *)
(** * Coverage reconciliation *)
(* ===================================================================== *)

(** A range-based [create] on a proper range of [self]. *)
Lemma create_range st self a s t :
  wf st → arts st !! self = Some a →
  0 ≤ s → s < t → t ≤ len_bits (bdx a) → (s, t) ≠ (0, len_bits (bdx a)) →
  sha256 (tobytes (getslice (bdx a) s t)) ≠ digest a →
  ∃ x,
    create self None (Some s) (Some t) None st
    = (Ok x, after_create st self x (sha256 (tobytes (getslice (bdx a) s t)))
               (Some s) (Some t) (getslice (bdx a) s t))
    ∧ x ≠ self
    ∧ wf (after_create st self x (sha256 (tobytes (getslice (bdx a) s t)))
            (Some s) (Some t) (getslice (bdx a) s t)).
Proof.
  intros Hwf Ha Hs Hst Ht Hne Hd.
  destruct (create_lookup_spec st self a (Some s) (Some t) (getslice (bdx a) s t)
              (sha256 (tobytes (getslice (bdx a) s t))))
    as (x & Hrun & _ & Hx & Hwf'); [done|done|congruence| |].
  { rewrite len_bits_getslice by lia. lia. }
  exists x. split_and!; [|done|done].
  unfold create, create_slice. simpl.
  destruct (Z.gtb_spec t s) as [_|?]; [|lia]. run.
  rewrite (len_lookup _ _ _ Ha), (art_lookup _ _ _ Ha).
  destruct (Z.leb_spec t (len_bits (bdx a))) as [_|?]; [|lia]. simpl.
  assert (Hwhole : negb (negb (s =? 0)) && (t =? len_bits (bdx a)) = false).
  { destruct (Z.eqb_spec s 0) as [->|?]; [|done]. simpl.
    apply Z.eqb_neq. intros ->. done. }
  rewrite Hwhole. exact Hrun.
Qed.

(** The loop of [examined] over proper ranges: every call returns, and
    appends its tuple to the layout. *)
Lemma examined_loop self gl : ∀ st a,
  wf st → arts st !! self = Some a → no_slice_collision a →
  Forall (proper_range (len_bits (bdx a))) gl →
  ∃ st' a' news,
    for_each (λ '(start, stop),
        create self None (Some start) (Some stop) None ;; mret tt) gl st
    = (Ok tt, st')
    ∧ wf st'
    ∧ arts st' !! self = Some a'
    ∧ bdx a' = bdx a ∧ digest a' = digest a
    ∧ layout a' = layout a ++ news
    ∧ Forall2 (λ (g : Z * Z) (e : entry), e.1 = (Some g.1, Some g.2)) gl news.
Proof.
  induction gl as [|[s t] gl IH]; intros st a Hwf Ha Hcol Hgl.
  - exists st, a, []. split_and!; try done. by rewrite app_nil_r.
  - apply Forall_cons in Hgl as [(Hs & Hst & Ht & Hne) Hgl]. simpl in *.
    destruct (create_range st self a s t) as (x & Hrun & Hx & Hwf1); auto.
    set (st1 := after_create st self x (sha256 (tobytes (getslice (bdx a) s t)))
                  (Some s) (Some t) (getslice (bdx a) s t)) in *.
    set (a1 := touched self x (Some s) (Some t) self a).
    assert (Ha1 : arts st1 !! self = Some a1) by (by apply arts_after_create_old).
    assert (Hb1 : bdx a1 = bdx a) by apply touched_bdx.
    assert (Hd1 : digest a1 = digest a) by apply touched_digest.
    assert (Hl1 : layout a1 = layout a ++ [(Some s, Some t, x)]).
    { unfold a1. rewrite touched_layout, decide_True by done.
      assert (Htr : truthy (Some s) || truthy (Some t) = true).
      { simpl. destruct (Z.eqb_spec t 0); [lia|]. by rewrite orb_true_r. }
      by rewrite Htr. }
    destruct (IH st1 a1) as (st' & a' & news & Hloop & Hwf' & Ha' & Hb' & Hd' & Hl' & Hnews).
    + done.
    + done.
    + unfold no_slice_collision in *. rewrite Hb1, Hd1. done.
    + by rewrite Hb1.
    + exists st', a', ((Some s, Some t, x) :: news). split_and!.
      * run. rewrite Hrun. exact Hloop.
      * done.
      * done.
      * congruence.
      * congruence.
      * rewrite Hl', Hl1, <- app_assoc. done.
      * by constructor.
Qed.

(** The ranges the walk collects and the tuples it passes cover what the
    cursor has gone over. *)
Lemma walk_covers n sl : ∀ l offset,
  Forall (in_bounds n) sl → 0 ≤ offset → offset ≤ n →
  0 ≤ (fold_left walk_step sl (l, offset)).2
  ∧ (fold_left walk_step sl (l, offset)).2 ≤ n
  ∧ (0 < offset ∨ sl ≠ [] → 0 < (fold_left walk_step sl (l, offset)).2)
  ∧ (∀ g, g ∈ (fold_left walk_step sl (l, offset)).1 →
       g ∈ l ∨ (0 ≤ g.1 ∧ g.1 < g.2 ∧ g.2 < n))
  ∧ (∀ g, g ∈ l → g ∈ (fold_left walk_step sl (l, offset)).1)
  ∧ (∀ p, offset ≤ p → p < (fold_left walk_step sl (l, offset)).2 →
       (∃ g, g ∈ (fold_left walk_step sl (l, offset)).1 ∧ in_range p g)
       ∨ (∃ e, e ∈ sl ∧ claims e p)).
Proof.
  induction sl as [|e sl IH]; intros l offset Hb H0 Hn.
  - simpl. split_and!; try done; try lia; try (by left).
    intros [?|?]; [lia|done].
  - apply Forall_cons in Hb as [(Hc & Hlo & Hlt & Hhi) Hb]. cbn [fold_left].
    rewrite walk_step_concrete by done.
    set (l1 := if offset <? lo e then l ++ [(offset, lo e)] else l).
    assert (Hl1 : ∀ g, g ∈ l1 ↔ g ∈ l ∨ (offset < lo e ∧ g = (offset, lo e))).
    { intros g. unfold l1. destruct (Z.ltb_spec offset (lo e)).
      - rewrite elem_of_app, list_elem_of_singleton.
        split; (intros [?|?]; [by left|right]); [by split|by destruct_and?].
      - split; [by left|]. intros [?|[? _]]; [done|lia]. }
    destruct (IH l1 (hi e)) as (I1 & I2 & I3 & I4 & I5 & I6); [done|lia|lia|].
    split_and!; [done|done| | | |].
    + intros _. apply I3. left. lia.
    + intros g Hg. destruct (I4 g Hg) as [Hg'|?]; [|by right].
      apply Hl1 in Hg' as [?|[? ->]]; [by left|]. right. simpl. lia.
    + intros g Hg. apply I5, Hl1. by left.
    + intros p Hp1 Hp2.
      destruct (Z.lt_ge_cases p (hi e)) as [Hp|Hp].
      * destruct (Z.lt_ge_cases p (lo e)) as [Hq|Hq].
        -- left. exists (offset, lo e). split.
           ++ apply I5, Hl1. right. split; [lia|done].
           ++ unfold in_range. simpl. lia.
        -- right. exists e. split; [by left|]. split; [done|lia].
      * destruct (I6 p Hp Hp2) as [?|(e' & He' & Hcl)]; [by left|].
        right. exists e'. split; [by right|done].
Qed.

Lemma walk_skips sl acc :
  Forall (λ e : entry, e.1.1 = None) sl → fold_left walk_step sl acc = acc.
Proof.
  revert acc. induction sl as [|[[s t] x] sl IH]; intros acc H; [done|].
  apply Forall_cons in H as [Hs H]. simpl in Hs. subst s.
  simpl. destruct acc as [l offset]. simpl. by apply IH.
Qed.

(** No tuple has a [start]: [examined] returns at once. *)
Lemma examined_no_start st self a :
  wf st → arts st !! self = Some a →
  Forall (λ e : entry, e.1.1 = None) (layout a) →
  examined self st = (Ok tt, st).
Proof.
  intros Hwf Ha Hnone. rewrite Forall_forall in Hnone.
  destruct (sorted_total st (layout a)) as (sl & Hsl & Hperm).
  { intros [[s1 t1] x1] [[s2 t2] x2] Hx Hy.
    pose proof (Hnone _ Hx) as H1. pose proof (wf_layout _ Hwf _ _ _ Ha Hx) as T1.
    pose proof (Hnone _ Hy) as H2. pose proof (wf_layout _ Hwf _ _ _ Ha Hy) as T2.
    simpl in *. subst s1 s2. simpl in *.
    destruct t1 as [t1|], t2 as [t2|]; try done.
    repeat case_bool_decide; simpl; eauto. }
  unfold examined, gaps. run. rewrite (art_lookup _ _ _ Ha), Hsl.
  unfold walk. rewrite walk_skips; [done|].
  apply Forall_forall. intros e He. apply Hnone. by rewrite <- Hperm.
Qed.

(** C2, as the code has it.  For an artifact with a layout of concrete
    tuples, each with [0 <= start < stop <= len], and no proper slice of
    which has the digest of the artifact itself, [examined] completes; it
    appends tuples to the layout, one for each range it creates, and every
    byte position of the artifact then lies in the range of a tuple.  And
    if no tuple of the layout has a [start], [examined] returns with
    nothing created and nothing changed. *)
Theorem examined_covers (st : state) (self : nat) (a : ArtifactClass) :
  wf st → arts st !! self = Some a →
  (layout a ≠ [] →
   Forall (in_bounds (len_bits (bdx a))) (layout a) →
   no_slice_collision a →
   ∃ st' a' news,
     examined self st = (Ok tt, st')
     ∧ arts st' !! self = Some a'
     ∧ bdx a' = bdx a
     ∧ layout a' = layout a ++ news
     ∧ gaps st self = Ok ((λ e, (lo e, hi e)) <$> news)
     ∧ Forall concrete news
     ∧ ∀ p, 0 ≤ p → p < len_bits (bdx a) → ∃ e, e ∈ layout a' ∧ claims e p)
  ∧ (Forall (λ e : entry, e.1.1 = None) (layout a) →
     examined self st = (Ok tt, st)).
Proof.
  intros Hwf Ha. split; [|by apply examined_no_start].
  intros Hne Hb Hcol. set (n := len_bits (bdx a)) in *.
  destruct (sorted_concrete st (layout a)) as (sl & Hsl & Hperm & _).
  { eapply Forall_impl; [done|]. by intros e [? _]. }
  assert (Hbs : Forall (in_bounds n) sl) by (by rewrite Hperm).
  assert (Hsne : sl ≠ []).
  { intros ->. by apply Permutation_nil_l in Hperm. }
  assert (Hn0 : 0 ≤ n) by (unfold n, len_bits; lia).
  destruct (walk_covers n sl [] 0 Hbs) as (W1 & W2 & W3 & W4 & W5 & W6); [lia|lia|].
  assert (Hgaps : ∃ gl, gaps st self = Ok gl ∧ Forall (proper_range n) gl
            ∧ ∀ p, 0 ≤ p → p < n →
                (∃ g, g ∈ gl ∧ in_range p g) ∨ (∃ e, e ∈ sl ∧ claims e p)).
  { unfold gaps. rewrite (art_lookup _ _ _ Ha), Hsl, (len_lookup _ _ _ Ha).
    fold n. unfold walk.
    destruct (fold_left walk_step sl ([], 0)) as [l offset] eqn:Hw. simpl in *.
    specialize (W3 (or_intror Hsne)).
    assert (Hl : Forall (proper_range n) l).
    { apply Forall_forall. intros g Hg.
      destruct (W4 g Hg) as [Hnil|(?&?&?)]; [by apply elem_of_nil in Hnil|].
      split_and!; [done|done|lia|]. destruct g as [g1 g2]. simpl in *.
      intros [= -> ->]. lia. }
    destruct (Z.eqb_spec offset 0) as [?|_]; [lia|].
    destruct (Z.eqb_spec offset n) as [->|Hoff]; simpl.
    - exists l. split_and!; [done|done|]. intros p H0 Hn. by apply W6.
    - exists (l ++ [(offset, n)]). split_and!; [done| |].
      + apply Forall_app. split; [done|]. apply Forall_singleton.
        split_and!; simpl; [lia|lia|lia|]. intros [= -> ]. lia.
      + intros p H0 Hn. destruct (Z.lt_ge_cases p offset) as [Hp|Hp].
        * destruct (W6 p H0 Hp) as [(g & Hg & Hin)|?]; [|by right].
          left. exists g. split; [|done]. apply elem_of_app. by left.
        * left. exists (offset, n). split.
          -- apply elem_of_app. right. by apply list_elem_of_singleton.
          -- unfold in_range. simpl. lia. }
  destruct Hgaps as (gl & Hgaps & Hproper & Hcover).
  destruct (examined_loop self gl st a Hwf Ha Hcol Hproper)
    as (st' & a' & news & Hloop & _ & Ha' & Hb' & _ & Hl' & Hnews).
  assert (Hranges : (λ e, (lo e, hi e)) <$> news = gl).
  { clear -Hnews. induction Hnews as [|[g1 g2] [[s t] x] gl news Hg _ IH]; [done|].
    simpl in Hg. injection Hg as -> ->. cbn [fmap list_fmap]. by rewrite IH. }
  assert (Hconc : Forall concrete news).
  { clear -Hnews. induction Hnews as [|[g1 g2] [[s t] x] gl news Hg _ IH]; [done|].
    simpl in Hg. injection Hg as -> ->. constructor; [|done]. split; by eexists. }
  exists st', a', news. split_and!; try done.
  - unfold examined. run. by rewrite Hgaps.
  - by rewrite Hranges.
  - intros p H0 Hn. rewrite Hl'.
    destruct (Hcover p H0 Hn) as [(g & Hg & Hin)|(e & He & Hcl)].
    + rewrite <- Hranges in Hg.
      apply list_elem_of_fmap in Hg as (e & -> & He).
      exists e. split; [apply elem_of_app; by right|].
      rewrite Forall_forall in Hconc. split; [by apply Hconc|done].
    + exists e. split; [|done]. apply elem_of_app. left. by rewrite <- Hperm.
Qed.

Lemma no_slice_collisionb_sound a :
  no_slice_collisionb a = true → no_slice_collision a.
Proof.
  unfold no_slice_collisionb. intros H s t Hs Hst Ht Hne.
  apply Is_true_true, forallb_True in H. rewrite Forall_forall in H.
  specialize (H s). rewrite elem_of_seqZ in H.
  specialize (H ltac:(lia)).
  apply forallb_True in H. rewrite Forall_forall in H.
  specialize (H t). rewrite elem_of_seqZ in H.
  specialize (H ltac:(lia)).
  apply Is_true_true, orb_true_iff in H as [H|H].
  - by apply bool_decide_eq_true in H.
  - apply negb_true_iff, String.eqb_neq in H. done.
Qed.

Lemma examined_covers_witness :
  (∃ st' a' news,
     examined 0 dig_S2 = (Ok tt, st')
     ∧ arts st' !! 0%nat = Some a'
     ∧ bdx a' = bdx (art dig_S2 0)
     ∧ layout a' = layout (art dig_S2 0) ++ news
     ∧ gaps dig_S2 0 = Ok ((λ e, (lo e, hi e)) <$> news)
     ∧ Forall concrete news
     ∧ ∀ p, 0 ≤ p → p < len_bits (bdx (art dig_S2 0)) → ∃ e, e ∈ layout a' ∧ claims e p)
  ∧ examined 0 dig_stop_only = (Ok tt, dig_stop_only).
Proof.
  split.
  - apply (examined_covers dig_S2 0 (art dig_S2 0)).
    + apply wfb_sound. vm_compute. reflexivity.
    + vm_compute. reflexivity.
    + vm_compute. discriminate.
    + vm_compute. repeat constructor; try (eexists; reflexivity); discriminate.
    + apply no_slice_collisionb_sound. vm_compute. reflexivity.
  - apply (examined_covers dig_stop_only 0 (art dig_stop_only 0)).
    + apply wfb_sound. vm_compute. reflexivity.
    + vm_compute. reflexivity.
    + vm_compute. repeat constructor.
Defined.

(** Scenario S2: of [AAAABBBB] only [2, 6) is claimed, and [examined]
    makes the two children [0, 2), of the bytes [AA], and [6, 8), of the
    bytes [BB]. *)
Example examined_S2 :
  gaps dig_S2 0 = Ok [(0, 2); (6, 8)]
  ∧ layout (art (exec (examined 0) dig_S2) 0)
    = [(Some 2, Some 6, 1%nat); (Some 0, Some 2, 2%nat); (Some 6, Some 8, 3%nat)]
  ∧ tobytes (bdx (art (exec (examined 0) dig_S2) 2)) = b_ "AA"
  ∧ tobytes (bdx (art (exec (examined 0) dig_S2) 3)) = b_ "BB".
Proof. split_and!; vm_compute; reflexivity. Qed.

(** C2 as it is stated fails: the layout of [dig_open] has a tuple with
    a concrete [start], 3, and no [stop]; [examined] skips it, returns with
    nothing created, and no byte of the artifact lies in a range. *)
Lemma examined_open_range_uncovered :
  layout (art dig_open 0) = [(Some 3, None, 1%nat)]
  ∧ examined 0 dig_open = (Ok tt, dig_open)
  ∧ ∀ e p, e ∈ layout (art dig_open 0) → ¬ claims e p.
Proof.
  split_and!; [vm_compute; reflexivity..|].
  intros e p He. vm_compute in He.
  apply list_elem_of_singleton in He as ->.
  intros [[_ [v Hv]] _]. discriminate.
Qed.

(* ===================================================================== *)
(** * Overlapping tuples *)
(* ===================================================================== *)




(* ===================================================================== *)
(** * Every outcome of [create] *)
(* ===================================================================== *)

(** The digest is new and the bits are empty: the constructor refuses. *)
Lemma create_lookup_empty st self start stop bits d :
  hashes (top st) !! d = None → len_bits bits ≤ 0 →
  create_lookup self start stop bits d st = (Raise AssertionError, st).
Proof.
  intros Hnone Hlen. unfold create_lookup. run. rewrite Hnone.
  unfold ArtifactClass_init. run.
  by destruct (Z.ltb_spec 0 (len_bits bits)) as [?|_]; [lia|].
Qed.

(** Where the artifact is found, the bits given do not matter. *)
Lemma after_create_hit st self x d start stop bits bits' :
  x ≠ length (arts st) →
  after_create st self x d start stop bits = after_create st self x d start stop bits'.
Proof. intros Hx. unfold after_create. by rewrite !decide_False by done. Qed.

Lemma create_lookup_cases st self a start stop bits d :
  wf st → arts st !! self = Some a →
  (∃ e, create_lookup self start stop bits d st = (Raise e, st))
  ∨ ∃ x, create_lookup self start stop bits d st
         = (Ok x, after_create st self x d start stop bits)
       ∧ x ≠ self
       ∧ (hashes (top st) !! d = Some x
          ∨ (hashes (top st) !! d = None ∧ x = length (arts st) ∧ 0 < len_bits bits)).
Proof.
  intros Hwf Ha.
  destruct (decide (digest a = d)) as [<-|Hd].
  { left. eexists. by eapply create_lookup_self. }
  destruct (hashes (top st) !! d) as [x|] eqn:Hx.
  - right. exists x. split_and!; [by eapply create_lookup_hit| |by left].
    intros ->. pose proof (wf_hashes _ Hwf _ _ Hx) as H.
    rewrite Ha in H. by simplify_eq/=.
  - destruct (Z.lt_ge_cases 0 (len_bits bits)) as [Hpos|Hle].
    + right. exists (length (arts st)).
      split_and!; [by eapply create_lookup_miss| |by right].
      apply lookup_lt_Some in Ha. lia.
    + left. eexists. by apply create_lookup_empty.
Qed.

(** A call of [create] on an artifact leaves the state as it is (it
    raises, or returns [self] for the whole range), or finds or makes the
    artifact of the digest of some bits and attaches it. *)
Lemma create_cases st self a bits start stop records :
  wf st → arts st !! self = Some a →
  (∃ r, create self bits start stop records st = (r, st))
  ∨ ∃ x b, create self bits start stop records st
           = (Ok x, after_create st self x (sha256 (tobytes b)) start stop b)
       ∧ x ≠ self
       ∧ (hashes (top st) !! sha256 (tobytes b) = Some x
          ∨ (hashes (top st) !! sha256 (tobytes b) = None
             ∧ x = length (arts st) ∧ 0 < len_bits b)).
Proof.
  intros Hwf Ha.
  assert (Hlookup : ∀ b,
    (∃ r, create_lookup self start stop b (sha256 (tobytes b)) st = (r, st))
    ∨ ∃ x b', create_lookup self start stop b (sha256 (tobytes b)) st
             = (Ok x, after_create st self x (sha256 (tobytes b')) start stop b')
       ∧ x ≠ self
       ∧ (hashes (top st) !! sha256 (tobytes b') = Some x
          ∨ (hashes (top st) !! sha256 (tobytes b') = None
             ∧ x = length (arts st) ∧ 0 < len_bits b'))).
  { intros b.
    destruct (create_lookup_cases st self a start stop b (sha256 (tobytes b)) Hwf Ha)
      as [[e He]|(x & Hrun & Hx & Hcase)]; [left; eauto|].
    right. exists x, b. eauto. }
  assert (Hslice :
    (∃ r, create_slice self start stop st = (r, st))
    ∨ ∃ x b', create_slice self start stop st
             = (Ok x, after_create st self x (sha256 (tobytes b')) start stop b')
       ∧ x ≠ self
       ∧ (hashes (top st) !! sha256 (tobytes b') = Some x
          ∨ (hashes (top st) !! sha256 (tobytes b') = None
             ∧ x = length (arts st) ∧ 0 < len_bits b'))).
  { unfold create_slice.
    destruct (py_gt stop start) as [gt|e]; [|left; by eexists].
    run. destruct gt; [|left; by eexists]. simpl.
    destruct (default 0 stop <=? len st self); [|left; by eexists]. simpl.
    destruct (negb (truthy start) && (default 0 stop =? len st self));
      [left; by eexists|].
    apply Hlookup. }
  unfold create.
  destruct records as [[|r rs]|].
  - destruct bits as [[[|b0 d]|d|rs']|];
      [done|apply (Hlookup (Bytes (b0 :: d)))|apply (Hlookup (MemoryView d))| |done].
    destruct (len_bits (ScatterGather rs') =? 0); [done|]. left. by eexists.
  - run. destruct bits as [b|]; [left; by eexists|]. simpl.
    destruct (Z.ltb_spec 0 (Z.of_nat (length (r :: rs)))) as [_|Hl];
      [|simpl in Hl; lia]. simpl.
    apply (Hlookup (ScatterGather (r :: rs))).
  - destruct bits as [[[|b0 d]|d|rs']|];
      [done|apply (Hlookup (Bytes (b0 :: d)))|apply (Hlookup (MemoryView d))| |done].
    destruct (len_bits (ScatterGather rs') =? 0); [done|]. left. by eexists.
Qed.

(* ===================================================================== *)
(** * What a call of [create] keeps *)
(* ===================================================================== *)

Lemma occurrences_app {A} `{EqDecision A} (x : A) l1 l2 :
  occurrences x (l1 ++ l2) = (occurrences x l1 + occurrences x l2)%nat.
Proof. unfold occurrences. by rewrite filter_app, length_app. Qed.

Lemma occurrences_singleton {A} `{EqDecision A} (x y : A) :
  occurrences x [y] = if decide (y = x) then 1%nat else 0%nat.
Proof.
  unfold occurrences. rewrite filter_cons, filter_nil. by case_decide.
Qed.

Lemma occurrences_absent {A} `{EqDecision A} (x : A) l :
  x ∉ l → occurrences x l = 0%nat.
Proof.
  unfold occurrences. induction l as [|y l IH]; intros Hx; [done|].
  rewrite filter_cons. apply not_elem_of_cons in Hx as [Hne Hx].
  rewrite decide_False by done. by apply IH.
Qed.

Lemma wf_after_create_cases st self a x d start stop bits :
  wf st → arts st !! self = Some a →
  hashes (top st) !! d = Some x
  ∨ (hashes (top st) !! d = None ∧ x = length (arts st) ∧ 0 < len_bits bits) →
  wf (after_create st self x d start stop bits).
Proof.
  intros Hwf Ha [Hhit|(Hmiss & -> & Hpos)].
  - pose proof (wf_hashes _ Hwf _ _ Hhit) as Hx.
    destruct (arts st !! x) as [ax|] eqn:Hax; [|done].
    apply lookup_lt_Some in Hax.
    rewrite (after_create_hit _ _ _ _ _ _ bits (MemoryView ["000"%byte])) by lia.
    eapply wf_after_create; eauto. by vm_compute.
  - eapply wf_after_create; eauto.
Qed.

Lemma honest_after_create st self x start stop bits :
  digests_honest st →
  digests_honest (after_create st self x (sha256 (tobytes bits)) start stop bits).
Proof.
  intros Hst i a' Hi.
  apply arts_after_create_inv in Hi as [(ai & Hi & ->)|(-> & -> & ->)].
  - rewrite touched_digest, touched_bdx. by eapply Hst.
  - cbn [fresh_artifact digest bdx]. by destruct bits.
Qed.

Lemma names_unique_after_create st self x d start stop bits :
  names_unique st → names_unique (after_create st self x d start stop bits).
Proof.
  intros [Hk Hu]. split.
  - intros i a' n Hi Hn. rewrite top_after_create. cbn [set_hashes names].
    apply arts_after_create_inv in Hi as [(ai & Hi & ->)|(-> & -> & ->)].
    + destruct (touched_notes self x start stop i ai) as (_ & _ & Hnm).
      rewrite Hnm in Hn. by eapply Hk.
    + done.
  - intros i j a' b' n Hi Hj Hna Hnb.
    apply arts_after_create_inv in Hi as [(ai & Hi & ->)|(-> & -> & ->)];
      [|done].
    apply arts_after_create_inv in Hj as [(aj & Hj & ->)|(-> & -> & ->)];
      [|done].
    destruct (touched_notes self x start stop i ai) as (_ & _ & Hnm1).
    destruct (touched_notes self x start stop j aj) as (_ & _ & Hnm2).
    rewrite Hnm1 in Hna. rewrite Hnm2 in Hnb. by eapply Hu.
Qed.

Lemma extends_after_create st self a x d start stop bits :
  wf st → arts st !! self = Some a →
  hashes (top st) !! d = Some x
  ∨ (hashes (top st) !! d = None ∧ x = length (arts st) ∧ 0 < len_bits bits) →
  extends st (after_create st self x d start stop bits).
Proof.
  intros Hwf Ha Hcase i ai Hi.
  exists (touched self x start stop i ai). split_and!.
  - by apply arts_after_create_old.
  - apply touched_bdx.
  - apply touched_digest.
  - rewrite hashes_after_create.
    pose proof (wf_registered _ Hwf _ _ Hi) as Hreg.
    destruct (decide (d = digest ai)) as [->|Hne]; [|by rewrite lookup_insert_ne].
    rewrite lookup_insert_eq. destruct Hcase as [?|(? & _)]; congruence.
Qed.

Lemma mirrored_after_create st self a x d start stop bits :
  edges_mirrored st → arts st !! self = Some a → x ≠ self →
  (x ≤ length (arts st))%nat →
  edges_mirrored (after_create st self x d start stop bits).
Proof.
  intros [Hart Htop Hpar Hchi Htc] Ha Hx Hle.
  assert (Hself : (self < length (arts st))%nat) by (by eapply lookup_lt_Some).
  assert (Hlen : length (arts (after_create st self x d start stop bits))
                 = if decide (x = length (arts st))
                   then S (length (arts st)) else length (arts st))
    by apply length_after_create.
  assert (Hno_par : ∀ i ai, arts st !! i = Some ai →
            occurrences (NArt (length (arts st))) (parents ai) = 0%nat).
  { intros i ai Hi. apply occurrences_absent. intros Hin.
    apply (Hpar _ _ _ Hi) in Hin. lia. }
  assert (Hno_chi : ∀ i ai, arts st !! i = Some ai →
            occurrences (length (arts st)) (children ai) = 0%nat).
  { intros i ai Hi. apply occurrences_absent. intros Hin.
    apply (Hchi _ _ _ Hi) in Hin. lia. }
  split.
  - intros i j a' b' Hi Hj.
    apply arts_after_create_inv in Hi as [(ai & Hi & ->)|(-> & Hxn & ->)];
      apply arts_after_create_inv in Hj as [(bj & Hj & ->)|(-> & Hxn' & ->)].
    + rewrite touched_parents, touched_children.
      pose proof (Hart _ _ _ _ Hi Hj) as Hold.
      repeat case_decide; subst;
        rewrite ?occurrences_app, ?occurrences_singleton;
        repeat case_decide; simplify_eq; lia.
    + apply lookup_lt_Some in Hi as Hilt.
      rewrite touched_parents. cbn [fresh_artifact children].
      rewrite decide_False by lia. subst x. by rewrite (Hno_par _ _ Hi).
    + apply lookup_lt_Some in Hj as Hjlt.
      rewrite touched_children. cbn [fresh_artifact parents].
      subst x. pose proof (Hno_chi _ _ Hj) as Hz.
      repeat case_decide; subst;
        rewrite ?occurrences_app, ?occurrences_singleton;
        repeat case_decide; simplify_eq; lia.
    + cbn [fresh_artifact parents children]. rewrite occurrences_singleton.
      rewrite decide_False by (intros [= ?]; lia). done.
  - intros i a' Hi. rewrite top_after_create. cbn [set_hashes top_children].
    apply arts_after_create_inv in Hi as [(ai & Hi & ->)|(-> & Hxn & ->)].
    + rewrite touched_parents. pose proof (Htop _ _ Hi) as Hold.
      destruct (decide (i = x)); [|done].
      rewrite occurrences_app, occurrences_singleton, decide_False by done. lia.
    + cbn [fresh_artifact parents]. rewrite occurrences_singleton.
      rewrite decide_False by done. symmetry. apply occurrences_absent.
      intros Hin. apply Htc in Hin. lia.
  - intros i a' j Hi Hin. rewrite Hlen.
    apply arts_after_create_inv in Hi as [(ai & Hi & ->)|(-> & Hxn & ->)].
    + rewrite touched_parents in Hin.
      assert (j < length (arts st))%nat; [|destruct (decide (x = length (arts st))); lia].
      destruct (decide (i = x)); [|by eapply Hpar].
      apply elem_of_app in Hin as [Hin|Hin]; [by eapply Hpar|].
      apply list_elem_of_singleton in Hin. by simplify_eq.
    + cbn [fresh_artifact parents] in Hin.
      apply list_elem_of_singleton in Hin. injection Hin as ->.
      destruct (decide (x = length (arts st))); lia.
  - intros i a' c Hi Hin. rewrite Hlen.
    apply arts_after_create_inv in Hi as [(ai & Hi & ->)|(-> & Hxn & ->)].
    + rewrite touched_children in Hin.
      assert (Hold : c ∈ children ai → (c < length (arts st))%nat)
        by (intros ?; by eapply Hchi).
      destruct (decide (i = self)); [|specialize (Hold Hin); destruct (decide (x = length (arts st))); lia].
      apply elem_of_app in Hin as [Hin|Hin].
      * specialize (Hold Hin). destruct (decide (x = length (arts st))); lia.
      * apply list_elem_of_singleton in Hin. subst c. destruct (decide (x = length (arts st))); lia.
    + cbn [fresh_artifact children] in Hin. by apply elem_of_nil in Hin.
  - intros c Hin. rewrite top_after_create in Hin. cbn [set_hashes top_children] in Hin.
    apply Htc in Hin. rewrite Hlen. destruct (decide (x = length (arts st))); lia.
Qed.

(* ===================================================================== *)
(** * The invariants under every call *)
(* ===================================================================== *)

Lemma extends_refl st : wf st → extends st st.
Proof. intros Hwf i a Hi. exists a. by split_and!. Qed.

Lemma extends_trans st1 st2 st3 :
  extends st1 st2 → extends st2 st3 → extends st1 st3.
Proof.
  intros H12 H23 i a Hi.
  destruct (H12 i a Hi) as (a2 & Hi2 & Hb2 & Hd2 & Hh2).
  destruct (H23 i a2 Hi2) as (a3 & Hi3 & Hb3 & Hd3 & Hh3).
  exists a3. split_and!; [done|congruence|congruence|].
  rewrite Hd2 in Hh3. congruence.
Qed.

(** One call of [create] on an artifact. *)
Lemma create_sound st self a bits start stop records :
  sound st → arts st !! self = Some a →
  sound (exec (create self bits start stop records) st)
  ∧ extends st (exec (create self bits start stop records) st).
Proof.
  intros Hst Ha. pose proof Hst as [Hwf Hh Hm Hn Hu].
  assert (Hns : no_self_edges (exec (create self bits start stop records) st))
    by (by apply create_no_self).
  destruct (create_cases st self a bits start stop records Hwf Ha)
    as [[r Hr]|(x & b & Hrun & Hx & Hcase)].
  - unfold exec in *. rewrite Hr in *. simpl. split; [done|by apply extends_refl].
  - unfold exec in *. rewrite Hrun in *. simpl in *. split; [split|].
    + by eapply wf_after_create_cases.
    + by apply honest_after_create.
    + eapply mirrored_after_create; eauto.
      destruct Hcase as [Hhit|(_ & -> & _)]; [|done].
      pose proof (wf_hashes _ Hwf _ _ Hhit) as Hax.
      destruct (arts st !! x) eqn:Hlx; [|done].
      apply lookup_lt_Some in Hlx. lia.
    + done.
    + by apply names_unique_after_create.
    + by eapply extends_after_create.
Qed.

Lemma preserves_for_each {A} (P : state → Prop) (f : A → M unit) l :
  (∀ x, preserves P (f x)) → preserves P (for_each f l).
Proof.
  intros Hf. induction l as [|x l IH]; simpl.
  - apply preserves_ret.
  - apply preserves_bind; [apply Hf|]. intros _. apply IH.
Qed.

(** [examined] is a loop of calls of [create]. *)
Lemma examined_sound st self a :
  sound st → arts st !! self = Some a →
  sound (exec (examined self) st) ∧ extends st (exec (examined self) st).
Proof.
  intros Hst Ha.
  set (P := λ s, sound s ∧ extends st s).
  assert (Hcreate : ∀ bits start stop records,
            preserves P (create self bits start stop records)).
  { intros bits start stop records s [Hs He].
    destruct (He self a Ha) as (a' & Ha' & _).
    destruct (create_sound s self a' bits start stop records Hs Ha') as [Hs' He'].
    split; [done|]. by eapply extends_trans. }
  assert (HP : preserves P (examined self)).
  { unfold examined. apply preserves_bind; [apply preserves_get|]. intros s.
    destruct (gaps s self) as [l|e]; [|apply preserves_raise].
    apply preserves_for_each. intros [start stop].
    apply preserves_bind; [apply Hcreate|]. intros _. apply preserves_ret. }
  apply HP. split; [done|]. apply extends_refl, Hst.
Qed.

(** ** Annotations *)

Lemma same_graph_refl st : same_graph st st.
Proof. split; try done. intros i a Hi. exists a. by split_and!. Qed.

Lemma same_graph_trans st1 st2 st3 :
  same_graph st1 st2 → same_graph st2 st3 → same_graph st1 st3.
Proof.
  intros [L1 H1 T1 A1] [L2 H2 T2 A2]. split; try congruence.
  intros i a Hi.
  destruct (A1 i a Hi) as (a2 & Hi2 & ? & ? & ? & ? & ?).
  destruct (A2 i a2 Hi2) as (a3 & Hi3 & ? & ? & ? & ? & ?).
  exists a3. split_and!; congruence.
Qed.

Lemma same_graph_upd_art st i f :
  (∀ a, bdx (f a) = bdx a ∧ digest (f a) = digest a ∧ parents (f a) = parents a
        ∧ children (f a) = children a ∧ layout (f a) = layout a) →
  same_graph st (upd_art i f st).
Proof.
  intros Hf. split; try done.
  - unfold upd_art. simpl. apply length_alter.
  - intros j a Hj. destruct (decide (i = j)) as [->|Hne].
    + exists (f a). split; [by apply arts_upd_art_eq|apply Hf].
    + exists a. split; [by rewrite arts_upd_art_ne|by split_and!].
Qed.

Lemma same_graph_upd_top st g :
  (∀ t, hashes (g t) = hashes t ∧ top_children (g t) = top_children t) →
  same_graph st (upd_top g st).
Proof.
  intros Hg. split; try done; try apply Hg.
  intros i a Hi. exists a. by split_and!.
Qed.

Lemma same_graph_add_to_index st key this :
  same_graph st (exec (add_to_index key this) st).
Proof. by apply same_graph_upd_top. Qed.

Lemma same_graph_add_note st self note :
  same_graph st (exec (add_note self note) st).
Proof.
  eapply same_graph_trans; [|apply same_graph_add_to_index].
  by apply (same_graph_upd_art _ self (set_notes (λ s, s ∪ {[note]}))).
Qed.

(** A mutation changes annotations only. *)
Lemma same_graph_mutate st m : same_graph st (mutate st m).
Proof.
  destruct m as [self n fb|self x|self x|self d|self d]; simpl.
  - unfold exec, set_name. run.
    case_bool_decide; [apply same_graph_refl|].
    assert (Hdemote : same_graph st (exec (add_note self n ;; add_to_index n self) st)).
    { eapply same_graph_trans; [apply same_graph_add_note|].
      apply same_graph_add_to_index. }
    case_bool_decide; [destruct fb; [done|apply same_graph_refl]|].
    case_bool_decide; [destruct fb; [done|apply same_graph_refl]|].
    simpl.
    eapply same_graph_trans;
      [by apply (same_graph_upd_top st (set_names (λ s, s ∪ {[n]})))|].
    eapply same_graph_trans;
      [by apply (same_graph_upd_art _ self (set_named (Some n)))|].
    apply same_graph_add_to_index.
  - apply same_graph_add_note.
  - eapply same_graph_trans; [|apply same_graph_add_to_index].
    by apply (same_graph_upd_art _ self (set_types (λ s, s ∪ {[x]}))).
  - eapply same_graph_trans;
      [by apply (same_graph_upd_art _ self (set_comments (λ l, l ++ [d])))|].
    by apply (same_graph_upd_art _ self (set_notes (λ s, s ∪ {["Has Comment"]}))).
  - by apply (same_graph_upd_art _ self (set_descriptions (λ l, l ++ [d]))).
Qed.

Lemma same_graph_inv st st' i a' :
  same_graph st st' → arts st' !! i = Some a' →
  ∃ a, arts st !! i = Some a ∧ bdx a' = bdx a ∧ digest a' = digest a
     ∧ parents a' = parents a ∧ children a' = children a ∧ layout a' = layout a.
Proof.
  intros [L H T A] Hi.
  destruct (arts st !! i) as [a|] eqn:Ha.
  - destruct (A i a Ha) as (a'' & Hi' & ?). exists a. by simplify_eq.
  - apply lookup_lt_Some in Hi. apply lookup_ge_None in Ha. lia.
Qed.

Lemma same_graph_wf st st' : same_graph st st' → wf st → wf st'.
Proof.
  intros Hsg [W1 W2 W3 W4]. pose proof Hsg as [L H T A]. split.
  - intros i a' Hi. destruct (same_graph_inv _ _ _ _ Hsg Hi) as (a & Ha & ? & Hd & _).
    rewrite H, Hd. by apply W1.
  - intros d i. rewrite H. intros Hi. specialize (W2 _ _ Hi).
    destruct (arts st !! i) as [a|] eqn:Ha; [|done].
    destruct (A i a Ha) as (a' & -> & _ & Hd & _). simpl in *. congruence.
  - intros i a' Hi. destruct (same_graph_inv _ _ _ _ Hsg Hi) as (a & Ha & Hb & _).
    rewrite Hb. by eapply W3.
  - intros i a' e Hi. destruct (same_graph_inv _ _ _ _ Hsg Hi)
      as (a & Ha & _ & _ & _ & _ & Hl).
    rewrite Hl. by eapply W4.
Qed.

Lemma same_graph_honest st st' : same_graph st st' → digests_honest st → digests_honest st'.
Proof.
  intros Hsg Hst i a' Hi.
  destruct (same_graph_inv _ _ _ _ Hsg Hi) as (a & Ha & Hb & Hd & _).
  rewrite Hb, Hd. by eapply Hst.
Qed.

Lemma same_graph_no_self st st' : same_graph st st' → no_self_edges st → no_self_edges st'.
Proof.
  intros Hsg Hst i a' Hi.
  destruct (same_graph_inv _ _ _ _ Hsg Hi) as (a & Ha & _ & _ & Hp & Hc & _).
  rewrite Hp, Hc. by eapply Hst.
Qed.

Lemma same_graph_mirrored st st' : same_graph st st' → edges_mirrored st → edges_mirrored st'.
Proof.
  intros Hsg [E1 E2 E3 E4 E5]. pose proof Hsg as [L H T A]. split.
  - intros i j a' b' Hi Hj.
    destruct (same_graph_inv _ _ _ _ Hsg Hi) as (a & Ha & _ & _ & Hp & _).
    destruct (same_graph_inv _ _ _ _ Hsg Hj) as (b & Hb & _ & _ & _ & Hc & _).
    rewrite Hp, Hc. by eapply E1.
  - intros i a' Hi.
    destruct (same_graph_inv _ _ _ _ Hsg Hi) as (a & Ha & _ & _ & Hp & _).
    rewrite Hp, T. by eapply E2.
  - intros i a' j Hi.
    destruct (same_graph_inv _ _ _ _ Hsg Hi) as (a & Ha & _ & _ & Hp & _).
    rewrite Hp, L. by eapply E3.
  - intros i a' c Hi.
    destruct (same_graph_inv _ _ _ _ Hsg Hi) as (a & Ha & _ & _ & _ & Hc & _).
    rewrite Hc, L. by eapply E4.
  - intros c. rewrite T, L. apply E5.
Qed.

Lemma same_graph_extends st st' : same_graph st st' → extends st st'.
Proof.
  intros [L H T A] i a Hi. destruct (A i a Hi) as (a' & Hi' & Hb & Hd & _).
  exists a'. split_and!; [done|done|done|by rewrite H].
Qed.

Lemma names_unique_upd_art st i f :
  (∀ a, named (f a) = named a) → names_unique st → names_unique (upd_art i f st).
Proof.
  intros Hf [Hk Hu].
  assert (Hinv : ∀ j a', arts (upd_art i f st) !! j = Some a' →
            ∃ a, arts st !! j = Some a ∧ named a' = named a).
  { intros j a' Hj. unfold upd_art in Hj. simpl in Hj.
    destruct (decide (i = j)) as [->|Hne].
    - rewrite list_lookup_alter_eq in Hj.
      destruct (arts st !! j) as [a|]; simplify_eq/=. eauto.
    - rewrite list_lookup_alter_ne in Hj by done. eauto. }
  split.
  - intros j a' n Hj Hn. destruct (Hinv _ _ Hj) as (a & Ha & Hna).
    rewrite Hna in Hn. by eapply Hk.
  - intros j k a' b' n Hj Hk' Hna Hnb.
    destruct (Hinv _ _ Hj) as (a & Ha & Hna'). destruct (Hinv _ _ Hk') as (b & Hb & Hnb').
    rewrite Hna' in Hna. rewrite Hnb' in Hnb. by eapply Hu.
Qed.

Lemma names_unique_upd_top st g :
  (∀ t, names t ⊆ names (g t)) → names_unique st → names_unique (upd_top g st).
Proof.
  intros Hg [Hk Hu]. split; [|done].
  intros i a n Hi Hn. apply Hg. by eapply Hk.
Qed.

Lemma names_unique_add_note st self note :
  names_unique st → names_unique (exec (add_note self note) st).
Proof.
  intros Hst.
  apply (names_unique_upd_top _ (set_index _)); [done|].
  by apply (names_unique_upd_art _ self (set_notes (λ s, s ∪ {[note]}))).
Qed.

(** [set_name] sets a unique name: a name is claimed only when the
    artifact has none and nobody has this one. *)
Lemma names_unique_set_name st self n fallback :
  names_unique st → names_unique (exec (set_name self n fallback) st).
Proof.
  intros Hst. unfold exec, set_name. run.
  case_bool_decide as Hsame; [done|].
  assert (Hdemote : names_unique (exec (add_note self n ;; add_to_index n self) st)).
  { apply (names_unique_upd_top _ (set_index _)); [done|].
    by apply names_unique_add_note. }
  case_bool_decide as Hnamed; [destruct fallback; done|].
  case_bool_decide as Htaken; [destruct fallback; done|].
  simpl.
  apply (names_unique_upd_top _ (set_index _)); [done|].
  destruct Hst as [Hk Hu]. split.
  - intros i a' m Hi Hm. simpl in *.
    destruct (decide (self = i)) as [->|Hne].
    + rewrite list_lookup_alter_eq in Hi.
      destruct (arts st !! i) as [a|]; simplify_eq/=.
      apply elem_of_union_r. by apply elem_of_singleton.
    + rewrite list_lookup_alter_ne in Hi by done.
      apply elem_of_union_l. by eapply Hk.
  - intros i j a' b' m Hi Hj Ha Hb. simpl in *.
    destruct (decide (self = i)) as [<-|Hi'], (decide (self = j)) as [<-|Hj'];
      [done| | |].
    + rewrite list_lookup_alter_eq in Hi. rewrite list_lookup_alter_ne in Hj by done.
      destruct (arts st !! self) as [a|]; simplify_eq/=.
      destruct Htaken. by eapply Hk.
    + rewrite list_lookup_alter_eq in Hj. rewrite list_lookup_alter_ne in Hi by done.
      destruct (arts st !! self) as [b|]; simplify_eq/=.
      destruct Htaken. by eapply Hk.
    + rewrite list_lookup_alter_ne in Hi by done.
      rewrite list_lookup_alter_ne in Hj by done. by eapply Hu.
Qed.

Lemma names_unique_mutate st m : names_unique st → names_unique (mutate st m).
Proof.
  intros Hst. destruct m as [self n fb|self x|self x|self d|self d]; simpl.
  - by apply names_unique_set_name.
  - by apply names_unique_add_note.
  - apply (names_unique_upd_top _ (set_index _)); [done|].
    by apply (names_unique_upd_art _ self (set_types (λ s, s ∪ {[x]}))).
  - apply (names_unique_upd_art _ self (set_notes (λ s, s ∪ {["Has Comment"]}))); [done|].
    by apply (names_unique_upd_art _ self (set_comments (λ l, l ++ [d]))).
  - by apply (names_unique_upd_art _ self (set_descriptions (λ l, l ++ [d]))).
Qed.

Lemma mutate_sound st m : sound st → sound (mutate st m) ∧ extends st (mutate st m).
Proof.
  intros [Hwf Hh Hm Hn Hu]. pose proof (same_graph_mutate st m) as Hsg.
  split; [split|].
  - by eapply same_graph_wf.
  - by eapply same_graph_honest.
  - by eapply same_graph_mirrored.
  - by eapply same_graph_no_self.
  - by apply names_unique_mutate.
  - by apply same_graph_extends.
Qed.

(** Every call keeps the invariants and the artifacts there are. *)
Lemma run_operation_sound st o :
  sound st → sound (run_operation st o) ∧ extends st (run_operation st o).
Proof.
  intros Hst. unfold run_operation.
  case_decide as Hvalid; [|split; [done|apply extends_refl, Hst]].
  apply lookup_lt_is_Some in Hvalid as [a Ha].
  destruct o as [[self bits start stop records]|self|m]; simpl in *.
  - by eapply create_sound.
  - by eapply examined_sound.
  - by apply mutate_sound.
Qed.

Lemma run_operations_sound_extends os : ∀ st,
  sound st → sound (run_operations os st) ∧ extends st (run_operations os st).
Proof.
  induction os as [|o os IH]; intros st Hst; simpl.
  - split; [done|apply extends_refl, Hst].
  - destruct (run_operation_sound st o Hst) as [Hs He].
    destruct (IH _ Hs) as [Hs' He']. split; [done|]. by eapply extends_trans.
Qed.

(* ===================================================================== *)
(** * The checks of the invariants are sound *)
(* ===================================================================== *)

Lemma forallb_imap_pair {A} (f : nat * A → bool) (l : list A) i a :
  forallb f (imap pair l) = true → l !! i = Some a → f (i, a) = true.
Proof.
  intros H Hi. apply Is_true_true, forallb_True in H. rewrite Forall_forall in H.
  apply Is_true_true. apply H. by apply elem_of_imap_pair.
Qed.

Lemma forallb_elem_of {A} (f : A → bool) (l : list A) x :
  forallb f l = true → x ∈ l → f x = true.
Proof.
  intros H Hx. apply Is_true_true, forallb_True in H. rewrite Forall_forall in H.
  apply Is_true_true. by apply H.
Qed.

Lemma digests_honestb_sound st : digests_honestb st = true → digests_honest st.
Proof.
  intros H i a Hi. apply list_elem_of_lookup_2 in Hi.
  apply (forallb_elem_of _ _ _ H) in Hi. by apply String.eqb_eq.
Qed.

Lemma edges_mirroredb_sound st : edges_mirroredb st = true → edges_mirrored st.
Proof.
  unfold edges_mirroredb. intros H.
  apply andb_true_iff in H as [H Htc].
  assert (Hart : ∀ i a, arts st !! i = Some a →
    (∀ j b, arts st !! j = Some b →
       occurrences (NArt j) (parents a) = occurrences i (children b))
    ∧ occurrences NTop (parents a) = occurrences i (top_children (top st))
    ∧ (∀ j, NArt j ∈ parents a → (j < length (arts st))%nat)
    ∧ (∀ c, c ∈ children a → (c < length (arts st))%nat)).
  { intros i a Hi. pose proof (forallb_imap_pair _ _ _ _ H Hi) as Hia.
    simpl in Hia.
    apply andb_true_iff in Hia as [Hia Hc].
    apply andb_true_iff in Hia as [Hia Hp].
    apply andb_true_iff in Hia as [Hpairs Htop].
    split_and!.
    - intros j b Hj. pose proof (forallb_imap_pair _ _ _ _ Hpairs Hj) as Hjb.
      simpl in Hjb. by apply bool_decide_eq_true in Hjb.
    - by apply bool_decide_eq_true in Htop.
    - intros j Hj. apply (forallb_elem_of _ _ _ Hp) in Hj. by apply Nat.ltb_lt.
    - intros c Hin. apply (forallb_elem_of _ _ _ Hc) in Hin. by apply Nat.ltb_lt. }
  split.
  - intros i j a b Hi Hj. destruct (Hart _ _ Hi) as (Hp & _). by apply Hp.
  - intros i a Hi. by destruct (Hart _ _ Hi) as (_ & ? & _).
  - intros i a j Hi. destruct (Hart _ _ Hi) as (_ & _ & Hp & _). apply Hp.
  - intros i a c Hi. destruct (Hart _ _ Hi) as (_ & _ & _ & Hc). apply Hc.
  - intros c Hc. apply (forallb_elem_of _ _ _ Htc) in Hc. by apply Nat.ltb_lt.
Qed.

Lemma names_uniqueb_sound st : names_uniqueb st = true → names_unique st.
Proof.
  unfold names_uniqueb. intros H.
  assert (Hart : ∀ i a n, arts st !! i = Some a → named a = Some n →
    n ∈ names (top st)
    ∧ ∀ j b, arts st !! j = Some b → named b = Some n → i = j).
  { intros i a n Hi Hn. pose proof (forallb_imap_pair _ _ _ _ H Hi) as Hia.
    simpl in Hia. rewrite Hn in Hia.
    apply andb_true_iff in Hia as [Hk Hu]. split.
    - by apply bool_decide_eq_true in Hk.
    - intros j b Hj Hb. pose proof (forallb_imap_pair _ _ _ _ Hu Hj) as Hjb.
      simpl in Hjb. apply bool_decide_eq_true in Hjb. by apply Hjb. }
  split.
  - intros i a n Hi Hn. by destruct (Hart _ _ _ Hi Hn).
  - intros i j a b n Hi Hj Ha Hb. destruct (Hart _ _ _ Hi Ha) as [_ Hu]. by eapply Hu.
Qed.

Lemma soundb_sound st : soundb st = true → sound st.
Proof.
  unfold soundb. intros H.
  apply andb_true_iff in H as [H Hn].
  apply andb_true_iff in H as [H Hs].
  apply andb_true_iff in H as [H Hm].
  apply andb_true_iff in H as [Hw Hh].
  split.
  - by apply wfb_sound.
  - by apply digests_honestb_sound.
  - by apply edges_mirroredb_sound.
  - by apply no_self_edgesb_sound.
  - by apply names_uniqueb_sound.
Qed.

(* ===================================================================== *)
(** * What every sequence of calls keeps *)
(* ===================================================================== *)

(** The digest table stays exact under [create], [examined], [set_name]
    and the [add_] methods, whatever they are given and whether they return
    or raise: every artifact is in [top.hashes] under its own digest, which
    holds nothing else, so no two artifacts have one digest; no artifact
    is empty; every layout tuple has a true [start] or [stop]. *)
Theorem operations_keep_registry (st : state) (os : list operation) :
  sound st → wf (run_operations os st).
Proof. intros Hst. by destruct (run_operations_sound_extends os st Hst) as [[] _]. Qed.

Lemma operations_keep_registry_witness : wf (run_operations demo_operations dig_AB).
Proof.
  apply (operations_keep_registry dig_AB demo_operations).
  apply soundb_sound. vm_compute. reflexivity.
Defined.

(** The digest of every artifact stays the SHA-256 of its bytes: [create]
    hands the constructor the bits it has hashed, in each of its branches. *)
Theorem operations_keep_digests_honest (st : state) (os : list operation) :
  sound st → digests_honest (run_operations os st).
Proof. intros Hst. by destruct (run_operations_sound_extends os st Hst) as [[] _]. Qed.

Lemma operations_keep_digests_honest_witness :
  digests_honest (run_operations demo_operations dig_AB).
Proof.
  apply (operations_keep_digests_honest dig_AB demo_operations).
  apply soundb_sound. vm_compute. reflexivity.
Defined.

(** [add_parent] attaches both ways, and nothing else touches the edges:
    after any calls an artifact has a parent as many times as the parent
    has it as a child, and every edge ends at an artifact that exists. *)
Theorem operations_keep_edges_mirrored (st : state) (os : list operation) :
  sound st → edges_mirrored (run_operations os st).
Proof. intros Hst. by destruct (run_operations_sound_extends os st Hst) as [[] _]. Qed.

Lemma operations_keep_edges_mirrored_witness :
  edges_mirrored (run_operations demo_operations dig_AB).
Proof.
  apply (operations_keep_edges_mirrored dig_AB demo_operations).
  apply soundb_sound. vm_compute. reflexivity.
Defined.

(** Names stay unique: after any calls, every name an artifact bears is
    in [top.names] and no two artifacts bear the same name, [set_name]
    claiming a name only for an artifact without one and only a name not
    yet in [top.names]. *)
Theorem operations_keep_names_unique (st : state) (os : list operation) :
  sound st → names_unique (run_operations os st).
Proof. intros Hst. by destruct (run_operations_sound_extends os st Hst) as [[] _]. Qed.

Lemma operations_keep_names_unique_witness :
  names_unique (run_operations demo_operations dig_AB).
Proof.
  apply (operations_keep_names_unique dig_AB demo_operations).
  apply soundb_sound. vm_compute. reflexivity.
Defined.

(** Nothing is ever taken back: after any calls every artifact is still
    in the arena, with the bytes and the digest it had, and [top.hashes]
    still holds it for its digest. *)
Theorem operations_keep_artifacts (st : state) (os : list operation) :
  sound st → extends st (run_operations os st).
Proof. intros Hst. by destruct (run_operations_sound_extends os st Hst) as [_ ?]. Qed.

Lemma operations_keep_artifacts_witness :
  extends dig_AB (run_operations demo_operations dig_AB).
Proof.
  apply (operations_keep_artifacts dig_AB demo_operations).
  apply soundb_sound. vm_compute. reflexivity.
Defined.

Example demo_operations_run :
  length (arts (run_operations demo_operations dig_AB)) = 4%nat
  ∧ named (art (run_operations demo_operations dig_AB) 0) = Some "tape"%string
  ∧ named (art (run_operations demo_operations dig_AB) 1) = None
  ∧ parents (art (run_operations demo_operations dig_AB) 0) = [NTop; NArt 1]
  ∧ children (art (run_operations demo_operations dig_AB) 1) = [0%nat].
Proof. vm_compute. repeat split. Qed.

(* ===================================================================== *)
(** * Cycles *)
(* ===================================================================== *)

Lemma yield_children_stuck {A} self (iter : nat → generated A) cs c :
  c ∈ cs → (∀ l, iter c ≠ Some (Ok l)) →
  ∀ acc l, yield_children self iter cs acc ≠ Some (Ok l).
Proof.
  intros Hc Hstuck. induction cs as [|c' cs IH]; intros acc l.
  - by apply elem_of_nil in Hc.
  - simpl. case_bool_decide; [done|].
    destruct (iter c') as [[ys|e]|] eqn:Hiter; [|done|done].
    apply elem_of_cons in Hc as [->|Hc]; [by destruct (Hstuck ys)|].
    by apply IH.
Qed.

Lemma iter_with_cycle {A} (own : nat → list A) st : ∀ fuel x,
  tc (child_of st) x x → ∀ l, iter_with own st fuel x true ≠ Some (Ok l).
Proof.
  induction fuel as [|fuel IH]; intros x Hx l; [done|].
  assert (Hchild : ∃ c, child_of st x c ∧ tc (child_of st) c c).
  { inversion Hx as [? ? Hxx|? y ? Hxy Hyx]; subst.
    - exists x. split; [done|]. by apply tc_once.
    - exists y. split; [done|]. eapply tc_transitive; [done|]. by apply tc_once. }
  destruct Hchild as (c & Hc & Hcc). simpl.
  eapply yield_children_stuck; [exact Hc|]. intros l'. by apply IH.
Qed.

(** On a cycle of children the recursive iterators never come to an
    end: whatever the depth allowed, [iter_notes(recursive=True)] and
    [iter_types(recursive=True)] on an artifact that is its own descendant
    yield no complete result (in Python, the recursion limit is hit, or an
    assertion fails on the way). *)
Theorem iter_recursive_cycle (st : state) (self : nat) :
  tc (child_of st) self self →
  ∀ fuel,
    (∀ l, iter_notes st fuel self true ≠ Some (Ok l))
    ∧ (∀ l, iter_types st fuel self true ≠ Some (Ok l)).
Proof.
  intros Hcycle fuel. split; intros l.
  - rewrite iter_notes_with. by apply iter_with_cycle.
  - rewrite iter_types_with. by apply iter_with_cycle.
Qed.

Lemma child_of_after_create st self a x d start stop bits i j :
  arts st !! self = Some a →
  child_of st i j ∨ (i = self ∧ j = x) →
  (x = length (arts st) → i ≠ x) →
  child_of (after_create st self x d start stop bits) i j.
Proof.
  intros Ha Hor Hfresh. unfold child_of, art in *.
  destruct (arts st !! i) as [ai|] eqn:Hi.
  - rewrite (list_lookup_total_correct _ _ _ Hi) in Hor.
    rewrite (list_lookup_total_correct _ _ _
               (arts_after_create_old st self x d start stop bits i ai Hi)).
    rewrite touched_children. destruct Hor as [Hin|[-> ->]].
    + case_decide; [apply elem_of_app; by left|done].
    + rewrite decide_True by done. apply elem_of_app. right. by left.
  - destruct Hor as [Hin|[-> ->]]; [|congruence].
    rewrite list_lookup_total_alt, Hi in Hin. simpl in Hin.
    by apply elem_of_nil in Hin.
Qed.

Lemma iter_recursive_cycle_witness :
  tc (child_of dig_cycle) 0%nat 0%nat
  ∧ ∀ fuel,
      (∀ l, iter_notes dig_cycle fuel 0 true ≠ Some (Ok l))
      ∧ (∀ l, iter_types dig_cycle fuel 0 true ≠ Some (Ok l)).
Proof.
  assert (Hcycle : tc (child_of dig_cycle) 0%nat 0%nat).
  { apply (tc_l _ _ 1%nat); [|apply tc_once];
      unfold child_of; vm_compute; constructor. }
  split; [exact Hcycle|]. exact (iter_recursive_cycle dig_cycle 0 Hcycle).
Defined.

(** [create] does not look where the artifact it finds stands in the
    graph: given the bytes of an ancestor of [self], it returns that
    ancestor, appends it to the children of [self] and [self] to its
    parents, and the graph has a cycle. *)
Theorem create_closes_cycle (st : state) (self target : nat) (a t : ArtifactClass)
    (b : list byte) (view : bool) :
  wf st →
  arts st !! self = Some a → arts st !! target = Some t →
  digest t = sha256 b → b ≠ [] → target ≠ self →
  rtc (child_of st) target self →
  ∃ st', create self (Some (buffer view b)) None None None st = (Ok target, st')
       ∧ children (art st' self) = children a ++ [target]
       ∧ parents (art st' target) = parents t ++ [NArt self]
       ∧ child_of st' self target
       ∧ tc (child_of st') self self.
Proof.
  intros Hwf Ha Ht Hd Hb Hne Hanc.
  assert (Hhit : hashes (top st) !! sha256 b = Some target).
  { rewrite <- Hd. by eapply wf_registered. }
  assert (Hda : digest a ≠ sha256 b).
  { intros Heq. pose proof (wf_registered _ Hwf _ _ Ha) as Hreg.
    rewrite Heq, Hhit in Hreg. by simplify_eq. }
  exists (after_create st self target (sha256 b) None None (buffer view b)).
  assert (Hvalid : target = length (arts st) → ∀ i : nat, i ≠ target).
  { intros ->. apply lookup_lt_Some in Ht. lia. }
  assert (Hchild : child_of (after_create st self target (sha256 b) None None
                               (buffer view b)) self target).
  { eapply child_of_after_create; eauto. }
  split_and!.
  - rewrite create_buffer by done. by eapply create_lookup_hit.
  - erewrite art_lookup by (by apply arts_after_create_old).
    by rewrite touched_children, decide_True.
  - erewrite art_lookup by (by apply arts_after_create_old).
    by rewrite touched_parents, decide_True.
  - done.
  - eapply tc_rtc_r; [by apply tc_once|].
    eapply rtc_subrel; [|done].
    intros i j Hij. eapply child_of_after_create; eauto.
Qed.

Lemma create_closes_cycle_witness :
  ∃ st', create 1 (Some (buffer false (b_ "AAAABBBB"))) None None None dig_S2
           = (Ok 0%nat, st')
       ∧ children (art st' 1) = children (art dig_S2 1) ++ [0%nat]
       ∧ parents (art st' 0) = parents (art dig_S2 0) ++ [NArt 1]
       ∧ child_of st' 1%nat 0%nat
       ∧ tc (child_of st') 1%nat 1%nat.
Proof.
  apply (create_closes_cycle dig_S2 1 0 (art dig_S2 1) (art dig_S2 0)
           (b_ "AAAABBBB") false).
  - apply wfb_sound. vm_compute. reflexivity.
  - vm_compute. reflexivity.
  - vm_compute. reflexivity.
  - vm_compute. reflexivity.
  - vm_compute. discriminate.
  - lia.
  - apply rtc_once. unfold child_of. vm_compute. constructor.
Defined.

(* ===================================================================== *)
(** * [examined], called again *)
(* ===================================================================== *)

Lemma walk_ranges sl : ∀ acc,
  Forall concrete sl →
  fold_left walk_step sl acc = fold_left walk_range (key <$> sl) acc.
Proof.
  induction sl as [|e sl IH]; intros [l offset] Hc; [done|].
  apply Forall_cons in Hc as [He Hc]. cbn [fold_left fmap list_fmap].
  rewrite walk_step_concrete by done. by apply IH.
Qed.

(** Over the filled ranges the walk finds nothing, and ends at [n]. *)
Lemma walk_filled n rs : ∀ l offset,
  fold_left walk_range (filled n offset rs) (l, offset) = (l, n).
Proof.
  induction rs as [|r rs IH]; intros l offset; simpl.
  - destruct (Z.eqb_spec offset n) as [->|_]; [done|].
    simpl. unfold walk_range. simpl. by rewrite Z.ltb_irrefl.
  - destruct (Z.ltb_spec offset r.1) as [Hlt|Hge]; simpl.
    + unfold walk_range at 2 3. simpl. rewrite !Z.ltb_irrefl. simpl. apply IH.
    + unfold walk_range at 2. simpl.
      destruct (Z.ltb_spec offset r.1); [lia|]. apply IH.
Qed.

(** The filled ranges are the ranges and what the walk finds. *)
Lemma filled_perm n rs : ∀ l offset,
  ∃ G o', fold_left walk_range rs (l, offset) = (l ++ G, o')
    ∧ filled n offset rs ≡ₚ rs ++ G ++ (if o' =? n then [] else [(o', n)]).
Proof.
  induction rs as [|r rs IH]; intros l offset.
  - exists [], offset. simpl. by rewrite app_nil_r.
  - cbn [fold_left filled]. unfold walk_range at 2. cbn [fst snd].
    destruct (Z.ltb_spec offset r.1) as [Hlt|Hge].
    + destruct (IH (l ++ [(offset, r.1)]) r.2) as (G & o' & Hw & Hp).
      exists ((offset, r.1) :: G), o'. split.
      * rewrite Hw. by rewrite <- app_assoc.
      * simpl. rewrite Hp. rewrite Permutation_swap. f_equiv.
        apply Permutation_middle.
    + destruct (IH l r.2) as (G & o' & Hw & Hp).
      exists G, o'. split; [done|]. simpl. by rewrite Hp.
Qed.

Lemma elem_of_filled n rs : ∀ offset x,
  x ∈ filled n offset rs →
  x ∈ rs ∨ x.1 = offset ∨ ∃ z, z ∈ rs ∧ x.1 = z.2.
Proof.
  induction rs as [|r rs IH]; intros offset x Hx; simpl in Hx.
  - destruct (offset =? n); [by apply elem_of_nil in Hx|].
    apply list_elem_of_singleton in Hx as ->. right. by left.
  - assert (Hcases : x = (offset, r.1) ∨ x = r ∨ x ∈ filled n r.2 rs).
    { destruct (offset <? r.1); simpl in Hx.
      - apply elem_of_cons in Hx as [?|Hx]; [by left|].
        apply elem_of_cons in Hx as [?|?]; auto.
      - apply elem_of_cons in Hx as [?|?]; auto. }
    destruct Hcases as [->|[->|Hin]].
    + right. by left.
    + left. by left.
    + destruct (IH _ _ Hin) as [?|[?|(z & Hz & ?)]].
      * left. by right.
      * right. right. exists r. split; [by left|done].
      * right. right. exists z. split; [by right|done].
Qed.

Lemma filled_sorted n rs : ∀ offset,
  StronglySorted range_le rs → Forall (λ r, r.1 < r.2) rs →
  StronglySorted range_le (filled n offset rs).
Proof.
  induction rs as [|r rs IH]; intros offset Hs Hp; simpl.
  - destruct (offset =? n); repeat constructor.
  - apply StronglySorted_inv in Hs as [Hs Hr].
    apply Forall_cons in Hp as [Hlt Hp].
    pose proof (IH r.2 Hs Hp) as Hrest.
    rewrite Forall_forall in Hr, Hp.
    assert (Hlow : ∀ x, x ∈ filled n r.2 rs → r.1 ≤ x.1 ∧ range_le r x).
    { intros x Hx. destruct (elem_of_filled _ _ _ _ Hx) as [Hin|[Heq|(z & Hz & Heq)]].
      - specialize (Hr _ Hin). split; [|done]. unfold range_le in Hr. lia.
      - unfold range_le. lia.
      - specialize (Hr _ Hz). specialize (Hp _ Hz). unfold range_le in *. lia. }
    assert (Htail : StronglySorted range_le (r :: filled n r.2 rs)).
    { constructor; [done|]. apply Forall_forall. intros x Hx.
      by apply Hlow. }
    destruct (Z.ltb_spec offset r.1) as [Ho|_]; [|done]. simpl.
    constructor; [done|]. apply Forall_forall. intros x Hx.
    apply elem_of_cons in Hx as [->|Hx].
    + left. simpl. lia.
    + destruct (Hlow _ Hx) as [? _]. left. simpl. lia.
Qed.

Lemma range_le_antisym : AntiSymm (=) range_le.
Proof.
  intros [x1 x2] [y1 y2]. unfold range_le. simpl. intros H1 H2.
  f_equal; lia.
Qed.

Lemma key_sorted sl :
  StronglySorted key_le sl → StronglySorted range_le (key <$> sl).
Proof. apply StronglySorted_fmap. by intros x y. Qed.

Lemma in_bounds_key n l :
  Forall (in_bounds n) l → Forall (λ r : Z * Z, r.1 < r.2) (key <$> l).
Proof.
  intros H. apply Forall_fmap. eapply Forall_impl; [done|].
  intros e (_ & _ & ? & _). done.
Qed.

(** A first call of [examined] on a layout of tuples in bounds: it
    returns, and what it appends to the layout are the ranges of the walk
    over the sorted layout. *)
Lemma examined_run st self a :
  wf st → arts st !! self = Some a → layout a ≠ [] →
  Forall (in_bounds (len_bits (bdx a))) (layout a) →
  no_slice_collision a →
  ∃ sl G o' st' a' news,
    sl ≡ₚ layout a ∧ StronglySorted key_le sl
    ∧ fold_left walk_range (key <$> sl) ([], 0) = (G, o')
    ∧ examined self st = (Ok tt, st')
    ∧ wf st'
    ∧ arts st' !! self = Some a'
    ∧ bdx a' = bdx a
    ∧ layout a' = layout a ++ news
    ∧ key <$> news = G ++ (if o' =? len_bits (bdx a) then [] else [(o', len_bits (bdx a))])
    ∧ Forall (in_bounds (len_bits (bdx a))) news.
Proof.
  intros Hwf Ha Hne Hb Hcol. set (n := len_bits (bdx a)) in *.
  assert (Hconc : Forall concrete (layout a)).
  { eapply Forall_impl; [done|]. by intros e [? _]. }
  destruct (sorted_concrete st (layout a) Hconc) as (sl & Hsl & Hperm & Hs).
  assert (Hbs : Forall (in_bounds n) sl) by (by rewrite Hperm).
  assert (Hcs : Forall concrete sl) by (by rewrite Hperm).
  assert (Hsne : sl ≠ []).
  { intros ->. by apply Permutation_nil_l in Hperm. }
  assert (Hn0 : 0 ≤ n) by (unfold n, len_bits; lia).
  destruct (walk_covers n sl [] 0 Hbs) as (W1 & W2 & W3 & W4 & _); [lia|lia|].
  specialize (W3 (or_intror Hsne)).
  destruct (fold_left walk_step sl ([], 0)) as [G o'] eqn:Hw. simpl in *.
  set (fin := if o' =? n then [] else [(o', n)]).
  assert (Hgaps : gaps st self = Ok (G ++ fin)).
  { unfold gaps. rewrite (art_lookup _ _ _ Ha), Hsl, (len_lookup _ _ _ Ha).
    fold n. unfold walk. rewrite Hw. unfold fin.
    destruct (Z.eqb_spec o' 0) as [?|_]; [lia|].
    destruct (Z.eqb_spec o' n) as [->|Hoff]; simpl; [by rewrite app_nil_r|done]. }
  assert (Hproper : Forall (proper_range n) (G ++ fin)).
  { apply Forall_app. split.
    - apply Forall_forall. intros g Hg.
      destruct (W4 g Hg) as [Hnil|(?&?&?)]; [by apply elem_of_nil in Hnil|].
      split_and!; [done|done|lia|]. destruct g as [g1 g2]. simpl in *.
      intros [= -> ->]. lia.
    - unfold fin. destruct (Z.eqb_spec o' n) as [?|Hoff]; [constructor|].
      apply Forall_singleton. split_and!; simpl; [lia|lia|lia|].
      intros [= ->]. lia. }
  destruct (examined_loop self (G ++ fin) st a Hwf Ha Hcol Hproper)
    as (st' & a' & news & Hloop & Hwf' & Ha' & Hb' & _ & Hl' & Hnews).
  exists sl, G, o', st', a', news. split_and!; try done.
  - by rewrite <- walk_ranges.
  - unfold examined. run. by rewrite Hgaps.
  - change (key <$> news = G ++ fin).
    clear -Hnews. revert Hnews. generalize (G ++ fin). intros gl Hnews.
    induction Hnews as [|[g1 g2] [[s t] x] gl news Hg _ IH]; [done|].
    simpl in Hg. injection Hg as -> ->. cbn [fmap list_fmap]. by rewrite IH.
  - clear -Hnews Hproper. revert Hnews Hproper. generalize (G ++ fin).
    intros gl Hnews Hp.
    induction Hnews as [|[g1 g2] [[s t] x] gl news Hg _ IH]; [done|].
    apply Forall_cons in Hp as [(H0 & Hlt & Hn & _) Hp].
    simpl in Hg. injection Hg as -> ->. constructor; [|by apply IH].
    split_and!; [split; by eexists|done..].
Qed.

(** Once [examined] has filled the layout of an artifact, there is
    nothing left for it to do: for a layout of concrete tuples with
    [0 <= start < stop <= len], nested or not, a second call finds no
    range to create and returns with the state as the first call left
    it. *)
Theorem examined_twice (st : state) (self : nat) (a : ArtifactClass) :
  wf st → arts st !! self = Some a →
  Forall (in_bounds (len_bits (bdx a))) (layout a) →
  no_slice_collision a →
  ∃ st', examined self st = (Ok tt, st')
       ∧ gaps st' self = Ok []
       ∧ examined self st' = (Ok tt, st').
Proof.
  intros Hwf Ha Hb Hcol.
  assert (Hdone : ∀ s, gaps s self = Ok [] → examined self s = (Ok tt, s)).
  { intros s Hg. unfold examined. run. by rewrite Hg. }
  destruct (decide (layout a = [])) as [Hnil|Hne].
  { assert (Hg : gaps st self = Ok []).
    { unfold gaps. by rewrite (art_lookup _ _ _ Ha), Hnil. }
    exists st. auto. }
  set (n := len_bits (bdx a)) in *.
  destruct (examined_run st self a Hwf Ha Hne Hb Hcol)
    as (sl & G & o' & st' & a' & news & Hperm & Hs & Hw & Hrun & Hwf' & Ha' & Hb'
        & Hl' & Hkeys & Hnews).
  fold n in Hkeys, Hnews.
  assert (Hpos : 0 < n).
  { destruct (layout a) as [|e l]; [done|].
    apply Forall_cons in Hb as [(_ & ? & ? & ?) _]. lia. }
  assert (Hb2 : Forall (in_bounds n) (layout a')).
  { rewrite Hl'. apply Forall_app. by split. }
  assert (Hc2 : Forall concrete (layout a')).
  { eapply Forall_impl; [done|]. by intros e [? _]. }
  destruct (sorted_concrete st' (layout a') Hc2) as (sl' & Hsl' & Hperm' & Hs').
  assert (Hcs' : Forall concrete sl') by (by rewrite Hperm').
  assert (Hfilled : key <$> sl' = filled n 0 (key <$> sl)).
  { apply (StronglySorted_unique_strong range_le).
    - intros x y _ _. apply range_le_antisym.
    - by apply key_sorted.
    - apply filled_sorted; [by apply key_sorted|].
      apply (in_bounds_key n). by rewrite Hperm.
    - destruct (filled_perm n (key <$> sl) [] 0) as (G1 & o1 & Hw1 & Hp1).
      rewrite Hw in Hw1. simpl in Hw1. injection Hw1 as <- <-.
      rewrite Hp1, Hperm', Hl', fmap_app, Hkeys. by rewrite Hperm. }
  assert (Hg : gaps st' self = Ok []).
  { unfold gaps. rewrite (art_lookup _ _ _ Ha'), Hsl', (len_lookup _ _ _ Ha'), Hb'.
    fold n. unfold walk. rewrite walk_ranges, Hfilled, walk_filled by done.
    destruct (Z.eqb_spec n 0) as [?|_]; [lia|]. by rewrite Z.eqb_refl. }
  exists st'. auto.
Qed.

(** The layout of [dig_nested] has [2, 4) inside [0, 6). *)
Lemma examined_twice_witness :
  ∃ st', examined 0 dig_nested = (Ok tt, st')
       ∧ gaps st' 0 = Ok []
       ∧ examined 0 st' = (Ok tt, st').
Proof.
  apply (examined_twice dig_nested 0 (art dig_nested 0)).
  - apply wfb_sound. vm_compute. reflexivity.
  - vm_compute. reflexivity.
  - vm_compute. repeat constructor; try (eexists; reflexivity); discriminate.
  - apply no_slice_collisionb_sound. vm_compute. reflexivity.
Defined.

(* ===================================================================== *)
(** * The index, over calls *)
(* ===================================================================== *)

Lemma index_complete_after_create st self x d start stop bits :
  index_complete st → index_complete (after_create st self x d start stop bits).
Proof.
  intros Hc i a' Hi.
  apply arts_after_create_inv in Hi as [(aj & Hj & ->)|(_ & _ & ->)].
  - destruct (touched_notes self x start stop i aj) as (-> & -> & ->).
    exact (Hc i aj Hj).
  - simpl. split_and!; [done|intros y Hy..]; by apply elem_of_empty in Hy.
Qed.

Lemma create_index_complete st self a bits start stop records :
  wf st → arts st !! self = Some a → index_complete st →
  index_complete (exec (create self bits start stop records) st).
Proof.
  intros Hwf Ha Hc.
  destruct (create_cases st self a bits start stop records Hwf Ha)
    as [[r Hr]|(x & b & Hrun & _)]; unfold exec.
  - by rewrite Hr.
  - rewrite Hrun. by apply index_complete_after_create.
Qed.

Lemma examined_index_complete st self a :
  sound st → arts st !! self = Some a → index_complete st →
  index_complete (exec (examined self) st).
Proof.
  intros Hst Ha Hc.
  set (P := λ s, sound s ∧ extends st s ∧ index_complete s).
  assert (Hcreate : ∀ bits start stop records,
            preserves P (create self bits start stop records)).
  { intros bits start stop records s (Hs & He & Hi).
    destruct (He self a Ha) as (a' & Ha' & _).
    destruct (create_sound s self a' bits start stop records Hs Ha') as [Hs' He'].
    split_and!; [done|by eapply extends_trans|].
    eapply create_index_complete; [apply Hs|done|done]. }
  assert (HP : preserves P (examined self)).
  { unfold examined. apply preserves_bind; [apply preserves_get|]. intros s.
    destruct (gaps s self) as [l|e]; [|apply preserves_raise].
    apply preserves_for_each. intros [start stop].
    apply preserves_bind; [apply Hcreate|]. intros _. apply preserves_ret. }
  apply HP. split_and!; [done|apply extends_refl, Hst|done].
Qed.

Lemma run_operation_index_complete st o :
  sound st → index_complete st → op_is_add_comment o = false →
  index_complete (run_operation st o).
Proof.
  intros Hst Hc Ho. unfold run_operation.
  case_decide as Hvalid; [|done].
  apply lookup_lt_is_Some in Hvalid as [a Ha].
  destruct o as [[self bits start stop records]|self|m]; simpl in *.
  - eapply create_index_complete; [apply Hst|done|done].
  - by eapply examined_index_complete.
  - by apply mutate_index_complete.
Qed.

(** Over any calls of [create], [examined], [set_name], [add_note],
    [add_type] and [add_description], returning or raising, the index
    stays complete: the name, the notes and the types of every artifact
    are keys of the index that hold the artifact.  [add_comment] is the
    one call left out. *)
Theorem operations_keep_index_complete (st : state) (os : list operation) :
  sound st → index_complete st →
  Forall (λ o, op_is_add_comment o = false) os →
  index_complete (run_operations os st).
Proof.
  revert st. induction os as [|o os IH]; intros st Hst Hc Hos; [done|].
  apply Forall_cons in Hos as [Ho Hos]. simpl.
  apply IH; [|by apply run_operation_index_complete|done].
  by apply run_operation_sound.
Qed.

Lemma operations_keep_index_complete_witness :
  index_complete
    (run_operations
       [ OpCreate (CreateCall 0 None (Some 2) (Some 6) None);
         OpMutate (SetName 0 "tape" true);
         OpExamined 0;
         OpMutate (AddType 1 "text");
         OpMutate (SetName 1 "tape" true) ]
       dig_AB).
Proof.
  apply (operations_keep_index_complete dig_AB).
  - apply soundb_sound. vm_compute. reflexivity.
  - apply dig_AB_index_complete.
  - repeat constructor.
Defined.

(* ===================================================================== *)
(** * Nothing is taken back *)
(* ===================================================================== *)

Lemma art_grows_refl a : art_grows a a.
Proof. by split_and!. Qed.

Lemma art_grows_trans a1 a2 a3 : art_grows a1 a2 → art_grows a2 a3 → art_grows a1 a3.
Proof.
  intros (P1 & C1 & L1 & D1 & M1 & N1 & T1 & Q1) (P2 & C2 & L2 & D2 & M2 & N2 & T2 & Q2).
  split_and!; try (by etrans).
  intros Hn. rewrite Q2, Q1; [done|done|]. by rewrite Q1.
Qed.

Lemma grows_refl st : grows st st.
Proof.
  split; try done. intros i a Hi. exists a. split; [done|apply art_grows_refl].
Qed.

Lemma grows_trans st1 st2 st3 : grows st1 st2 → grows st2 st3 → grows st1 st3.
Proof.
  intros [A1 N1 T1 I1] [A2 N2 T2 I2]. split.
  - intros i a Hi. destruct (A1 i a Hi) as (a2 & Hi2 & G1).
    destruct (A2 i a2 Hi2) as (a3 & Hi3 & G2).
    exists a3. split; [done|by eapply art_grows_trans].
  - by etrans.
  - by etrans.
  - auto.
Qed.

Lemma grows_upd_art st i f :
  (∀ a, arts st !! i = Some a → art_grows a (f a)) → grows st (upd_art i f st).
Proof.
  intros Hf. split; try done.
  intros j a Hj. destruct (decide (i = j)) as [->|Hne].
  - exists (f a). split; [by apply arts_upd_art_eq|by apply Hf].
  - exists a. split; [by rewrite arts_upd_art_ne|apply art_grows_refl].
Qed.

Lemma grows_add_to_index st key this : grows st (exec (add_to_index key this) st).
Proof.
  split; try done.
  - intros i a Hi. exists a. split; [done|apply art_grows_refl].
  - intros k i. unfold registered, exec, add_to_index, modify. simpl.
    destruct (decide (key = k)) as [->|Hne].
    + rewrite lookup_insert_eq. simpl. set_solver.
    + by rewrite lookup_insert_ne.
Qed.

Lemma grows_add_note st self note : grows st (exec (add_note self note) st).
Proof.
  eapply grows_trans; [|apply grows_add_to_index].
  apply (grows_upd_art _ self (set_notes (λ s, s ∪ {[note]}))).
  intros a _. split_and!; simpl; try done. set_solver.
Qed.

(** [set_name] gives a name to an artifact that has none, and to no
    other. *)
Lemma grows_set_name st self n fallback : grows st (exec (set_name self n fallback) st).
Proof.
  unfold exec, set_name. run.
  case_bool_decide; [apply grows_refl|].
  assert (Hdemote : grows st (exec (add_note self n ;; add_to_index n self) st)).
  { eapply grows_trans; [apply grows_add_note|]. apply grows_add_to_index. }
  case_bool_decide as Hnamed; [destruct fallback; [done|apply grows_refl]|].
  case_bool_decide; [destruct fallback; [done|apply grows_refl]|].
  simpl.
  eapply grows_trans; [|apply grows_add_to_index].
  eapply grows_trans with (upd_top (set_names (λ s, s ∪ {[n]})) st).
  - split; try done.
    + intros i a Hi. exists a. split; [done|apply art_grows_refl].
    + simpl. set_solver.
  - apply (grows_upd_art _ self (set_named (Some n))).
    intros a Ha. split_and!; simpl; try done.
    intros Hn. simpl in Ha. rewrite (art_lookup _ _ _ Ha) in Hnamed. congruence.
Qed.

Lemma grows_mutate st m : grows st (mutate st m).
Proof.
  destruct m as [self n fb|self x|self x|self d|self d]; simpl.
  - apply grows_set_name.
  - apply grows_add_note.
  - eapply grows_trans; [|apply grows_add_to_index].
    apply (grows_upd_art _ self (set_types (λ s, s ∪ {[x]}))).
    intros a _. split_and!; simpl; try done. set_solver.
  - eapply grows_trans.
    + apply (grows_upd_art _ self (set_comments (λ l, l ++ [d]))).
      intros a _. split_and!; simpl; try done. by apply prefix_app_r.
    + apply (grows_upd_art _ self (set_notes (λ s, s ∪ {["Has Comment"]}))).
      intros a _. split_and!; simpl; try done. set_solver.
  - apply (grows_upd_art _ self (set_descriptions (λ l, l ++ [d]))).
    intros a _. split_and!; simpl; try done. by apply prefix_app_r.
Qed.

Lemma touched_annotations self x start stop j a :
  descriptions (touched self x start stop j a) = descriptions a
  ∧ comments (touched self x start stop j a) = comments a.
Proof. unfold touched. repeat case_decide; by destruct (truthy start || truthy stop). Qed.

Lemma grows_after_create st self x d start stop bits :
  grows st (after_create st self x d start stop bits).
Proof.
  split; try done.
  intros i a Hi. eexists. split; [by apply arts_after_create_old|].
  destruct (touched_notes self x start stop i a) as (Hn & Ht & Hm).
  destruct (touched_annotations self x start stop i a) as (Hd & Hc).
  unfold art_grows.
  rewrite touched_parents, touched_children, touched_layout, Hn, Ht, Hm, Hd, Hc.
  split_and!; try done.
  - case_decide; [by apply prefix_app_r|done].
  - case_decide; [by apply prefix_app_r|done].
  - case_decide; [|done]. destruct (truthy start || truthy stop); [|done].
    by apply prefix_app_r.
Qed.

Lemma create_grows st self a bits start stop records :
  wf st → arts st !! self = Some a →
  grows st (exec (create self bits start stop records) st).
Proof.
  intros Hwf Ha.
  destruct (create_cases st self a bits start stop records Hwf Ha)
    as [[r Hr]|(x & b & Hrun & _)]; unfold exec.
  - rewrite Hr. apply grows_refl.
  - rewrite Hrun. apply grows_after_create.
Qed.

Lemma examined_grows st self a :
  sound st → arts st !! self = Some a → grows st (exec (examined self) st).
Proof.
  intros Hst Ha.
  set (P := λ s, sound s ∧ extends st s ∧ grows st s).
  assert (Hcreate : ∀ bits start stop records,
            preserves P (create self bits start stop records)).
  { intros bits start stop records s (Hs & He & Hg).
    destruct (He self a Ha) as (a' & Ha' & _).
    destruct (create_sound s self a' bits start stop records Hs Ha') as [Hs' He'].
    split_and!; [done|by eapply extends_trans|].
    eapply grows_trans; [done|]. eapply create_grows; [apply Hs|done]. }
  assert (HP : preserves P (examined self)).
  { unfold examined. apply preserves_bind; [apply preserves_get|]. intros s.
    destruct (gaps s self) as [l|e]; [|apply preserves_raise].
    apply preserves_for_each. intros [start stop].
    apply preserves_bind; [apply Hcreate|]. intros _. apply preserves_ret. }
  apply HP. split_and!; [done|apply extends_refl, Hst|apply grows_refl].
Qed.

Lemma run_operation_grows st o : sound st → grows st (run_operation st o).
Proof.
  intros Hst. unfold run_operation.
  case_decide as Hvalid; [|apply grows_refl].
  apply lookup_lt_is_Some in Hvalid as [a Ha].
  destruct o as [[self bits start stop records]|self|m]; simpl in *.
  - eapply create_grows; [apply Hst|done].
  - by eapply examined_grows.
  - apply grows_mutate.
Qed.

(** Nothing is taken back.  Over any calls of [create], [examined],
    [set_name] and the [add_] methods, returning or raising, every
    artifact keeps its parents, children, layout tuples, descriptions and
    comments, in their order and with the new ones after them; it keeps
    its notes and types; a name it has is the name it keeps; and
    [top.names], the children of the excavation and the entries of the
    index are kept as well. *)
Theorem operations_only_add (st : state) (os : list operation) :
  sound st → grows st (run_operations os st).
Proof.
  revert st. induction os as [|o os IH]; intros st Hst; simpl.
  - apply grows_refl.
  - eapply grows_trans; [by apply run_operation_grows|].
    apply IH. by apply run_operation_sound.
Qed.

Lemma operations_only_add_witness :
  grows dig_AB (run_operations demo_operations dig_AB).
Proof.
  apply (operations_only_add dig_AB demo_operations).
  apply soundb_sound. vm_compute. reflexivity.
Defined.
